(** * Fleet management: navigation graph, robots, fleet and traffic managers

    A shallow embedding of the simulation core of the repository
    (src/models/nav_graph.py, src/models/robot.py,
    src/controllers/fleet_manager.py, src/controllers/traffic_manager.py,
    src/utils/helpers.py) and the properties of its specification.

    Conventions of the embedding.
    - Python floats are exact rationals ([Qc], canonical fractions, so that
      equality of numbers and of records holding them is Leibniz equality):
      the properties proved on them rest on order and on sums that are
      exact. Where rounding decides the outcome, the code is also embedded
      on binary64 numbers, the kernel's primitive floats (module
      [Binary64]).
    - [math.sqrt] is a parameter [sqrt : Qc -> Qc] of the definitions that
      reach it.
    - [time.time()] and [uuid.uuid4()] are read from the environment: the
      value they return is an extra argument ([now], [new_task_id]).
    - A method that mutates [self] takes the object and returns it; a method
      that can raise returns a [result] next to the object as the raise
      leaves it.
    - Vertex indices, path indices and counters are [nat]: the
      non-negative ints. A negative int, which Python's list indexing
      counts from the end of the list, is covered by [py_getitem] and the
      methods of module [NavGraphInt]. *)

From Stdlib Require Import QArith Qcanon Lqa Lia List Floats.
From stdpp Require Import gmap strings list fin_maps pretty.

(** ** Exceptions *)

Inductive exn : Type :=
| IndexError
| ValueError
| TypeError
| KeyError.

Inductive result (A : Type) : Type :=
| Ret (a : A)
| Raise (e : exn).

Arguments Ret {A} a.
Arguments Raise {A} e.

(** ** Numbers *)

(** [max(a, b)] of Python: the first argument unless the second is greater. *)
Definition pymax (a b : Qc) : Qc := if decide (a < b)%Qc then b else a.

(** [min(a, b)] of Python: the first argument unless the second is smaller. *)
Definition pymin (a b : Qc) : Qc := if decide (b < a)%Qc then b else a.

Definition Qc_of_Z (z : Z) : Qc := Q2Qc (inject_Z z).

(** The literal [0.01]. *)
Definition one_hundredth : Qc := Q2Qc (1 # 100).

(** ** Robot (src/models/robot.py) *)

Module Robot.

Inductive State : Type :=
| IDLE
| MOVING
| WAITING
| CHARGING
| TASK_COMPLETE.

#[global] Instance State_eq_dec : EqDecision State.
Proof. solve_decision. Defined.

Record t : Type := mk {
  id : string;
  position_idx : nat;
  position : Qc * Qc;
  color : string;
  state : State;
  path : list nat;
  current_path_index : nat;
  destination_idx : option nat;
  task_id : option string;
  last_update_time : Qc;
  target_position : Qc * Qc;
  progress : Qc;
  path_blocked : bool;
  battery_level : Qc;
  speed : Qc;
  blocked_time : Qc
}.

Definition DEFAULT_SPEED : Qc := 1%Qc.

(** [Robot.__init__]; [now] is the clock at construction. *)
Definition init (now : Qc) (robot_id : string) (position_idx : nat)
    (position : Qc * Qc) (color : string) : t :=
  {| id := robot_id;
     position_idx := position_idx;
     position := position;
     color := color;
     state := IDLE;
     path := [];
     current_path_index := 0;
     destination_idx := None;
     task_id := None;
     last_update_time := now;
     target_position := position;
     progress := 0%Qc;
     path_blocked := false;
     battery_level := Qc_of_Z 100;
     speed := DEFAULT_SPEED;
     blocked_time := 0%Qc |}.

Definition set_state (s : State) (self : t) : t :=
  {| id := id self; position_idx := position_idx self;
     position := position self; color := color self;
     state := s;
     path := path self; current_path_index := current_path_index self;
     destination_idx := destination_idx self; task_id := task_id self;
     last_update_time := last_update_time self;
     target_position := target_position self; progress := progress self;
     path_blocked := path_blocked self; battery_level := battery_level self;
     speed := speed self; blocked_time := blocked_time self |}.

Definition set_blocked_time (b : Qc) (self : t) : t :=
  {| id := id self; position_idx := position_idx self;
     position := position self; color := color self;
     state := state self;
     path := path self; current_path_index := current_path_index self;
     destination_idx := destination_idx self; task_id := task_id self;
     last_update_time := last_update_time self;
     target_position := target_position self; progress := progress self;
     path_blocked := path_blocked self; battery_level := battery_level self;
     speed := speed self; blocked_time := b |}.

Definition set_progress (p : Qc) (self : t) : t :=
  {| id := id self; position_idx := position_idx self;
     position := position self; color := color self;
     state := state self;
     path := path self; current_path_index := current_path_index self;
     destination_idx := destination_idx self; task_id := task_id self;
     last_update_time := last_update_time self;
     target_position := target_position self; progress := p;
     path_blocked := path_blocked self; battery_level := battery_level self;
     speed := speed self; blocked_time := blocked_time self |}.

Definition set_position (p : Qc * Qc) (self : t) : t :=
  {| id := id self; position_idx := position_idx self;
     position := p; color := color self;
     state := state self;
     path := path self; current_path_index := current_path_index self;
     destination_idx := destination_idx self; task_id := task_id self;
     last_update_time := last_update_time self;
     target_position := target_position self; progress := progress self;
     path_blocked := path_blocked self; battery_level := battery_level self;
     speed := speed self; blocked_time := blocked_time self |}.

Definition set_position_idx (i : nat) (self : t) : t :=
  {| id := id self; position_idx := i;
     position := position self; color := color self;
     state := state self;
     path := path self; current_path_index := current_path_index self;
     destination_idx := destination_idx self; task_id := task_id self;
     last_update_time := last_update_time self;
     target_position := target_position self; progress := progress self;
     path_blocked := path_blocked self; battery_level := battery_level self;
     speed := speed self; blocked_time := blocked_time self |}.

Definition set_current_path_index (i : nat) (self : t) : t :=
  {| id := id self; position_idx := position_idx self;
     position := position self; color := color self;
     state := state self;
     path := path self; current_path_index := i;
     destination_idx := destination_idx self; task_id := task_id self;
     last_update_time := last_update_time self;
     target_position := target_position self; progress := progress self;
     path_blocked := path_blocked self; battery_level := battery_level self;
     speed := speed self; blocked_time := blocked_time self |}.

Definition set_battery_level (b : Qc) (self : t) : t :=
  {| id := id self; position_idx := position_idx self;
     position := position self; color := color self;
     state := state self;
     path := path self; current_path_index := current_path_index self;
     destination_idx := destination_idx self; task_id := task_id self;
     last_update_time := last_update_time self;
     target_position := target_position self; progress := progress self;
     path_blocked := path_blocked self; battery_level := b;
     speed := speed self; blocked_time := blocked_time self |}.

Definition set_path_blocked (b : bool) (self : t) : t :=
  {| id := id self; position_idx := position_idx self;
     position := position self; color := color self;
     state := state self;
     path := path self; current_path_index := current_path_index self;
     destination_idx := destination_idx self; task_id := task_id self;
     last_update_time := last_update_time self;
     target_position := target_position self; progress := progress self;
     path_blocked := b; battery_level := battery_level self;
     speed := speed self; blocked_time := blocked_time self |}.

(** The first four assignments of [assign_task], lines 57-60. *)
Definition store_task (new_task_id : string) (destination_idx : nat)
    (path : list nat) (self : t) : t :=
  {| id := id self; position_idx := position_idx self;
     position := position self; color := color self;
     state := state self;
     path := path; current_path_index := 0;
     destination_idx := Some destination_idx; task_id := Some new_task_id;
     last_update_time := last_update_time self;
     target_position := target_position self; progress := progress self;
     path_blocked := path_blocked self; battery_level := battery_level self;
     speed := speed self; blocked_time := blocked_time self |}.

(** [Robot.assign_task]. The task is stored first; the start of the path is
    compared with the robot's vertex afterwards ([path[0]] raises
    [IndexError] on an empty path, the comparison raises [ValueError]). *)
Definition assign_task (new_task_id : string) (destination_idx : nat)
    (path : list nat) (self : t) : result unit * t :=
  let self := store_task new_task_id destination_idx path self in
  match path with
  | [] => (Raise IndexError, self)
  | p0 :: _ =>
      if decide (position_idx self ≠ p0) then (Raise ValueError, self)
      else
        let self :=
          if decide (length path = 1) then set_state TASK_COMPLETE self
          else set_progress 0%Qc (set_state MOVING self) in
        (Ret tt, set_blocked_time 0%Qc (set_path_blocked false self))
  end.

(** [Robot.get_next_vertex]. *)
Definition get_next_vertex (self : t) : option nat :=
  if decide (path self = [] ∨ length (path self) - 1 ≤ current_path_index self)
  then None
  else path self !! (current_path_index self + 1).

(** [Robot.get_current_lane]. *)
Definition get_current_lane (self : t) : option (nat * nat) :=
  if decide (state self ≠ MOVING ∨ path self = [] ∨
             length (path self) - 1 ≤ current_path_index self)
  then None
  else
    match path self !! current_path_index self,
          path self !! (current_path_index self + 1) with
    | Some a, Some b => Some (a, b)
    | _, _ => None
    end.

(** [Robot.set_waiting]. *)
Definition set_waiting (now : Qc) (self : t) : t :=
  if decide (state self ≠ WAITING)
  then set_blocked_time now (set_state WAITING self)
  else self.

(** [Robot.resume_movement]. *)
Definition resume_movement (self : t) : t :=
  if decide (state self = WAITING)
  then set_blocked_time 0%Qc (set_state MOVING self)
  else self.

Section Update.

Variable now : Qc.
Variable delta_time : Qc.
Variable get_vertex_coords : nat -> result (Qc * Qc).
Variable calculate_distance : nat -> nat -> result Qc.
Variable is_lane_blocked : nat -> nat -> string -> bool.

(** Lines 145-192 of [Robot.update]: the robot is moving. *)
Definition update_moving (self : t) : result bool * t :=
  if decide (current_path_index self < length (path self) - 1) then
    match path self !! current_path_index self,
          path self !! (current_path_index self + 1) with
    | Some current_vertex_idx, Some next_vertex_idx =>
        if is_lane_blocked current_vertex_idx next_vertex_idx (id self)
        then (Ret true, set_waiting now self)
        else
          match get_vertex_coords current_vertex_idx with
          | Raise e => (Raise e, self)
          | Ret start_pos =>
          match get_vertex_coords next_vertex_idx with
          | Raise e => (Raise e, self)
          | Ret end_pos =>
          match calculate_distance current_vertex_idx next_vertex_idx with
          | Raise e => (Raise e, self)
          | Ret total_distance =>
              let distance_to_move := (speed self * delta_time)%Qc in
              let progress_increment :=
                if decide (0 < total_distance)%Qc
                then (distance_to_move / total_distance)%Qc
                else 1%Qc in
              let p := pymin 1%Qc
                         (pymax 0%Qc (progress self + progress_increment)%Qc) in
              let self := set_progress p self in
              let self :=
                set_position
                  ((start_pos.1 + (end_pos.1 - start_pos.1) * p)%Qc,
                   (start_pos.2 + (end_pos.2 - start_pos.2) * p)%Qc) self in
              let drain (r : t) : t :=
                set_battery_level
                  (pymax 0%Qc
                     (battery_level r - one_hundredth * distance_to_move)%Qc)
                  r in
              if decide (1 ≤ p)%Qc then
                let self := set_position end_pos self in
                let self := set_position_idx next_vertex_idx self in
                let self :=
                  set_current_path_index (current_path_index self + 1) self in
                let self := set_progress 0%Qc self in
                if decide (length (path self) - 1 ≤ current_path_index self)
                then (Ret true, set_state TASK_COMPLETE self)
                else (Ret true, drain self)
              else (Ret true, drain self)
          end end end
    | _, _ => (Raise IndexError, self)
    end
  else (Ret false, self).

(** [Robot.update]. *)
Definition update (self : t) : result bool * t :=
  if decide (state self ≠ MOVING ∧ state self ≠ WAITING) then (Ret false, self)
  else if decide (state self = WAITING) then
    match path self !! current_path_index self with
    | None => (Raise IndexError, self)
    | Some current_vertex =>
        match get_next_vertex self with
        | Some next_vertex =>
            if negb (is_lane_blocked current_vertex next_vertex (id self))
            then update_moving (resume_movement self)
            else (Ret false, self)
        | None => (Ret false, self)
        end
    end
  else update_moving self.

End Update.

End Robot.

(** ** NavGraph (src/models/nav_graph.py) *)

(** A distance of Dijkstra's table: a number or [float('infinity')]. *)
Inductive dist : Type :=
| Fin (q : Qc)
| Inf.

(** [a < b] on distances. *)
Definition dist_ltb (a b : dist) : bool :=
  match a, b with
  | Fin p, Fin q => bool_decide (p < q)%Qc
  | Fin _, Inf => true
  | Inf, _ => false
  end.

(** [a + length]. *)
Definition dist_add (a : dist) (w : Qc) : dist :=
  match a with
  | Fin p => Fin (p + w)%Qc
  | Inf => Inf
  end.

Module NavGraph.

(** A vertex: the dictionary with keys ['index'], ['x'], ['y'] and
    ['attrs'], of which the name and the charger flag are read. *)
Record Vertex : Type := mkVertex {
  index : nat;
  vx : Qc;
  vy : Qc;
  attrs_name : option string;
  attrs_is_charger : bool
}.

(** A lane: the dictionary with keys ['start_idx'], ['end_idx'] and
    ['length'] (the attributes of a lane are never read). *)
Record Lane : Type := mkLane {
  start_idx : nat;
  end_idx : nat;
  lane_length : Qc
}.

Record t : Type := mk {
  vertices : list Vertex;
  lanes : list Lane;
  adjacency_list : gmap nat (list (nat * Qc))
}.

Section WithSqrt.

Variable sqrt : Qc -> Qc.

(** [NavGraph.calculate_distance], on the list of vertices. *)
Definition distance_in (vs : list Vertex) (start_idx end_idx : nat)
    : result Qc :=
  match vs !! start_idx with
  | None => Raise IndexError
  | Some start_vertex =>
      match vs !! end_idx with
      | None => Raise IndexError
      | Some end_vertex =>
          Ret (sqrt ((vx start_vertex - vx end_vertex) *
                     (vx start_vertex - vx end_vertex) +
                     (vy start_vertex - vy end_vertex) *
                     (vy start_vertex - vy end_vertex))%Qc)
      end
  end.

Definition calculate_distance (self : t) (start_idx end_idx : nat)
    : result Qc :=
  distance_in (vertices self) start_idx end_idx.

(** [for lane in self.lanes: self.adjacency_list[start_idx].append(...)]. *)
Fixpoint append_lanes (ls : list Lane) (adj : gmap nat (list (nat * Qc)))
    : result (gmap nat (list (nat * Qc))) :=
  match ls with
  | [] => Ret adj
  | lane :: ls' =>
      match adj !! start_idx lane with
      | None => Raise KeyError
      | Some out =>
          append_lanes ls'
            (<[start_idx lane := out ++ [(end_idx lane, lane_length lane)]]> adj)
      end
  end.

(** [{i: [] for i in range(n)}]. *)
Definition empty_adjacency (n : nat) : gmap nat (list (nat * Qc)) :=
  list_to_map (map (fun i => (i, [])) (seq 0 n)).

(** [NavGraph.build_adjacency_list]. *)
Definition build_adjacency_list (vs : list Vertex) (ls : list Lane)
    : result (gmap nat (list (nat * Qc))) :=
  append_lanes ls (empty_adjacency (length vs)).

(** The loop over [level_data['lanes']] of [load_graph]. *)
Fixpoint load_lanes (vs : list Vertex) (lane_data : list (nat * nat))
    : result (list Lane) :=
  match lane_data with
  | [] => Ret []
  | (s, e) :: rest =>
      match distance_in vs s e with
      | Raise ex => Raise ex
      | Ret len =>
          match load_lanes vs rest with
          | Raise ex => Raise ex
          | Ret ls => Ret (mkLane s e len :: ls)
          end
      end
  end.

(** The loop over [level_data['vertices']] of [load_graph]: the vertex at
    position [i] gets index [i], and an empty name is replaced by
    ["v<i>"]. *)
Fixpoint load_vertices (i : nat)
    (vertex_data : list (Qc * Qc * option string * bool)) : list Vertex :=
  match vertex_data with
  | [] => []
  | (vx0, vy0, nm, ch) :: rest =>
      let nm' :=
        match nm with
        | Some EmptyString => Some ("v" +:+ pretty i)
        | _ => nm
        end in
      mkVertex i vx0 vy0 nm' ch :: load_vertices (S i) rest
  end.

(** [NavGraph.load_graph], from the parsed data of the first level. *)
Definition load_graph (vertex_data : list (Qc * Qc * option string * bool))
    (lane_data : list (nat * nat)) : result t :=
  let vs := load_vertices 0 vertex_data in
  match load_lanes vs lane_data with
  | Raise ex => Raise ex
  | Ret ls =>
      match build_adjacency_list vs ls with
      | Raise ex => Raise ex
      | Ret adj => Ret (mk vs ls adj)
      end
  end.

End WithSqrt.

(** [NavGraph.get_vertex_coords]. *)
Definition get_vertex_coords (self : t) (index : nat) : result (Qc * Qc) :=
  match vertices self !! index with
  | None => Raise IndexError
  | Some vertex => Ret (vx vertex, vy vertex)
  end.

(** [NavGraph.get_vertex_name]. *)
Definition get_vertex_name (self : t) (index : nat) : result string :=
  match vertices self !! index with
  | None => Raise IndexError
  | Some vertex =>
      Ret (match attrs_name vertex with
           | Some nm => nm
           | None => "v" +:+ pretty index
           end)
  end.

(** [NavGraph.get_vertex_by_index]. *)
Definition get_vertex_by_index (self : t) (index : nat) : result Vertex :=
  match vertices self !! index with
  | None => Raise IndexError
  | Some vertex => Ret vertex
  end.

(** [NavGraph.get_lane]. *)
Definition get_lane (self : t) (s e : nat) : option Lane :=
  find (fun lane => bool_decide (start_idx lane = s ∧ end_idx lane = e))
       (lanes self).

(** [NavGraph.get_chargers]. *)
Definition get_chargers (self : t) : list Vertex :=
  filter (fun vertex => attrs_is_charger vertex = true) (vertices self).

(** *** Dijkstra's algorithm *)

(** The tables of [find_shortest_path]: [distances], [previous] and the set
    [unvisited], which is iterated in ascending order of the indices. *)
Record search : Type := mkSearch {
  distances : gmap nat dist;
  previous : gmap nat (option nat);
  unvisited : list nat
}.

(** [min(unvisited, key=lambda x: distances[x])] on a non-empty set whose
    first element is [best]: a later element replaces the candidate only
    when its key is smaller. *)
Fixpoint min_by_distance (distances : gmap nat dist) (best : nat)
    (best_d : dist) (rest : list nat) : result nat :=
  match rest with
  | [] => Ret best
  | v :: rest' =>
      match distances !! v with
      | None => Raise KeyError
      | Some d =>
          if dist_ltb d best_d then min_by_distance distances v d rest'
          else min_by_distance distances best best_d rest'
      end
  end.

(** The body of [for neighbor, length in self.adjacency_list[current]]. *)
Fixpoint relax (current : nat) (out : list (nat * Qc))
    (distances : gmap nat dist) (previous : gmap nat (option nat))
    : result (gmap nat dist * gmap nat (option nat)) :=
  match out with
  | [] => Ret (distances, previous)
  | (neighbor, len) :: out' =>
      match distances !! current with
      | None => Raise KeyError
      | Some dc =>
          let alternative_route := dist_add dc len in
          match distances !! neighbor with
          | None => Raise KeyError
          | Some dn =>
              if dist_ltb alternative_route dn
              then relax current out'
                     (<[neighbor := alternative_route]> distances)
                     (<[neighbor := Some current]> previous)
              else relax current out' distances previous
          end
      end
  end.

(** The [while unvisited] loop; [fuel] bounds the number of iterations,
    [None] reports that the bound was reached. *)
Fixpoint search_loop (self : t) (end_idx : nat) (fuel : nat) (s : search)
    : option (result search) :=
  match unvisited s with
  | [] => Some (Ret s)
  | first :: rest =>
      match distances s !! first with
      | None => Some (Raise KeyError)
      | Some first_d =>
          match min_by_distance (distances s) first first_d rest with
          | Raise ex => Some (Raise ex)
          | Ret current =>
              match distances s !! current with
              | None => Some (Raise KeyError)
              | Some dc =>
                  if bool_decide (current = end_idx) ||
                     (match dc with Inf => true | Fin _ => false end)
                  then Some (Ret s)
                  else
                    match fuel with
                    | 0 => None
                    | S fuel' =>
                        let unvisited' :=
                          filter (fun v => v ≠ current) (unvisited s) in
                        match adjacency_list self !! current with
                        | None => Some (Raise KeyError)
                        | Some out =>
                            match relax current out (distances s)
                                    (previous s) with
                            | Raise ex => Some (Raise ex)
                            | Ret (d', p') =>
                                search_loop self end_idx fuel'
                                  (mkSearch d' p' unvisited')
                            end
                        end
                    end
              end
          end
      end
  end.

(** The [while current is not None] loop that walks [previous] back from
    the target; [fuel] bounds the number of iterations. *)
Fixpoint walk_back (previous : gmap nat (option nat)) (fuel : nat)
    (current : option nat) (path : list nat) : option (result (list nat)) :=
  match current with
  | None => Some (Ret path)
  | Some c =>
      match fuel with
      | 0 => None
      | S fuel' =>
          match previous !! c with
          | None => Some (Raise KeyError)
          | Some prev => walk_back previous fuel' prev (path ++ [c])
          end
      end
  end.

(** [{i: v for i in range(n)}]. *)
Definition constant_table {A : Type} (n : nat) (v : A) : gmap nat A :=
  list_to_map (map (fun i => (i, v)) (seq 0 n)).

(** [NavGraph.find_shortest_path]. Both loops run on [fuel]; the result is
    [None] only when a loop used it up. *)
Definition find_shortest_path_fuel (fuel : nat) (self : t)
    (start_idx end_idx : nat) : option (result (list nat)) :=
  if decide (start_idx = end_idx) then Some (Ret [start_idx])
  else
    let n := length (vertices self) in
    let distances0 := <[start_idx := Fin 0%Qc]> (constant_table n Inf) in
    let previous0 := constant_table n (@None nat) in
    let unvisited0 := seq 0 n in
    match search_loop self end_idx fuel
            (mkSearch distances0 previous0 unvisited0) with
    | None => None
    | Some (Raise ex) => Some (Raise ex)
    | Some (Ret s) =>
        match previous s !! end_idx with
        | None => Some (Raise KeyError)
        | Some prev_end =>
            if bool_decide (prev_end = None) &&
               negb (bool_decide (end_idx = start_idx))
            then Some (Ret [])
            else
              match walk_back (previous s) fuel (Some end_idx) [] with
              | None => None
              | Some (Raise ex) => Some (Raise ex)
              | Some (Ret path) => Some (Ret (rev path))
              end
        end
    end.

(** The loops of [find_shortest_path] end within [len(vertices) + 1]
    iterations (lemmas [search_loop_total] and [walk_back_chain] below),
    which is the fuel the method runs on. *)
Definition find_shortest_path (self : t) (start_idx end_idx : nat)
    : option (result (list nat)) :=
  find_shortest_path_fuel (S (length (vertices self))) self start_idx end_idx.

End NavGraph.

(** *** The methods of [NavGraph] on an arbitrary int *)

(** [l[i]] for a Python int [i]: a negative index counts from the end of
    the list, and an index outside [-len(l) <= i < len(l)] raises
    [IndexError]. *)
Definition py_getitem {A : Type} (l : list A) (i : Z) : result A :=
  let j := if decide (i < 0)%Z then (i + Z.of_nat (length l))%Z else i in
  if decide (j < 0)%Z then Raise IndexError
  else
    match l !! Z.to_nat j with
    | Some x => Ret x
    | None => Raise IndexError
    end.

Module NavGraphInt.

(** [NavGraph.get_vertex_by_index]. *)
Definition get_vertex_by_index (self : NavGraph.t) (index : Z)
    : result NavGraph.Vertex :=
  py_getitem (NavGraph.vertices self) index.

(** [NavGraph.get_vertex_coords]. *)
Definition get_vertex_coords (self : NavGraph.t) (index : Z)
    : result (Qc * Qc) :=
  match py_getitem (NavGraph.vertices self) index with
  | Raise e => Raise e
  | Ret vertex => Ret (NavGraph.vx vertex, NavGraph.vy vertex)
  end.

(** [NavGraph.get_vertex_name]: the default name is written from the
    index as it was passed. *)
Definition get_vertex_name (self : NavGraph.t) (index : Z) : result string :=
  match py_getitem (NavGraph.vertices self) index with
  | Raise e => Raise e
  | Ret vertex =>
      Ret (match NavGraph.attrs_name vertex with
           | Some nm => nm
           | None => "v" +:+ pretty index
           end)
  end.

(** [NavGraph.calculate_distance]. *)
Definition calculate_distance (sqrt : Qc -> Qc) (self : NavGraph.t)
    (start_idx end_idx : Z) : result Qc :=
  match py_getitem (NavGraph.vertices self) start_idx with
  | Raise e => Raise e
  | Ret start_vertex =>
      match py_getitem (NavGraph.vertices self) end_idx with
      | Raise e => Raise e
      | Ret end_vertex =>
          Ret (sqrt ((NavGraph.vx start_vertex - NavGraph.vx end_vertex) *
                     (NavGraph.vx start_vertex - NavGraph.vx end_vertex) +
                     (NavGraph.vy start_vertex - NavGraph.vy end_vertex) *
                     (NavGraph.vy start_vertex - NavGraph.vy end_vertex))%Qc)
      end
  end.

End NavGraphInt.

(** ** FleetManager (src/controllers/fleet_manager.py) *)

Module FleetManager.

(** The lines that [log_event] appends to the log file, one constructor per
    message, with the values the message interpolates. Writing the file
    cannot fail the caller ([log_event] catches every exception). *)
Inductive LogEvent : Type :=
| RobotCreated (robot_id vertex_name : string) (vertex_idx : nat)
| AssignNoRobot (robot_id : string)
| AssignBusy (robot_id : string)
| AssignNoPath (start_idx destination_idx : nat)
| TaskAssigned (robot_id start_name dest_name : string)
| AssignError (robot_id : string) (e : exn)
| Arrived (robot_id dest_name : string)
| WaitingFor (robot_id : string) (lane : nat * nat) (blocking : option string)
| Moved (robot_id from_name to_name : string).

(** [robots] is the dictionary from robot ids to robots, in insertion
    order, which is the order in which [items()] yields it. *)
Record t : Type := mk {
  nav_graph : NavGraph.t;
  robots : list (string * Robot.t);
  robot_count : nat;
  occupied_lanes : gmap (nat * nat) string;
  log : list LogEvent
}.

Definition ROBOT_COLORS : list string :=
  ["#FF0000"; "#00FF00"; "#0000FF"; "#FFFF00"; "#FF00FF";
   "#00FFFF"; "#FF8000"; "#8000FF"; "#0080FF"; "#FF0080"].

(** [FleetManager.__init__]. *)
Definition init (nav_graph : NavGraph.t) : t :=
  mk nav_graph [] 0 ∅ [].

(** [FleetManager.log_event]. *)
Definition log_event (message : LogEvent) (self : t) : t :=
  mk (nav_graph self) (robots self) (robot_count self) (occupied_lanes self)
     (log self ++ [message]).

Definition set_robots (rs : list (string * Robot.t)) (self : t) : t :=
  mk (nav_graph self) rs (robot_count self) (occupied_lanes self) (log self).

Definition set_robot_count (n : nat) (self : t) : t :=
  mk (nav_graph self) (robots self) n (occupied_lanes self) (log self).

Definition set_occupied_lanes (o : gmap (nat * nat) string) (self : t) : t :=
  mk (nav_graph self) (robots self) (robot_count self) o (log self).

(** [self.robots.get(robot_id)]. *)
Fixpoint robots_get (rs : list (string * Robot.t)) (robot_id : string)
    : option Robot.t :=
  match rs with
  | [] => None
  | (k, r) :: rs' => if decide (k = robot_id) then Some r else robots_get rs' robot_id
  end.

(** [self.robots[robot_id] = robot]: the value of an existing key is
    replaced in place, a new key goes to the end. *)
Fixpoint robots_set (rs : list (string * Robot.t)) (robot_id : string)
    (robot : Robot.t) : list (string * Robot.t) :=
  match rs with
  | [] => [(robot_id, robot)]
  | (k, r) :: rs' =>
      if decide (k = robot_id) then (k, robot) :: rs'
      else (k, r) :: robots_set rs' robot_id robot
  end.

(** [FleetManager.get_robot_by_id]. *)
Definition get_robot_by_id (self : t) (robot_id : string) : option Robot.t :=
  robots_get (robots self) robot_id.

(** [FleetManager.get_all_robots]. *)
Definition get_all_robots (self : t) : list (string * Robot.t) :=
  robots self.

(** [FleetManager.is_lane_blocked], on the table of occupied lanes. *)
Definition lane_blocked_in (occupied : gmap (nat * nat) string)
    (start_idx end_idx : nat) (robot_id : string) : bool :=
  match occupied !! (start_idx, end_idx) with
  | Some blocking_robot_id => bool_decide (blocking_robot_id ≠ robot_id)
  | None => false
  end.

Definition is_lane_blocked (self : t) (start_idx end_idx : nat)
    (robot_id : string) : bool :=
  lane_blocked_in (occupied_lanes self) start_idx end_idx robot_id.

(** [FleetManager.create_robot]; [now] is the clock read by the robot's
    constructor. The counter is advanced before the vertex is looked up. *)
Definition create_robot (now : Qc) (vertex_idx : nat) (self : t)
    : result string * t :=
  let robot_id := "R" +:+ pretty (robot_count self + 1) in
  let self := set_robot_count (robot_count self + 1) self in
  match NavGraph.get_vertex_coords (nav_graph self) vertex_idx with
  | Raise e => (Raise e, self)
  | Ret vertex_coords =>
      match ROBOT_COLORS !! (robot_count self mod length ROBOT_COLORS) with
      | None => (Raise IndexError, self)
      | Some color =>
          let robot := Robot.init now robot_id vertex_idx vertex_coords color in
          let self := set_robots (robots_set (robots self) robot_id robot) self in
          match NavGraph.get_vertex_name (nav_graph self) vertex_idx with
          | Raise e => (Raise e, self)
          | Ret vertex_name =>
              (Ret robot_id,
               log_event (RobotCreated robot_id vertex_name vertex_idx) self)
          end
      end
  end.

(** The [try] block of [FleetManager.assign_task]: the robot is assigned
    the path, then the two vertex names are read for the log line. The
    robot is returned as the block leaves it. *)
Definition try_assign (g : NavGraph.t) (new_task_id : string)
    (start_idx destination_idx : nat) (path : list nat) (robot : Robot.t)
    : result (string * string) * Robot.t :=
  match Robot.assign_task new_task_id destination_idx path robot with
  | (Raise e, robot') => (Raise e, robot')
  | (Ret _, robot') =>
      match NavGraph.get_vertex_name g start_idx with
      | Raise e => (Raise e, robot')
      | Ret start_name =>
          match NavGraph.get_vertex_name g destination_idx with
          | Raise e => (Raise e, robot')
          | Ret dest_name => (Ret (start_name, dest_name), robot')
          end
      end
  end.

(** [FleetManager.assign_task]. [None] only when the path search hit its
    iteration bound. *)
Definition assign_task (new_task_id : string) (robot_id : string)
    (destination_idx : nat) (self : t) : option (result bool * t) :=
  match robots_get (robots self) robot_id with
  | None => Some (Ret false, log_event (AssignNoRobot robot_id) self)
  | Some robot =>
      if decide (Robot.state robot = Robot.MOVING ∨
                 Robot.state robot = Robot.WAITING)
      then Some (Ret false, log_event (AssignBusy robot_id) self)
      else
        let start_idx := Robot.position_idx robot in
        match NavGraph.find_shortest_path (nav_graph self) start_idx
                destination_idx with
        | None => None
        | Some (Raise e) => Some (Raise e, self)
        | Some (Ret path) =>
            match path with
            | [] =>
                Some (Ret false,
                      log_event (AssignNoPath start_idx destination_idx) self)
            | _ :: _ =>
                match try_assign (nav_graph self) new_task_id start_idx
                        destination_idx path robot with
                | (Ret (start_name, dest_name), robot') =>
                    Some (Ret true,
                          log_event (TaskAssigned robot_id start_name dest_name)
                            (set_robots
                               (robots_set (robots self) robot_id robot') self))
                | (Raise e, robot') =>
                    Some (Ret false,
                          log_event (AssignError robot_id e)
                            (set_robots
                               (robots_set (robots self) robot_id robot') self))
                end
            end
        end
  end.

(** The first loop of [update_robots]: the lanes of the moving robots. *)
Fixpoint mark_occupied (rs : list (string * Robot.t))
    (occupied : gmap (nat * nat) string) : gmap (nat * nat) string :=
  match rs with
  | [] => occupied
  | (robot_id, robot) :: rs' =>
      match Robot.get_current_lane robot with
      | Some lane => mark_occupied rs' (<[lane := robot_id]> occupied)
      | None => mark_occupied rs' occupied
      end
  end.

(** The lines logged for a robot whose update reported a change. *)
Definition log_state_change (g : NavGraph.t)
    (occupied : gmap (nat * nat) string) (robot_id : string)
    (robot : Robot.t) : result (list LogEvent) :=
  if decide (Robot.state robot = Robot.TASK_COMPLETE) then
    match Robot.destination_idx robot with
    | None => Raise TypeError
    | Some d =>
        match NavGraph.get_vertex_name g d with
        | Raise e => Raise e
        | Ret dest_name => Ret [Arrived robot_id dest_name]
        end
    end
  else if decide (Robot.state robot = Robot.WAITING) then
    match Robot.get_current_lane robot with
    | Some lane => Ret [WaitingFor robot_id lane (occupied !! lane)]
    | None => Ret []
    end
  else if decide (Robot.state robot = Robot.MOVING ∧
                  Robot.current_path_index robot <
                    length (Robot.path robot) - 1) then
    match Robot.path robot !! Robot.current_path_index robot,
          Robot.path robot !! (Robot.current_path_index robot + 1) with
    | Some curr_idx, Some _ =>
        match Robot.current_path_index robot with
        | 0 => Ret []
        | S i =>
            match Robot.path robot !! i with
            | None => Raise IndexError
            | Some prev_idx =>
                if decide (prev_idx ≠ curr_idx) then
                  match NavGraph.get_vertex_name g prev_idx with
                  | Raise e => Raise e
                  | Ret from_name =>
                      match NavGraph.get_vertex_name g curr_idx with
                      | Raise e => Raise e
                      | Ret to_name => Ret [Moved robot_id from_name to_name]
                      end
                  end
                else Ret []
            end
        end
    | _, _ => Raise IndexError
    end
  else Ret [].

Section WithSqrt.

Variable sqrt : Qc -> Qc.

(** The state the second loop of [update_robots] works on: the robots
    already updated, the table of occupied lanes and the log. *)
Record pass : Type := mkPass {
  updated : list (string * Robot.t);
  table : gmap (nat * nat) string;
  lines : list LogEvent
}.

(** One iteration of the second loop of [update_robots]. *)
Definition update_one (g : NavGraph.t) (now delta_time : Qc)
    (robot_id : string) (robot : Robot.t) (p : pass) : result unit * pass :=
  match Robot.update now delta_time (NavGraph.get_vertex_coords g)
          (NavGraph.calculate_distance sqrt g)
          (lane_blocked_in (table p)) robot with
  | (Raise e, robot') =>
      (Raise e, mkPass (updated p ++ [(robot_id, robot')]) (table p) (lines p))
  | (Ret state_changed, robot') =>
      if state_changed then
        let occupied :=
          match Robot.get_current_lane robot' with
          | Some lane => <[lane := robot_id]> (table p)
          | None => table p
          end in
        match log_state_change g occupied robot_id robot' with
        | Raise e =>
            (Raise e,
             mkPass (updated p ++ [(robot_id, robot')]) occupied (lines p))
        | Ret msgs =>
            (Ret tt,
             mkPass (updated p ++ [(robot_id, robot')]) occupied
               (lines p ++ msgs))
        end
      else
        (Ret tt, mkPass (updated p ++ [(robot_id, robot')]) (table p) (lines p))
  end.

(** The second loop of [update_robots], over the robots still to update.
    A raise leaves the remaining robots as they are. *)
Fixpoint update_each (g : NavGraph.t) (now delta_time : Qc)
    (todo : list (string * Robot.t)) (p : pass) : result unit * pass :=
  match todo with
  | [] => (Ret tt, p)
  | (robot_id, robot) :: todo' =>
      match update_one g now delta_time robot_id robot p with
      | (Raise e, p') =>
          (Raise e, mkPass (updated p' ++ todo') (table p') (lines p'))
      | (Ret _, p') => update_each g now delta_time todo' p'
      end
  end.

(** [FleetManager.update_robots]. *)
Definition update_robots (now delta_time : Qc) (self : t) : result unit * t :=
  let occupied := mark_occupied (robots self) ∅ in
  match update_each (nav_graph self) now delta_time (robots self)
          (mkPass [] occupied (log self)) with
  | (r, p) =>
      (r, mk (nav_graph self) (updated p) (robot_count self) (table p)
             (lines p))
  end.

End WithSqrt.

End FleetManager.

(** ** TrafficManager (src/controllers/traffic_manager.py) *)

Module TrafficManager.

(** The two reservation tables. The fleet manager the traffic manager
    refers to is shared with the caller: the methods that reach it take it
    and return it. *)
Record t : Type := mk {
  intersection_slots : gmap nat (string * Qc);
  lane_reservations : gmap (nat * nat) (string * Qc)
}.

(** [TrafficManager.__init__]. *)
Definition init : t := mk ∅ ∅.

(** [TrafficManager.clear_expired_reservations]. *)
Definition clear_expired_reservations (current_time : Qc) (self : t) : t :=
  mk (filter (fun kv => ¬ (kv.2.2 < current_time)%Qc) (intersection_slots self))
     (filter (fun kv => ¬ (kv.2.2 < current_time)%Qc) (lane_reservations self)).

(** The body of the loop of [process_waiting_robots]. *)
Definition process_waiting_robot (fm : FleetManager.t) (robot_id : string)
    (robot : Robot.t) : Robot.t :=
  if decide (Robot.state robot = Robot.WAITING) then
    match Robot.get_current_lane robot with
    | None => robot
    | Some lane =>
        if negb (FleetManager.is_lane_blocked fm lane.1 lane.2 robot_id)
        then Robot.resume_movement robot
        else robot
    end
  else robot.

(** [TrafficManager.process_waiting_robots]: the robots of the fleet
    manager are visited in order; the table of occupied lanes is not
    written. *)
Definition process_waiting_robots (fm : FleetManager.t) : FleetManager.t :=
  FleetManager.set_robots
    (map (fun kr => (kr.1, process_waiting_robot fm kr.1 kr.2))
         (FleetManager.robots fm)) fm.

(** [TrafficManager.update]. *)
Definition update (current_time : Qc) (self : t) (fm : FleetManager.t)
    : t * FleetManager.t :=
  (clear_expired_reservations current_time self, process_waiting_robots fm).

(** The test of [reserve_lane], [reserve_intersection] and
    [check_path_availability] on an entry of a reservation table: the key
    is present, held by another robot, and its expiry time is later than
    the clock. *)
Definition held_by_other {K : Type} `{Countable K}
    (reservations : gmap K (string * Qc)) (key : K) (robot_id : string)
    (current_time : Qc) : bool :=
  match reservations !! key with
  | Some (reserved_robot_id, expiry_time) =>
      bool_decide (reserved_robot_id ≠ robot_id) &&
      bool_decide (current_time < expiry_time)%Qc
  | None => false
  end.

(** [TrafficManager.reserve_lane]; [now] is the clock the method reads. *)
Definition reserve_lane (now : Qc) (lane : nat * nat) (robot_id : string)
    (duration : Qc) (self : t) : bool * t :=
  if held_by_other (lane_reservations self) lane robot_id now
  then (false, self)
  else (true,
        mk (intersection_slots self)
           (<[lane := (robot_id, (now + duration)%Qc)]>
              (lane_reservations self))).

(** [TrafficManager.reserve_intersection]. *)
Definition reserve_intersection (now : Qc) (vertex_idx : nat)
    (robot_id : string) (duration : Qc) (self : t) : bool * t :=
  if held_by_other (intersection_slots self) vertex_idx robot_id now
  then (false, self)
  else (true,
        mk (<[vertex_idx := (robot_id, (now + duration)%Qc)]>
              (intersection_slots self))
           (lane_reservations self)).

(** The default durations of the two methods. *)
Definition DEFAULT_LANE_DURATION : Qc := Qc_of_Z 5.
Definition DEFAULT_INTERSECTION_DURATION : Qc := Qc_of_Z 2.

(** The loop of [check_path_availability], over the pairs
    [(path[i], path[i + 1])]. *)
Fixpoint check_segments (now : Qc) (robot_id : string) (self : t)
    (path : list nat) : bool :=
  match path with
  | start_idx :: (end_idx :: _) as rest =>
      if held_by_other (lane_reservations self) (start_idx, end_idx)
           robot_id now
      then false
      else if held_by_other (intersection_slots self) start_idx robot_id now
      then false
      else check_segments now robot_id self rest
  | _ => true
  end.

(** [TrafficManager.check_path_availability]. *)
Definition check_path_availability (now : Qc) (path : list nat)
    (robot_id : string) (self : t) : bool :=
  if decide (path = [] ∨ length path < 2) then true
  else check_segments now robot_id self path.

End TrafficManager.

(** ** Helpers (src/utils/helpers.py) *)

Module Helpers.


(** [lerp]. *)
Definition lerp (start end_ t : Qc) : Qc := (start + (end_ - start) * t)%Qc.

(** [lerp_points]. *)
Definition lerp_points (start end_ : Qc * Qc) (t : Qc) : Qc * Qc :=
  (lerp start.1 end_.1 t, lerp start.2 end_.2 t).

(** [clamp]: [max(min_value, min(value, max_value))]. *)
Definition clamp (value min_value max_value : Qc) : Qc :=
  pymax min_value (pymin value max_value).


End Helpers.

(** ** Robot on binary64 numbers (src/models/robot.py) *)

(** The class [Robot] once more, with its floats as the binary64 numbers
    they are: sums, products and quotients round to the nearest, ties to
    even. Everything else is as in module [Robot] above. *)

Module Binary64.

(** [max(a, b)] and [min(a, b)] of Python. *)
Definition pymax (a b : float) : float := if (a <? b)%float then b else a.

Definition pymin (a b : float) : float := if (b <? a)%float then b else a.

(** The literal [0.01]: the binary64 number nearest to one hundredth. *)
Definition one_hundredth : float := (1 / 100)%float.

Module Robot.

Record t : Type := mk {
  id : string;
  position_idx : nat;
  position : float * float;
  color : string;
  state : Robot.State;
  path : list nat;
  current_path_index : nat;
  destination_idx : option nat;
  task_id : option string;
  last_update_time : float;
  target_position : float * float;
  progress : float;
  path_blocked : bool;
  battery_level : float;
  speed : float;
  blocked_time : float
}.

Definition DEFAULT_SPEED : float := 1%float.

(** [Robot.__init__]; [now] is the clock at construction. *)
Definition init (now : float) (robot_id : string) (position_idx : nat)
    (position : float * float) (color : string) : t :=
  {| id := robot_id;
     position_idx := position_idx;
     position := position;
     color := color;
     state := Robot.IDLE;
     path := [];
     current_path_index := 0;
     destination_idx := None;
     task_id := None;
     last_update_time := now;
     target_position := position;
     progress := 0%float;
     path_blocked := false;
     battery_level := 100%float;
     speed := DEFAULT_SPEED;
     blocked_time := 0%float |}.

Definition set_state (s : Robot.State) (self : t) : t :=
  {| id := id self; position_idx := position_idx self;
     position := position self; color := color self;
     state := s;
     path := path self; current_path_index := current_path_index self;
     destination_idx := destination_idx self; task_id := task_id self;
     last_update_time := last_update_time self;
     target_position := target_position self; progress := progress self;
     path_blocked := path_blocked self; battery_level := battery_level self;
     speed := speed self; blocked_time := blocked_time self |}.

Definition set_blocked_time (b : float) (self : t) : t :=
  {| id := id self; position_idx := position_idx self;
     position := position self; color := color self;
     state := state self;
     path := path self; current_path_index := current_path_index self;
     destination_idx := destination_idx self; task_id := task_id self;
     last_update_time := last_update_time self;
     target_position := target_position self; progress := progress self;
     path_blocked := path_blocked self; battery_level := battery_level self;
     speed := speed self; blocked_time := b |}.

Definition set_progress (p : float) (self : t) : t :=
  {| id := id self; position_idx := position_idx self;
     position := position self; color := color self;
     state := state self;
     path := path self; current_path_index := current_path_index self;
     destination_idx := destination_idx self; task_id := task_id self;
     last_update_time := last_update_time self;
     target_position := target_position self; progress := p;
     path_blocked := path_blocked self; battery_level := battery_level self;
     speed := speed self; blocked_time := blocked_time self |}.

Definition set_position (p : float * float) (self : t) : t :=
  {| id := id self; position_idx := position_idx self;
     position := p; color := color self;
     state := state self;
     path := path self; current_path_index := current_path_index self;
     destination_idx := destination_idx self; task_id := task_id self;
     last_update_time := last_update_time self;
     target_position := target_position self; progress := progress self;
     path_blocked := path_blocked self; battery_level := battery_level self;
     speed := speed self; blocked_time := blocked_time self |}.

Definition set_position_idx (i : nat) (self : t) : t :=
  {| id := id self; position_idx := i;
     position := position self; color := color self;
     state := state self;
     path := path self; current_path_index := current_path_index self;
     destination_idx := destination_idx self; task_id := task_id self;
     last_update_time := last_update_time self;
     target_position := target_position self; progress := progress self;
     path_blocked := path_blocked self; battery_level := battery_level self;
     speed := speed self; blocked_time := blocked_time self |}.

Definition set_current_path_index (i : nat) (self : t) : t :=
  {| id := id self; position_idx := position_idx self;
     position := position self; color := color self;
     state := state self;
     path := path self; current_path_index := i;
     destination_idx := destination_idx self; task_id := task_id self;
     last_update_time := last_update_time self;
     target_position := target_position self; progress := progress self;
     path_blocked := path_blocked self; battery_level := battery_level self;
     speed := speed self; blocked_time := blocked_time self |}.

Definition set_battery_level (b : float) (self : t) : t :=
  {| id := id self; position_idx := position_idx self;
     position := position self; color := color self;
     state := state self;
     path := path self; current_path_index := current_path_index self;
     destination_idx := destination_idx self; task_id := task_id self;
     last_update_time := last_update_time self;
     target_position := target_position self; progress := progress self;
     path_blocked := path_blocked self; battery_level := b;
     speed := speed self; blocked_time := blocked_time self |}.

Definition set_path_blocked (b : bool) (self : t) : t :=
  {| id := id self; position_idx := position_idx self;
     position := position self; color := color self;
     state := state self;
     path := path self; current_path_index := current_path_index self;
     destination_idx := destination_idx self; task_id := task_id self;
     last_update_time := last_update_time self;
     target_position := target_position self; progress := progress self;
     path_blocked := b; battery_level := battery_level self;
     speed := speed self; blocked_time := blocked_time self |}.

(** The first four assignments of [assign_task], lines 57-60. *)
Definition store_task (new_task_id : string) (destination_idx : nat)
    (path : list nat) (self : t) : t :=
  {| id := id self; position_idx := position_idx self;
     position := position self; color := color self;
     state := state self;
     path := path; current_path_index := 0;
     destination_idx := Some destination_idx; task_id := Some new_task_id;
     last_update_time := last_update_time self;
     target_position := target_position self; progress := progress self;
     path_blocked := path_blocked self; battery_level := battery_level self;
     speed := speed self; blocked_time := blocked_time self |}.

(** [Robot.assign_task]. The task is stored first; the start of the path is
    compared with the robot's vertex afterwards ([path[0]] raises
    [IndexError] on an empty path, the comparison raises [ValueError]). *)
Definition assign_task (new_task_id : string) (destination_idx : nat)
    (path : list nat) (self : t) : result unit * t :=
  let self := store_task new_task_id destination_idx path self in
  match path with
  | [] => (Raise IndexError, self)
  | p0 :: _ =>
      if decide (position_idx self ≠ p0) then (Raise ValueError, self)
      else
        let self :=
          if decide (length path = 1) then set_state Robot.TASK_COMPLETE self
          else set_progress 0%float (set_state Robot.MOVING self) in
        (Ret tt, set_blocked_time 0%float (set_path_blocked false self))
  end.

(** [Robot.get_next_vertex]. *)
Definition get_next_vertex (self : t) : option nat :=
  if decide (path self = [] ∨ length (path self) - 1 ≤ current_path_index self)
  then None
  else path self !! (current_path_index self + 1).

(** [Robot.get_current_lane]. *)
Definition get_current_lane (self : t) : option (nat * nat) :=
  if decide (state self ≠ Robot.MOVING ∨ path self = [] ∨
             length (path self) - 1 ≤ current_path_index self)
  then None
  else
    match path self !! current_path_index self,
          path self !! (current_path_index self + 1) with
    | Some a, Some b => Some (a, b)
    | _, _ => None
    end.

(** [Robot.set_waiting]. *)
Definition set_waiting (now : float) (self : t) : t :=
  if decide (state self ≠ Robot.WAITING)
  then set_blocked_time now (set_state Robot.WAITING self)
  else self.

(** [Robot.resume_movement]. *)
Definition resume_movement (self : t) : t :=
  if decide (state self = Robot.WAITING)
  then set_blocked_time 0%float (set_state Robot.MOVING self)
  else self.

Section Update.

Variable now : float.
Variable delta_time : float.
Variable get_vertex_coords : nat -> result (float * float).
Variable calculate_distance : nat -> nat -> result float.
Variable is_lane_blocked : nat -> nat -> string -> bool.

(** Lines 145-192 of [Robot.update]: the robot is moving. *)
Definition update_moving (self : t) : result bool * t :=
  if decide (current_path_index self < length (path self) - 1) then
    match path self !! current_path_index self,
          path self !! (current_path_index self + 1) with
    | Some current_vertex_idx, Some next_vertex_idx =>
        if is_lane_blocked current_vertex_idx next_vertex_idx (id self)
        then (Ret true, set_waiting now self)
        else
          match get_vertex_coords current_vertex_idx with
          | Raise e => (Raise e, self)
          | Ret start_pos =>
          match get_vertex_coords next_vertex_idx with
          | Raise e => (Raise e, self)
          | Ret end_pos =>
          match calculate_distance current_vertex_idx next_vertex_idx with
          | Raise e => (Raise e, self)
          | Ret total_distance =>
              let distance_to_move := (speed self * delta_time)%float in
              let progress_increment :=
                if (0 <? total_distance)%float
                then (distance_to_move / total_distance)%float
                else 1%float in
              let p := pymin 1%float
                         (pymax 0%float (progress self + progress_increment)%float) in
              let self := set_progress p self in
              let self :=
                set_position
                  ((start_pos.1 + (end_pos.1 - start_pos.1) * p)%float,
                   (start_pos.2 + (end_pos.2 - start_pos.2) * p)%float) self in
              let drain (r : t) : t :=
                set_battery_level
                  (pymax 0%float
                     (battery_level r - one_hundredth * distance_to_move)%float)
                  r in
              if (1 <=? p)%float then
                let self := set_position end_pos self in
                let self := set_position_idx next_vertex_idx self in
                let self :=
                  set_current_path_index (current_path_index self + 1) self in
                let self := set_progress 0%float self in
                if decide (length (path self) - 1 ≤ current_path_index self)
                then (Ret true, set_state Robot.TASK_COMPLETE self)
                else (Ret true, drain self)
              else (Ret true, drain self)
          end end end
    | _, _ => (Raise IndexError, self)
    end
  else (Ret false, self).

(** [Robot.update]. *)
Definition update (self : t) : result bool * t :=
  if decide (state self ≠ Robot.MOVING ∧ state self ≠ Robot.WAITING)
  then (Ret false, self)
  else if decide (state self = Robot.WAITING) then
    match path self !! current_path_index self with
    | None => (Raise IndexError, self)
    | Some current_vertex =>
        match get_next_vertex self with
        | Some next_vertex =>
            if negb (is_lane_blocked current_vertex next_vertex (id self))
            then update_moving (resume_movement self)
            else (Ret false, self)
        | None => (Ret false, self)
        end
    end
  else update_moving self.

End Update.

End Robot.

End Binary64.

(** * Fixtures and specification-side definitions *)

(** A robot freshly created at vertex [0], as [FleetManager.create_robot]
    builds the first robot of a fleet. *)
Definition idle_robot : Robot.t :=
  Robot.init 0%Qc "R1" 0 (0%Qc, 0%Qc) "#00FF00".

(** The same robot on its way along the path [[0; 1]]. *)
Definition moving_robot : Robot.t :=
  (Robot.assign_task "task-1" 1 [0; 1] idle_robot).2.


(** The vertices of the fixtures lie on the x-axis, vertex [i] at [(i, 0)];
    every lane between them is taken to have length [1]. *)
Definition unit_coords (i : nat) : result (Qc * Qc) :=
  Ret (Qc_of_Z (Z.of_nat i), 0%Qc).

Definition unit_distance (_ _ : nat) : result Qc := Ret 1%Qc.

Definition never_blocked (_ _ : nat) (_ : string) : bool := false.

(** The progress [Robot.update] adds for a lane of length
    [total_distance]. *)
Definition progress_increment (speed delta_time total_distance : Qc) : Qc :=
  if decide (0 < total_distance)%Qc
  then (speed * delta_time / total_distance)%Qc
  else 1%Qc.

(** The battery level after a move of [speed * delta_time]:
    [0.01 * (speed * delta_time)] less, floored at [0]. *)
Definition drained (battery speed delta_time : Qc) : Qc :=
  pymax 0%Qc (battery - one_hundredth * (speed * delta_time))%Qc.

(** The point at fraction [p] of the segment from [a] to [b]. *)
Definition interpolate (a b : Qc * Qc) (p : Qc) : Qc * Qc :=
  ((a.1 + (b.1 - a.1) * p)%Qc, (a.2 + (b.2 - a.2) * p)%Qc).

(** [pt] lies on the segment between [a] and [b]. *)
Definition on_segment (a b pt : Qc * Qc) : Prop :=
  ∃ p : Qc, (0 ≤ p)%Qc ∧ (p ≤ 1)%Qc ∧ pt = interpolate a b p.

(** The robot after one [Robot.update] per tick of [ds], the durations of
    the ticks in order. *)
Fixpoint ticks (now : Qc) (get_vertex_coords : nat -> result (Qc * Qc))
    (calculate_distance : nat -> nat -> result Qc)
    (is_lane_blocked : nat -> nat -> string -> bool)
    (ds : list Qc) (r : Robot.t) : Robot.t :=
  match ds with
  | [] => r
  | d :: ds' =>
      ticks now get_vertex_coords calculate_distance is_lane_blocked ds'
        (Robot.update now d get_vertex_coords calculate_distance
           is_lane_blocked r).2
  end.

(** The time a sequence of ticks adds up to. *)
Fixpoint elapsed (ds : list Qc) : Qc :=
  match ds with
  | [] => 0%Qc
  | d :: ds' => (d + elapsed ds')%Qc
  end.

(** Three collinear vertices at distances [2] and [3], and their lanes. *)
Definition line_coords (i : nat) : result (Qc * Qc) :=
  match i with
  | 0 => Ret (0%Qc, 0%Qc)
  | 1 => Ret (Qc_of_Z 2, 0%Qc)
  | _ => Ret (Qc_of_Z 5, 0%Qc)
  end.

Definition line_distance (a _ : nat) : result Qc :=
  match a with
  | 0 => Ret (Qc_of_Z 2)
  | _ => Ret (Qc_of_Z 3)
  end.

(** A robot at vertex [0] that was assigned the path [[0; 1; 2]]. *)
Definition line_robot : Robot.t :=
  (Robot.assign_task "task-1" 2 [0; 1; 2] idle_robot).2.

(** A lease on [key] that is live at [current_time] and held by another
    robot than [robot_id]. *)
Definition live_lease_of_other {K : Type} `{Countable K}
    (reservations : gmap K (string * Qc)) (key : K) (robot_id : string)
    (current_time : Qc) : Prop :=
  ∃ holder expiry,
    reservations !! key = Some (holder, expiry) ∧
    holder ≠ robot_id ∧ (current_time < expiry)%Qc.

(** The lanes of a path: its pairs of consecutive vertices. *)
Fixpoint lanes_of (path : list nat) : list (nat * nat) :=
  match path with
  | a :: (b :: _) as rest => (a, b) :: lanes_of rest
  | _ => []
  end.

(** Reservation tables in which robot [R2] holds vertex [1] until time
    [10], and nothing else is reserved. *)
Definition vertex_1_reserved : TrafficManager.t :=
  (TrafficManager.reserve_intersection 0%Qc 1 "R2" (Qc_of_Z 10)
     TrafficManager.init).2.

(** One tenth, and eleven tenths. *)
Definition one_tenth : Qc := Q2Qc (1 # 10).
Definition eleven_tenths : Qc := Q2Qc (11 # 10).

(** A square root that is exact on the squares of rationals: the integer
    square roots of numerator and denominator. *)
Definition exact_sqrt (q : Qc) : Qc :=
  Q2Qc (Z.sqrt (Qnum q) # Pos.sqrt (Qden q)).

(** The graph of the end-to-end scenario of the specification: [v0 (0,0)],
    [v1 (3,0)], [v2 (3,4)], with the lanes [v0 -> v1] and [v1 -> v2]. *)
Definition triangle_vertices : list NavGraph.Vertex :=
  NavGraph.load_vertices 0
    [(0%Qc, 0%Qc, None, false);
     (Qc_of_Z 3, 0%Qc, None, false);
     (Qc_of_Z 3, Qc_of_Z 4, None, false)].

Definition triangle_graph : NavGraph.t :=
  NavGraph.mk triangle_vertices
    [NavGraph.mkLane 0 1 (Qc_of_Z 3); NavGraph.mkLane 1 2 (Qc_of_Z 4)]
    (<[0 := [(1, Qc_of_Z 3)]]> (<[1 := [(2, Qc_of_Z 4)]]> (<[2 := []]> ∅))).

(** A fleet of one robot, which is on its way from [v0] to [v1]. *)
Definition busy_fleet : FleetManager.t :=
  FleetManager.mk triangle_graph [("R1", moving_robot)] 1 ∅ [].

(** The same fleet with its robot waiting in front of the lane [(0, 1)],
    which no robot occupies. *)
Definition waiting_fleet : FleetManager.t :=
  FleetManager.mk triangle_graph
    [("R1", Robot.set_waiting 1%Qc moving_robot)] 1 ∅ [].

(** A robot as the fleet manager keeps it: the vertices of its path are
    vertices of the graph, a waiting robot stands on its path, and a robot
    under way has a destination in the graph. [Robot.update] keeps a robot
    so (lemma [update_keeps_ready]). *)
Definition robot_ready (g : NavGraph.t) (r : Robot.t) : Prop :=
  Forall (fun v => v < length (NavGraph.vertices g)) (Robot.path r) ∧
  (Robot.state r = Robot.WAITING →
   Robot.current_path_index r < length (Robot.path r)) ∧
  (Robot.state r = Robot.MOVING ∨ Robot.state r = Robot.WAITING →
   ∃ d, Robot.destination_idx r = Some d ∧
        d < length (NavGraph.vertices g)).

(** The dictionary of robots as [create_robot] fills it: every robot is
    stored once, under its own id. *)
Definition robots_ready (g : NavGraph.t) (rs : list (string * Robot.t))
    : Prop :=
  NoDup (map fst rs) ∧
  Forall (fun kr => Robot.id kr.2 = kr.1 ∧ robot_ready g kr.2) rs.

Definition fleet_ready (fm : FleetManager.t) : Prop :=
  robots_ready (FleetManager.nav_graph fm) (FleetManager.robots fm).

(** The lane a robot is on or waits in front of: the pair
    [(path[i], path[i + 1])] at its path index, while it is moving or
    waiting. *)
Definition pending_lane (r : Robot.t) (lane : nat * nat) : Prop :=
  (Robot.state r = Robot.MOVING ∨ Robot.state r = Robot.WAITING) ∧
  Robot.path r !! Robot.current_path_index r = Some lane.1 ∧
  Robot.path r !! (Robot.current_path_index r + 1) = Some lane.2.

(** The robot did not move: its progress, position, vertex and path index
    are those of [r]. *)
Definition stayed (r r' : Robot.t) : Prop :=
  Robot.progress r' = Robot.progress r ∧
  Robot.position r' = Robot.position r ∧
  Robot.position_idx r' = Robot.position_idx r ∧
  Robot.current_path_index r' = Robot.current_path_index r.

(** A second robot at vertex [0] with the path [[0; 1; 2]]. *)
Definition second_robot : Robot.t :=
  (Robot.assign_task "task-2" 2 [0; 1; 2]
     (Robot.init 0%Qc "R2" 0 (0%Qc, 0%Qc) "#0000FF")).2.

(** Two robots that were assigned the same path at the same time. *)
Definition contended_fleet : FleetManager.t :=
  FleetManager.mk triangle_graph
    [("R1", line_robot); ("R2", second_robot)] 2 ∅ [].

(** The first robot moves on the lane [(0, 1)], the second waits in front
    of it. *)
Definition queued_fleet : FleetManager.t :=
  FleetManager.mk triangle_graph
    [("R1", line_robot); ("R2", Robot.set_waiting 1%Qc second_robot)] 2 ∅ [].

(** *** Routes in the graph *)

(** There is a lane from [u] to [v]. *)
Definition lane_between (g : NavGraph.t) (u v : nat) : Prop :=
  ∃ lane, lane ∈ NavGraph.lanes g ∧
    NavGraph.start_idx lane = u ∧ NavGraph.end_idx lane = v.

(** A directed path from [a] to [b]: a sequence of vertices that starts
    with [a], ends with [b] and follows a lane at every step. *)
Definition is_route (g : NavGraph.t) (a b : nat) (p : list nat) : Prop :=
  head p = Some a ∧ last p = Some b ∧
  Forall (fun ab => lane_between g ab.1 ab.2) (lanes_of p).

(** The Euclidean distance between two vertices of the graph. *)
Definition edge_length (sqrt : Qc -> Qc) (g : NavGraph.t) (u v : nat) : Qc :=
  match NavGraph.calculate_distance sqrt g u v with
  | Ret len => len
  | Raise _ => 0%Qc
  end.

(** The sum of the lengths of the lanes of a path. *)
Fixpoint route_length (sqrt : Qc -> Qc) (g : NavGraph.t) (p : list nat)
    : Qc :=
  match p with
  | a :: (b :: _) as rest =>
      (edge_length sqrt g a b + route_length sqrt g rest)%Qc
  | _ => 0%Qc
  end.

(** A graph as [load_graph] builds it. *)
Definition loaded (sqrt : Qc -> Qc) (g : NavGraph.t) : Prop :=
  ∃ vertex_data lane_data,
    NavGraph.load_graph sqrt vertex_data lane_data = Ret g.

(** *** The invariant of Dijkstra's loop *)

(** [a <= b] on distances. *)
Definition dist_le (a b : dist) : Prop := dist_ltb b a = false.

(** What the relaxation of [out] from [current], at distance [qc], makes of
    a vertex [v]: nothing, or a shorter distance through [current]. *)
Definition relaxed (current : nat) (qc : Qc) (out : list (nat * Qc))
    (d d' : gmap nat dist) (prev prev' : gmap nat (option nat)) (v : nat)
    : Prop :=
  (d' !! v = d !! v ∧ prev' !! v = prev !! v) ∨
  (∃ w dv, (v, w) ∈ out ∧ d' !! v = Some (Fin (qc + w)%Qc) ∧
           prev' !! v = Some (Some current) ∧
           d !! v = Some dv ∧ dist_ltb (Fin (qc + w)%Qc) dv = true).

Section SearchInvariant.

Variable self : NavGraph.t.
Variables start_idx end_idx : nat.

#[local] Abbreviation n := (length (NavGraph.vertices self)).

(** The adjacency list has the entry [(v, w)] under [u]. *)
Definition edge (u v : nat) (w : Qc) : Prop :=
  ∃ out, NavGraph.adjacency_list self !! u = Some out ∧ (v, w) ∈ out.

(** [walk v p q]: [p] leads from the start to [v] along entries of the
    adjacency list whose lengths add up to [q]. *)
Inductive walk : nat -> list nat -> Qc -> Prop :=
| walk_start : walk start_idx [start_idx] 0%Qc
| walk_step (u v : nat) (w : Qc) (p : list nat) (q : Qc) :
    walk u p q → edge u v w → walk v (p ++ [v]) (q + w)%Qc.

(** [chain previous v p q]: a walk to [v] each of whose steps is the one
    recorded in [previous]. *)
Inductive chain (previous : gmap nat (option nat))
    : nat -> list nat -> Qc -> Prop :=
| chain_start :
    previous !! start_idx = Some None →
    chain previous start_idx [start_idx] 0%Qc
| chain_step (u v : nat) (w : Qc) (p : list nat) (q : Qc) :
    chain previous u p q → edge u v w → previous !! v = Some (Some u) →
    chain previous v (p ++ [v]) (q + w)%Qc.

(** The vertices taken out of [unvisited]. *)
Definition visited (s : NavGraph.search) (v : nat) : Prop :=
  v < n ∧ v ∉ NavGraph.unvisited s.

Record search_inv (s : NavGraph.search) : Prop := {
  inv_dom : ∀ v, v < n →
    is_Some (NavGraph.distances s !! v) ∧ is_Some (NavGraph.previous s !! v);
  inv_start :
    NavGraph.distances s !! start_idx = Some (Fin 0%Qc) ∧
    NavGraph.previous s !! start_idx = Some None;
  inv_unvisited :
    NoDup (NavGraph.unvisited s) ∧
    (∀ v, v ∈ NavGraph.unvisited s → v < n) ∧
    end_idx ∈ NavGraph.unvisited s;
  inv_chain : ∀ v q, NavGraph.distances s !! v = Some (Fin q) →
    ∃ p, chain (NavGraph.previous s) v p q ∧
         (∀ x, x ∈ p → x ≠ v → visited s x) ∧
         NoDup p ∧ (∀ x, x ∈ p → x < n);
  inv_inf : ∀ v, NavGraph.distances s !! v = Some Inf →
    NavGraph.previous s !! v = Some None;
  inv_closed : ∀ u v w qu,
    visited s u → edge u v w →
    NavGraph.distances s !! u = Some (Fin qu) →
    ∃ dv, NavGraph.distances s !! v = Some dv ∧ dist_le dv (Fin (qu + w)%Qc);
  inv_mono : ∀ u v du dv,
    visited s u → v ∈ NavGraph.unvisited s →
    NavGraph.distances s !! u = Some du →
    NavGraph.distances s !! v = Some dv → dist_le du dv
}.

(** The loop has stopped: the closest unvisited vertex [current] is the
    target or is at distance infinity. *)
Definition search_done (s : NavGraph.search) : Prop :=
  ∃ current dc,
    current ∈ NavGraph.unvisited s ∧
    NavGraph.distances s !! current = Some dc ∧
    (∀ y dy, y ∈ NavGraph.unvisited s →
       NavGraph.distances s !! y = Some dy → dist_le dc dy) ∧
    (current = end_idx ∨ dc = Inf).

End SearchInvariant.

(** A graph of four vertices on the x-axis and at [(3, 4)], loaded from its
    data: [v0 -> v1] (3), [v1 -> v2] (4), [v0 -> v2] (5); [v3] has no
    lane. *)
Definition sample_vertex_data : list (Qc * Qc * option string * bool) :=
  [(0%Qc, 0%Qc, None, false);
   (Qc_of_Z 3, 0%Qc, None, false);
   (Qc_of_Z 3, Qc_of_Z 4, None, false);
   (Qc_of_Z 9, 0%Qc, None, true)].

Definition sample_lane_data : list (nat * nat) := [(0, 1); (1, 2); (0, 2)].

Definition sample_graph : NavGraph.t :=
  match NavGraph.load_graph exact_sqrt sample_vertex_data sample_lane_data with
  | Ret g => g
  | Raise _ => NavGraph.mk [] [] ∅
  end.

(** The entries the lanes [ls] put under [u] in the adjacency list. *)
Definition lanes_from (ls : list NavGraph.Lane) (u : nat) : list (nat * Qc) :=
  map (fun lane => (NavGraph.end_idx lane, NavGraph.lane_length lane))
      (filter (fun lane => NavGraph.start_idx lane = u) ls).

(** The fleet after [k] passes of [update_robots] of [delta_time] seconds
    each (a pass that raises is the last). *)
Fixpoint run_fleet (sqrt : Qc -> Qc) (now delta_time : Qc) (k : nat)
    (fm : FleetManager.t) : FleetManager.t :=
  match k with
  | 0 => fm
  | S k' =>
      match FleetManager.update_robots sqrt now delta_time fm with
      | (Ret _, fm') => run_fleet sqrt now delta_time k' fm'
      | (Raise _, fm') => fm'
      end
  end.

(** The end-to-end scenario: a robot is created at [v0] of the loaded
    triangle [v0 (0,0)], [v1 (3,0)], [v2 (3,4)] and sent to [v2]. *)
Definition scenario_graph : NavGraph.t :=
  match NavGraph.load_graph exact_sqrt
          [(0%Qc, 0%Qc, None, false);
           (Qc_of_Z 3, 0%Qc, None, false);
           (Qc_of_Z 3, Qc_of_Z 4, None, false)]
          [(0, 1); (1, 2)] with
  | Ret g => g
  | Raise _ => NavGraph.mk [] [] ∅
  end.

Definition scenario_fleet : FleetManager.t :=
  let fm := (FleetManager.create_robot 0%Qc 0
               (FleetManager.init scenario_graph)).2 in
  match FleetManager.assign_task "task-1" "R1" 2 fm with
  | Some (_, fm') => fm'
  | None => fm
  end.

(** *** Further invariants of robots and fleets *)

(** The robot stands on its path: the vertex it is at is the vertex of the
    path at its path index. *)
Definition on_path (r : Robot.t) : Prop :=
  Robot.path r !! Robot.current_path_index r = Some (Robot.position_idx r).

(** The ids handed out so far: every key of the dictionary of robots is
    ["R<i>"] for some [i] from [1] to the counter. *)
Definition ids_issued (fm : FleetManager.t) : Prop :=
  ∀ k, k ∈ map fst (FleetManager.robots fm) →
    ∃ i, 1 ≤ i ≤ FleetManager.robot_count fm ∧ k = "R" +:+ pretty i.


(** The fleet of the sample graph after its first robot was created at
    [v0]. *)
Definition sample_fleet : FleetManager.t :=
  (FleetManager.create_robot 0%Qc 0 (FleetManager.init sample_graph)).2.

(** *** The two-lane line on binary64 numbers *)

(** The line of [line_coords] and [line_distance]: vertices at [0], [2]
    and [5] on the x-axis, lanes of lengths [2.0] and [3.0]. *)
Definition line_coords64 (i : nat) : result (float * float) :=
  match i with
  | 0 => Ret (0%float, 0%float)
  | 1 => Ret (2%float, 0%float)
  | _ => Ret (5%float, 0%float)
  end.

Definition line_distance64 (a _ : nat) : result float :=
  match a with
  | 0 => Ret 2%float
  | _ => Ret 3%float
  end.

(** A robot created at vertex [0] and assigned the path [[0; 1; 2]]. *)
Definition line_robot64 : Binary64.Robot.t :=
  (Binary64.Robot.assign_task "task-1" 2 [0; 1; 2]
     (Binary64.Robot.init 0%float "R1" 0 (0%float, 0%float) "#00FF00")).2.

(** The robot after one [Robot.update] per tick of [ds], on the line, with
    no lane blocked. *)
Fixpoint ticks64 (ds : list float) (r : Binary64.Robot.t)
    : Binary64.Robot.t :=
  match ds with
  | [] => r
  | d :: ds' =>
      ticks64 ds'
        (Binary64.Robot.update 0%float d line_coords64 line_distance64
           never_blocked r).2
  end.

(** The time a sequence of ticks adds up to, summed as the caller of
    [update] would sum it. *)
Definition elapsed64 (ds : list float) : float :=
  fold_left PrimFloat.add ds 0%float.

(** One second and a half. *)
Definition three_halves : Qc := Q2Qc (3 # 2).

(** *** Two robots sent along the same path *)

(** Two robots created at [v0] of the loaded triangle and both sent to
    [v2], one call after the other, before any update. *)
Definition crossing_fleet : FleetManager.t :=
  let fm := (FleetManager.create_robot 0%Qc 0
               (FleetManager.init scenario_graph)).2 in
  let fm := (FleetManager.create_robot 0%Qc 0 fm).2 in
  let fm := match FleetManager.assign_task "task-1" "R1" 2 fm with
            | Some (_, fm') => fm'
            | None => fm
            end in
  match FleetManager.assign_task "task-2" "R2" 2 fm with
  | Some (_, fm') => fm'
  | None => fm
  end.

(** What is seen of robot [k] after [n] passes of one second over
    [crossing_fleet]. *)
Definition crossing (n : nat) (k : string) : option Robot.t :=
  FleetManager.get_robot_by_id
    (run_fleet exact_sqrt 0%Qc 1%Qc n crossing_fleet) k.

(** The holder of a lane in the table of occupied lanes after [n]
    passes. *)
Definition crossing_holder (n : nat) (lane : nat * nat) : option string :=
  FleetManager.occupied_lanes
    (run_fleet exact_sqrt 0%Qc 1%Qc n crossing_fleet) !! lane.

(** The progress and the position of a robot as fractions in lowest
    terms. *)
Definition progress_of (r : Robot.t) : Q := this (Robot.progress r).

Definition position_of (r : Robot.t) : Q * Q :=
  (this (Robot.position r).1, this (Robot.position r).2).

(** * Properties *)

(** ** Arithmetic on [Qc] *)

(** Turns a goal on [Qc] into one on [Q], where [lra] and [nra] apply. *)
Ltac qc_to_q :=
  repeat match goal with
  | H : @eq Qc ?a ?b |- _ =>
      let E := fresh "E" in
      assert (E : (this a == this b)%Q) by (rewrite H; reflexivity);
      clear H
  | H : not (@eq Qc ?a ?b) |- _ =>
      let E := fresh "E" in
      assert (E : ¬ (this a == this b)%Q)
        by (intros E; apply H, Qc_is_canon, E);
      clear H
  end;
  try apply Qc_is_canon;
  unfold Qc_of_Z, one_hundredth in *;
  unfold Qcle, Qclt, Qcminus, Qcdiv, Qcplus, Qcmult, Qcopp, Q2Qc in *;
  cbn [this] in *;
  rewrite ?Qred_correct in *;
  unfold inject_Z in *.

Lemma pymax_r (a b : Qc) : (a < b)%Qc → pymax a b = b.
Proof. intros. unfold pymax. by case_decide. Qed.

(** The clamp of [Robot.update] stays within [0, 1]. *)
Lemma clamp_range (x : Qc) : (0 ≤ pymin 1 (pymax 0 x) ≤ 1)%Qc.
Proof.
  unfold pymin, pymax.
  repeat case_decide; split; try apply Qcle_refl; try done.
  - by apply Qclt_le_weak.
  - by apply Qclt_le_weak.
Qed.

(** ** Robot: task assignment *)

(** [assign_task] raises [ValueError] exactly when the path starts at
    another vertex than the robot's, and then hands back the robot with the
    task stored. *)
Lemma assign_task_rejected (tid : string) (dest p0 : nat) (rest : list nat)
    (r : Robot.t) :
  Robot.position_idx r ≠ p0 →
  Robot.assign_task tid dest (p0 :: rest) r =
    (Raise ValueError, Robot.store_task tid dest (p0 :: rest) r).
Proof.
  intros Hne. unfold Robot.assign_task.
  destruct (decide _) as [_|Hn]; [reflexivity|].
  exfalso. apply Hn. exact Hne.
Qed.

(** C5 (the code departs from the claim): a rejected [Robot.assign_task]
    does not leave the robot as it was. The idle robot at vertex [0], given
    the path [[1; 5]] to vertex [5], raises [ValueError], and by then its
    path, destination and task identifier are those of the rejected task;
    only its state and progress are as before. *)
Theorem assign_task_rejected_not_atomic :
  let r := idle_robot in
  let r' := (Robot.assign_task "task-9" 5 [1; 5] r).2 in
  (Robot.assign_task "task-9" 5 [1; 5] r).1 = Raise ValueError ∧
  Robot.path r = [] ∧ Robot.path r' = [1; 5] ∧
  Robot.destination_idx r = None ∧ Robot.destination_idx r' = Some 5 ∧
  Robot.task_id r = None ∧ Robot.task_id r' = Some "task-9" ∧
  Robot.state r' = Robot.state r ∧ Robot.progress r' = Robot.progress r ∧
  r' ≠ r.
Proof.
  cbv zeta.
  rewrite (assign_task_rejected "task-9" 5 1 [5] idle_robot) by (simpl; lia).
  repeat split; try reflexivity.
  intros E. apply (f_equal Robot.path) in E. discriminate E.
Qed.

(** [Robot.assign_task] never looks at the state of the robot: with the
    path starting at the robot's vertex it returns normally. *)
Lemma assign_task_accepts_any_state (tid : string) (dest p0 : nat)
    (rest : list nat) (r : Robot.t) :
  Robot.position_idx r = p0 →
  (Robot.assign_task tid dest (p0 :: rest) r).1 = Ret tt.
Proof.
  intros He. unfold Robot.assign_task.
  destruct (decide _) as [Hn|_]; [|reflexivity].
  exfalso. apply Hn. exact He.
Qed.

(** C6, counterexample: a robot in state [MOVING] is given a new task by
    [Robot.assign_task] without any error, and so is a robot in state
    [WAITING]. *)
Lemma assign_task_moving_not_rejected :
  Robot.state moving_robot = Robot.MOVING ∧
  (Robot.assign_task "task-2" 2 [0; 2] moving_robot).1 = Ret tt ∧
  Robot.path (Robot.assign_task "task-2" 2 [0; 2] moving_robot).2 = [0; 2] ∧
  Robot.state (Robot.set_waiting 1%Qc moving_robot) = Robot.WAITING ∧
  (Robot.assign_task "task-2" 2 [0; 2]
     (Robot.set_waiting 1%Qc moving_robot)).1 = Ret tt.
Proof. repeat split. Qed.

(** ** Robot: one update *)

Section RobotUpdate.

Variable now : Qc.
Variable get_vertex_coords : nat -> result (Qc * Qc).
Variable calculate_distance : nat -> nat -> result Qc.
Variable is_lane_blocked : nat -> nat -> string -> bool.

#[local] Abbreviation update dt r :=
  (Robot.update now dt get_vertex_coords calculate_distance is_lane_blocked r).

Lemma lookup_succ_bound (l : list nat) (i v : nat) :
  l !! (i + 1) = Some v → i < length l - 1.
Proof. intros H. apply lookup_lt_Some in H. lia. Qed.

(** A moving robot whose lane ahead is free: what one update does. *)
Lemma update_moving_free (dt : Qc) (r : Robot.t) (u v : nat)
    (cu cv : Qc * Qc) (len : Qc) :
  Robot.state r = Robot.MOVING →
  Robot.path r !! Robot.current_path_index r = Some u →
  Robot.path r !! (Robot.current_path_index r + 1) = Some v →
  is_lane_blocked u v (Robot.id r) = false →
  get_vertex_coords u = Ret cu →
  get_vertex_coords v = Ret cv →
  calculate_distance u v = Ret len →
  let p := pymin 1%Qc (pymax 0%Qc
             (Robot.progress r + progress_increment (Robot.speed r) dt len)%Qc) in
  ∃ r', update dt r = (Ret true, r') ∧
    Robot.path r' = Robot.path r ∧ Robot.id r' = Robot.id r ∧
    Robot.speed r' = Robot.speed r ∧
    if decide (1 ≤ p)%Qc then
      Robot.position r' = cv ∧ Robot.position_idx r' = v ∧
      Robot.current_path_index r' = Robot.current_path_index r + 1 ∧
      Robot.progress r' = 0%Qc ∧
      if decide (length (Robot.path r) - 1 ≤ Robot.current_path_index r + 1)
      then Robot.state r' = Robot.TASK_COMPLETE ∧
           Robot.battery_level r' = Robot.battery_level r
      else Robot.state r' = Robot.MOVING ∧
           Robot.battery_level r' =
             drained (Robot.battery_level r) (Robot.speed r) dt
    else
      Robot.position r' = interpolate cu cv p ∧
      Robot.position_idx r' = Robot.position_idx r ∧
      Robot.current_path_index r' = Robot.current_path_index r ∧
      Robot.progress r' = p ∧ Robot.state r' = Robot.MOVING ∧
      Robot.battery_level r' =
        drained (Robot.battery_level r) (Robot.speed r) dt.
Proof.
  intros Hst Hu Hv Hfree Hcu Hcv Hlen p.
  pose proof (lookup_succ_bound _ _ _ Hv) as Hidx.
  unfold Robot.update, Robot.update_moving.
  rewrite Hst.
  destruct (decide (Robot.MOVING ≠ Robot.MOVING ∧ _)) as [[? _]|_]; [done|].
  destruct (decide (Robot.MOVING = Robot.WAITING)) as [?|_]; [done|].
  destruct (decide (_ < _)) as [_|?]; [|lia].
  rewrite Hu, Hv, Hfree, Hcu, Hcv, Hlen.
  fold (progress_increment (Robot.speed r) dt len). fold p.
  destruct (decide (1 ≤ p)%Qc) as [Hp|Hp].
  - cbn [Robot.path Robot.current_path_index Robot.set_progress
         Robot.set_position Robot.set_position_idx
         Robot.set_current_path_index].
    destruct (decide (_ ≤ _)) as [Hl|Hl]; eexists; (split; [reflexivity|]);
      cbn; rewrite ?Hst; auto 10.
  - eexists; (split; [reflexivity|]); cbn; rewrite ?Hst; auto 10.
Qed.

(** A waiting robot whose lane ahead is free resumes and moves within the
    same update. *)
Lemma update_waiting_free (dt : Qc) (r : Robot.t) (u v : nat) :
  Robot.state r = Robot.WAITING →
  Robot.path r !! Robot.current_path_index r = Some u →
  Robot.path r !! (Robot.current_path_index r + 1) = Some v →
  is_lane_blocked u v (Robot.id r) = false →
  update dt r = update dt (Robot.resume_movement r).
Proof.
  intros Hst Hu Hv Hfree.
  pose proof (lookup_succ_bound _ _ _ Hv) as Hidx.
  assert (Hnext : Robot.get_next_vertex r = Some v).
  { unfold Robot.get_next_vertex.
    destruct (decide _) as [[He|Hge]|_]; [|lia|exact Hv].
    rewrite He in Hu. done. }
  unfold Robot.update at 1. rewrite Hst.
  destruct (decide (Robot.WAITING ≠ Robot.MOVING ∧ _)) as [[_ ?]|_]; [done|].
  destruct (decide (Robot.WAITING = Robot.WAITING)) as [_|?]; [|done].
  rewrite Hu, Hnext, Hfree. cbn [negb].
  unfold Robot.update, Robot.resume_movement.
  rewrite Hst.
  destruct (decide (Robot.WAITING = Robot.WAITING)) as [_|?]; [|done].
  cbn [Robot.state Robot.set_blocked_time Robot.set_state].
  destruct (decide (Robot.MOVING ≠ Robot.MOVING ∧ _)) as [[? _]|_]; [done|].
  destruct (decide (Robot.MOVING = Robot.WAITING)) as [?|_]; [done|].
  reflexivity.
Qed.

(** A robot whose lane ahead is held by another robot: the update leaves
    it waiting where it is. *)
Lemma update_blocked (dt : Qc) (r : Robot.t) (u v : nat) :
  Robot.state r = Robot.MOVING ∨ Robot.state r = Robot.WAITING →
  Robot.path r !! Robot.current_path_index r = Some u →
  Robot.path r !! (Robot.current_path_index r + 1) = Some v →
  is_lane_blocked u v (Robot.id r) = true →
  ∃ changed r', update dt r = (Ret changed, r') ∧
    Robot.state r' = Robot.WAITING ∧
    Robot.progress r' = Robot.progress r ∧
    Robot.position r' = Robot.position r ∧
    Robot.position_idx r' = Robot.position_idx r ∧
    Robot.current_path_index r' = Robot.current_path_index r ∧
    Robot.path r' = Robot.path r ∧ Robot.id r' = Robot.id r ∧
    Robot.battery_level r' = Robot.battery_level r.
Proof.
  intros Hst Hu Hv Hblocked.
  pose proof (lookup_succ_bound _ _ _ Hv) as Hidx.
  unfold Robot.update, Robot.update_moving.
  destruct Hst as [Hst|Hst]; rewrite Hst.
  - destruct (decide (Robot.MOVING ≠ Robot.MOVING ∧ _)) as [[? _]|_]; [done|].
    destruct (decide (Robot.MOVING = Robot.WAITING)) as [?|_]; [done|].
    destruct (decide (_ < _)) as [_|?]; [|lia].
    rewrite Hu, Hv, Hblocked.
    eexists _, _. split; [reflexivity|].
    unfold Robot.set_waiting. rewrite Hst.
    destruct (decide _) as [_|Hn]; [|by destruct Hn].
    cbn. auto 10.
  - destruct (decide (Robot.WAITING ≠ Robot.MOVING ∧ _)) as [[_ ?]|_]; [done|].
    destruct (decide (Robot.WAITING = Robot.WAITING)) as [_|?]; [|done].
    rewrite Hu.
    assert (Hnext : Robot.get_next_vertex r = Some v).
    { unfold Robot.get_next_vertex.
      destruct (decide _) as [[He|Hge]|_]; [|lia|exact Hv].
      rewrite He in Hu. done. }
    rewrite Hnext, Hblocked. cbn [negb].
    eexists _, _. split; [reflexivity|]. auto 10.
Qed.

End RobotUpdate.

(** C10 (the code departs from the claim): on the tick on which a robot
    reaches the last vertex of its path, [Robot.update] returns before the
    battery is charged for the move. The robot on the path [[0; 1]] of
    length [1], updated with a tick of one second, is [TASK_COMPLETE] with
    the battery level it had, not with [0.01 * (speed * delta_time)]
    less. *)
Theorem update_final_tick_keeps_battery :
  let r := moving_robot in
  let r' := (Robot.update 0%Qc 1%Qc unit_coords unit_distance never_blocked
               r).2 in
  Robot.state r = Robot.MOVING ∧
  (Robot.update 0%Qc 1%Qc unit_coords unit_distance never_blocked r).1
    = Ret true ∧
  Robot.state r' = Robot.TASK_COMPLETE ∧
  Robot.position_idx r' = 1 ∧
  Robot.battery_level r' = Robot.battery_level r ∧
  Robot.battery_level r' ≠
    drained (Robot.battery_level r) (Robot.speed r) 1%Qc.
Proof.
  cbv zeta.
  destruct (update_moving_free 0%Qc unit_coords unit_distance never_blocked
              1%Qc moving_robot 0 1 (0%Qc, 0%Qc) (1%Qc, 0%Qc) 1%Qc)
    as (r' & Hup & _ & _ & _ & Hcase); [reflexivity..|].
  rewrite Hup. cbn [fst snd].
  destruct (decide _) as [_|Hn] in Hcase;
    [|exfalso; apply Hn; vm_compute; discriminate].
  destruct Hcase as (_ & Hidx & _ & _ & Hfinal).
  destruct (decide _) as [_|Hn] in Hfinal;
    [|exfalso; apply Hn; vm_compute; lia].
  destruct Hfinal as [Hst Hbat].
  repeat split; try done.
  rewrite Hbat. intros E. apply (f_equal this) in E. vm_compute in E.
  discriminate E.
Qed.

(** ** Robot: a run of ticks *)

Lemma elapsed_app (ds1 ds2 : list Qc) :
  elapsed (ds1 ++ ds2) = (elapsed ds1 + elapsed ds2)%Qc.
Proof.
  induction ds1 as [|d ds1 IH]; cbn; [ring|]. rewrite IH. ring.
Qed.

Lemma elapsed_nonneg (ds : list Qc) :
  Forall (fun d => (0 < d)%Qc) ds → (0 ≤ elapsed ds)%Qc.
Proof.
  induction 1 as [|d ds Hd _ IH]; cbn; [apply Qcle_refl|].
  qc_to_q. lra.
Qed.

Lemma elapsed_pos (ds : list Qc) :
  Forall (fun d => (0 < d)%Qc) ds → ds ≠ [] → (0 < elapsed ds)%Qc.
Proof.
  intros Hall Hne. destruct Hall as [|d ds Hd Hds]; [done|].
  apply elapsed_nonneg in Hds. cbn. qc_to_q. lra.
Qed.

Section RobotRun.

Variable now : Qc.
Variable get_vertex_coords : nat -> result (Qc * Qc).
Variable calculate_distance : nat -> nat -> result Qc.
Variable is_lane_blocked : nat -> nat -> string -> bool.

#[local] Abbreviation run ds r :=
  (ticks now get_vertex_coords calculate_distance is_lane_blocked ds r).

Lemma ticks_app (ds1 ds2 : list Qc) (r : Robot.t) :
  run (ds1 ++ ds2) r = run ds2 (run ds1 r).
Proof. revert r. induction ds1 as [|d ds1 IH]; intros r; cbn; auto. Qed.

(** The progress a tick adds on a lane of positive length, when the robot
    stays short of the end of the lane or reaches it exactly. *)
Lemma clamp_within (p s d len : Qc) :
  (0 < len)%Qc → (0 < s)%Qc → (0 < d)%Qc → (0 ≤ p)%Qc →
  (p * len + s * d ≤ len)%Qc →
  pymin 1%Qc (pymax 0%Qc (p + progress_increment s d len)%Qc)
    = (p + s * d / len)%Qc ∧
  ((p + s * d / len) * len = p * len + s * d)%Qc.
Proof.
  intros Hlen Hs Hd Hp Hle.
  assert (Hmul : ((p + s * d / len) * len = p * len + s * d)%Qc).
  { field. intros E. rewrite E in Hlen. by apply Qclt_not_le in Hlen. }
  split; [|exact Hmul].
  unfold progress_increment. destruct (decide _) as [_|?]; [|done].
  set (x := (p + s * d / len)%Qc) in *.
  assert (Hx0 : (0 < x)%Qc).
  { apply Qcnot_le_lt. intros Hx.
    assert (x * len ≤ 0)%Qc by (clear Hmul Hle; qc_to_q; nra).
    rewrite Hmul in H. clear Hmul. qc_to_q. nra. }
  assert (Hx1 : (x ≤ 1)%Qc).
  { apply Qcnot_lt_le. intros Hx.
    assert (len < x * len)%Qc by (clear Hmul Hle; qc_to_q; nra).
    rewrite Hmul in H. clear Hmul. qc_to_q. nra. }
  rewrite (pymax_r _ _ Hx0).
  unfold pymin. destruct (decide _) as [_|Hn]; [done|].
  apply Qcnot_lt_le in Hn. by apply Qcle_antisym.
Qed.

(** The traversal of one lane by a run of ticks of positive duration that
    together bring the robot at most to the end of the lane. *)
Lemma traverse_lane (ds : list Qc) (r : Robot.t) (u v : nat)
    (cu cv : Qc * Qc) (len : Qc) :
  Robot.state r = Robot.MOVING →
  Robot.path r !! Robot.current_path_index r = Some u →
  Robot.path r !! (Robot.current_path_index r + 1) = Some v →
  is_lane_blocked u v (Robot.id r) = false →
  get_vertex_coords u = Ret cu →
  get_vertex_coords v = Ret cv →
  calculate_distance u v = Ret len →
  (0 < len)%Qc → (0 < Robot.speed r)%Qc → (0 ≤ Robot.progress r)%Qc →
  Forall (fun d => (0 < d)%Qc) ds →
  (Robot.progress r * len + Robot.speed r * elapsed ds ≤ len)%Qc →
  Robot.path (run ds r) = Robot.path r ∧
  Robot.id (run ds r) = Robot.id r ∧
  Robot.speed (run ds r) = Robot.speed r ∧
  ((Robot.progress r * len + Robot.speed r * elapsed ds < len)%Qc →
     Robot.state (run ds r) = Robot.MOVING ∧
     Robot.current_path_index (run ds r) = Robot.current_path_index r ∧
     (Robot.progress (run ds r) * len =
        Robot.progress r * len + Robot.speed r * elapsed ds)%Qc ∧
     (0 ≤ Robot.progress (run ds r))%Qc ∧
     (ds ≠ [] →
        Robot.position (run ds r) =
          interpolate cu cv (Robot.progress (run ds r)))) ∧
  ((Robot.progress r * len + Robot.speed r * elapsed ds = len)%Qc →
   ds ≠ [] →
     Robot.position (run ds r) = cv ∧
     Robot.position_idx (run ds r) = v ∧
     Robot.current_path_index (run ds r) = Robot.current_path_index r + 1 ∧
     Robot.progress (run ds r) = 0%Qc ∧
     Robot.state (run ds r) =
       if decide (length (Robot.path r) - 1 ≤ Robot.current_path_index r + 1)
       then Robot.TASK_COMPLETE else Robot.MOVING).
Proof.
  intros Hst Hu Hv Hfree Hcu Hcv Hlen Hpos Hs Hp Hds.
  revert r Hst Hu Hv Hfree Hs Hp.
  induction Hds as [|d ds Hd Hds IH]; intros r Hst Hu Hv Hfree Hs Hp Hle.
  { cbn. repeat split; try done. ring. }
  cbn [ticks elapsed] in *.
  pose proof (elapsed_nonneg _ Hds) as Hrest.
  destruct (update_moving_free now get_vertex_coords calculate_distance
              is_lane_blocked d r u v cu cv len Hst Hu Hv Hfree Hcu Hcv Hlen)
    as (r1 & Hup & Hpath & Hid & Hspeed & Hcase).
  rewrite Hup. cbn [snd].
  destruct (clamp_within (Robot.progress r) (Robot.speed r) d len)
    as [Hclamp Hmul]; try done.
  { clear Hcase. qc_to_q. nra. }
  rewrite Hclamp in Hcase.
  set (x := (Robot.progress r + Robot.speed r * d / len)%Qc) in *.
  destruct (decide (1 ≤ x)%Qc) as [Hx|Hx].
  - (* the lane ends on this tick: nothing is left for the other ticks *)
    assert (Hnil : ds = []).
    { destruct ds as [|d' ds']; [done|]. exfalso.
      assert (0 < elapsed (d' :: ds'))%Qc by (by apply elapsed_pos).
      assert (len ≤ x * len)%Qc by (clear Hmul Hle Hcase; qc_to_q; nra).
      rewrite Hmul in H0. clear Hmul Hcase. qc_to_q. nra. }
    subst ds. cbn [ticks elapsed] in *.
    destruct Hcase as (Hposn & Hpidx & Hidx & Hprog & Hfinal).
    assert (Hge : (len ≤ x * len)%Qc) by (clear Hmul Hle Hfinal; qc_to_q; nra).
    rewrite Hmul in Hge.
    split; [done|]. split; [done|]. split; [done|]. split.
    + intros Hlt. exfalso. clear Hmul Hfinal. qc_to_q. lra.
    + intros _ _. destruct (decide _); destruct Hfinal; auto.
  - destruct Hcase as (Hposn & Hpidx & Hidx & Hprog & Hst1 & _).
    assert (Hx0 : (0 ≤ x)%Qc).
    { apply Qcnot_lt_le. intros Hneg.
      assert (x * len < 0)%Qc by (clear Hmul Hle; qc_to_q; nra).
      rewrite Hmul in H. clear Hmul. qc_to_q. nra. }
    destruct (IH r1) as (IHpath & IHid & IHspeed & IHlt & IHeq).
    + done.
    + by rewrite Hpath, Hidx.
    + by rewrite Hpath, Hidx.
    + by rewrite Hid.
    + by rewrite Hspeed.
    + by rewrite Hprog.
    + rewrite Hprog, Hspeed, Hmul. clear Hmul. qc_to_q. lra.
    + rewrite Hprog, Hspeed, Hmul in IHlt, IHeq.
      rewrite Hpath, Hidx in IHeq. rewrite Hidx in IHlt.
      split; [congruence|]. split; [congruence|]. split; [congruence|].
      split.
      * intros Hlt. destruct IHlt as (? & ? & Hm & ? & Hposition).
        { clear Hmul Hle IHeq. qc_to_q. lra. }
        split; [done|]. split; [done|]. split; [rewrite Hm; ring|].
        split; [done|].
        intros _. destruct ds as [|d' ds']; [|by apply Hposition].
        cbn. by rewrite Hposn, Hprog.
      * intros Heq _. destruct ds as [|d' ds'].
        { exfalso. cbn in Heq. apply Hx.
          assert (Hxl : (x * len = len)%Qc).
          { rewrite Hmul. etransitivity; [|exact Heq]. clear. ring. }
          clear Hmul Hle Heq IHeq IHlt. apply Qcnot_lt_le. intros Hlt1.
          qc_to_q. nra. }
        apply IHeq; [|done]. etransitivity; [|exact Heq]. clear. ring.
Qed.

(** Under the hypotheses of [traverse_lane] the robot is, after the ticks,
    on the segment between the two ends of the lane. *)
Lemma traverse_on_segment (ds : list Qc) (r : Robot.t) (u v : nat)
    (cu cv : Qc * Qc) (len : Qc) :
  Robot.state r = Robot.MOVING →
  Robot.path r !! Robot.current_path_index r = Some u →
  Robot.path r !! (Robot.current_path_index r + 1) = Some v →
  is_lane_blocked u v (Robot.id r) = false →
  get_vertex_coords u = Ret cu →
  get_vertex_coords v = Ret cv →
  calculate_distance u v = Ret len →
  (0 < len)%Qc → (0 < Robot.speed r)%Qc → (0 ≤ Robot.progress r)%Qc →
  Forall (fun d => (0 < d)%Qc) ds → ds ≠ [] →
  (Robot.progress r * len + Robot.speed r * elapsed ds ≤ len)%Qc →
  on_segment cu cv (Robot.position (run ds r)).
Proof.
  intros Hst Hu Hv Hfree Hcu Hcv Hlen Hpos Hs Hp Hds Hne Hle.
  destruct (traverse_lane ds r u v cu cv len) as (_ & _ & _ & Hlt & Heq);
    try done.
  destruct (Qcle_lt_or_eq _ _ Hle) as [Hlt'|Heq'].
  - destruct (Hlt Hlt') as (_ & _ & Hm & H0 & Hposn).
    exists (Robot.progress (run ds r)). split; [done|]. split; [|by apply Hposn].
    rewrite <- Hm in Hlt'. clear Hm Hle Heq Hlt Hposn.
    apply Qcnot_lt_le. intros H1. qc_to_q. nra.
  - destruct (Heq Heq' Hne) as (Hposn & _).
    exists 1%Qc. split; [done|]. split; [apply Qcle_refl|].
    rewrite Hposn. destruct cu, cv. unfold interpolate. cbn. f_equal; ring.
Qed.

(** C4, as amended: in exact arithmetic, that is for ticks whose progress
    increments, running sums of progress and interpolated coordinates are
    computed without rounding. A robot of speed [1] on an unblocked path
    of two lanes of lengths [2] and [3], ticked with positive durations
    that add up to [2] seconds and then to [3] more. After the first [2]
    seconds it is at the middle vertex, moving; after all [5] it is at the
    last vertex with its task complete; and after every tick on the way
    its position is on the segment between the ends of the lane it is on
    (the first lane up to [2] seconds, the second from then on). *)
Theorem two_lane_timing (r : Robot.t) (a b c : nat) (ca cb cc : Qc * Qc)
    (ds1 ds2 : list Qc) :
  Robot.state r = Robot.MOVING →
  Robot.path r = [a; b; c] →
  Robot.current_path_index r = 0 →
  Robot.progress r = 0%Qc →
  Robot.speed r = 1%Qc →
  get_vertex_coords a = Ret ca →
  get_vertex_coords b = Ret cb →
  get_vertex_coords c = Ret cc →
  calculate_distance a b = Ret (Qc_of_Z 2) →
  calculate_distance b c = Ret (Qc_of_Z 3) →
  is_lane_blocked a b (Robot.id r) = false →
  is_lane_blocked b c (Robot.id r) = false →
  Forall (fun d => (0 < d)%Qc) ds1 →
  Forall (fun d => (0 < d)%Qc) ds2 →
  elapsed ds1 = Qc_of_Z 2 →
  elapsed ds2 = Qc_of_Z 3 →
  (Robot.position (run ds1 r) = cb ∧
   Robot.position_idx (run ds1 r) = b ∧
   Robot.state (run ds1 r) = Robot.MOVING) ∧
  (Robot.position (run (ds1 ++ ds2) r) = cc ∧
   Robot.position_idx (run (ds1 ++ ds2) r) = c ∧
   Robot.state (run (ds1 ++ ds2) r) = Robot.TASK_COMPLETE) ∧
  (∀ ds, ds `prefix_of` ds1 ++ ds2 → ds ≠ [] →
     if decide (elapsed ds ≤ Qc_of_Z 2)%Qc
     then on_segment ca cb (Robot.position (run ds r))
     else on_segment cb cc (Robot.position (run ds r))).
Proof.
  intros Hst Hpath Hidx Hprog Hspeed Hca Hcb Hcc Hab Hbc Hfab Hfbc
    Hds1 Hds2 He1 He2.
  assert (H2 : (0 < Qc_of_Z 2)%Qc) by (vm_compute; reflexivity).
  assert (H3 : (0 < Qc_of_Z 3)%Qc) by (vm_compute; reflexivity).
  assert (Hne1 : ds1 ≠ []).
  { intros ->. cbn in He1. apply (f_equal this) in He1. discriminate He1. }
  assert (Hne2 : ds2 ≠ []).
  { intros ->. cbn in He2. apply (f_equal this) in He2. discriminate He2. }
  assert (Hs : (0 < Robot.speed r)%Qc) by (rewrite Hspeed; vm_compute; reflexivity).
  assert (Hp : (0 ≤ Robot.progress r)%Qc) by (rewrite Hprog; apply Qcle_refl).
  assert (Hu : Robot.path r !! Robot.current_path_index r = Some a)
    by (by rewrite Hpath, Hidx).
  assert (Hv : Robot.path r !! (Robot.current_path_index r + 1) = Some b)
    by (by rewrite Hpath, Hidx).
  (* the first lane *)
  destruct (traverse_lane ds1 r a b ca cb (Qc_of_Z 2))
    as (Hpath1 & Hid1 & Hspeed1 & _ & Harrive1); try done.
  { rewrite Hprog, Hspeed, He1. vm_compute. discriminate. }
  destruct Harrive1 as (Hposn1 & Hpidx1 & Hidx1 & Hprog1 & Hst1); [|done|].
  { rewrite Hprog, Hspeed, He1. apply Qc_is_canon. reflexivity. }
  rewrite Hpath, Hidx in Hst1. cbn in Hst1.
  destruct (decide _) as [?|_] in Hst1; [lia|].
  set (r1 := run ds1 r) in *.
  assert (Hs1 : (0 < Robot.speed r1)%Qc) by (by rewrite Hspeed1).
  assert (Hp1 : (0 ≤ Robot.progress r1)%Qc) by (rewrite Hprog1; apply Qcle_refl).
  assert (Hu1 : Robot.path r1 !! Robot.current_path_index r1 = Some b)
    by (by rewrite Hpath1, Hidx1, Hpath, Hidx).
  assert (Hv1 : Robot.path r1 !! (Robot.current_path_index r1 + 1) = Some c)
    by (by rewrite Hpath1, Hidx1, Hpath, Hidx).
  assert (Hfbc1 : is_lane_blocked b c (Robot.id r1) = false)
    by (by rewrite Hid1).
  split; [done|]. split.
  - (* the second lane *)
    rewrite ticks_app. fold r1.
    destruct (traverse_lane ds2 r1 b c cb cc (Qc_of_Z 3))
      as (_ & _ & _ & _ & Harrive2); try done.
    { rewrite Hprog1, Hspeed1, Hspeed, He2. vm_compute. discriminate. }
    destruct Harrive2 as (Hposn2 & Hpidx2 & _ & _ & Hst2); [|done|].
    { rewrite Hprog1, Hspeed1, Hspeed, He2. apply Qc_is_canon. reflexivity. }
    rewrite Hpath1, Hidx1, Hpath, Hidx in Hst2. cbn in Hst2.
    destruct (decide _) as [_|?] in Hst2; [done|lia].
  - intros ds [k Hk] Hne.
    apply app_eq_app in Hk as [m [[-> ->]|[-> ->]]].
    + (* [ds] ends within the first lane *)
      rewrite elapsed_app in He1.
      apply Forall_app in Hds1 as [Hds Hm].
      pose proof (elapsed_nonneg _ Hm) as Hm0.
      assert (Hle : (elapsed ds ≤ Qc_of_Z 2)%Qc).
      { rewrite <- He1. clear He1 H2. qc_to_q. lra. }
      destruct (decide _) as [_|?]; [|done].
      apply (traverse_on_segment ds r a b ca cb (Qc_of_Z 2)); try done.
      rewrite Hprog, Hspeed. clear He1. qc_to_q. lra.
    + destruct m as [|d m].
      { (* [ds] is the first lane exactly *)
        rewrite app_nil_r in *. rewrite He1.
        destruct (decide _) as [_|Hn]; [|by destruct Hn; apply Qcle_refl].
        fold r1. exists 1%Qc. split; [done|]. split; [apply Qcle_refl|].
        rewrite Hposn1. destruct ca, cb. unfold interpolate. cbn.
        f_equal; ring. }
      (* [ds] ends within the second lane *)
      rewrite elapsed_app in *.
      apply Forall_app in Hds2 as [Hm Hk].
      pose proof (elapsed_nonneg _ Hk) as Hk0.
      pose proof (elapsed_pos _ Hm ltac:(done)) as Hm0.
      destruct (decide _) as [Hle|_].
      { exfalso. rewrite He1 in Hle. clear He2 He1. qc_to_q. lra. }
      rewrite ticks_app. fold r1.
      apply (traverse_on_segment (d :: m) r1 b c cb cc (Qc_of_Z 3));
        try done.
      rewrite Hprog1, Hspeed1, Hspeed, <- He2. clear He2 He1. qc_to_q. lra.
Qed.

End RobotRun.

(** C4, witness: the robot of the line fixture, ticked at [1, 1] and then
    at [1.5, 1.5]: every number of the run is a binary64 number. *)
Lemma two_lane_timing_witness :
  elapsed [1%Qc; 1%Qc] = Qc_of_Z 2 ∧
  elapsed [three_halves; three_halves] = Qc_of_Z 3 ∧
  Robot.state
    (ticks 0%Qc line_coords line_distance never_blocked [1%Qc; 1%Qc]
       line_robot) = Robot.MOVING ∧
  Robot.position
    (ticks 0%Qc line_coords line_distance never_blocked [1%Qc; 1%Qc]
       line_robot) = (Qc_of_Z 2, 0%Qc) ∧
  Robot.state
    (ticks 0%Qc line_coords line_distance never_blocked
       ([1%Qc; 1%Qc] ++ [three_halves; three_halves]) line_robot)
    = Robot.TASK_COMPLETE.
Proof.
  assert (E1 : elapsed [1%Qc; 1%Qc] = Qc_of_Z 2)
    by (apply Qc_is_canon; reflexivity).
  assert (E2 : elapsed [three_halves; three_halves] = Qc_of_Z 3)
    by (apply Qc_is_canon; reflexivity).
  destruct (two_lane_timing 0%Qc line_coords line_distance never_blocked
              line_robot 0 1 2 (0%Qc, 0%Qc) (Qc_of_Z 2, 0%Qc)
              (Qc_of_Z 5, 0%Qc) [1%Qc; 1%Qc] [three_halves; three_halves])
    as ((Hp & _ & Hs) & (_ & _ & Hc) & _);
    try reflexivity; try assumption.
  - repeat constructor.
  - repeat constructor.
  - repeat split; assumption.
Defined.

(** On binary64 numbers the ticks of the witness give what the theorem
    says: the sums of the run are exact. *)
Example two_lane_timing_exact_ticks :
  elapsed64 [1; 1]%float = 2%float ∧
  elapsed64 [1.5; 1.5]%float = 3%float ∧
  Binary64.Robot.state (ticks64 [1; 1]%float line_robot64) = Robot.MOVING ∧
  Binary64.Robot.position (ticks64 [1; 1]%float line_robot64)
    = (2%float, 0%float) ∧
  Binary64.Robot.state (ticks64 [1; 1; 1.5; 1.5]%float line_robot64)
    = Robot.TASK_COMPLETE ∧
  Binary64.Robot.position (ticks64 [1; 1; 1.5; 1.5]%float line_robot64)
    = (5%float, 0%float).
Proof. repeat split; vm_compute; reflexivity. Qed.

(** C4, counterexample: on binary64 numbers the robot of the claim, ticked
    at [1, 1] and then six times at [0.5], is not at the last vertex after
    [5.0] seconds. The ticks are positive and add up to exactly [2.0] and
    then [3.0] more; the six increments [0.5 / 3.0] add up to the number
    just below [1.0], so the robot is still moving on the second lane,
    and it completes its task one tick later. *)
Lemma two_lane_timing_late_in_binary64 :
  elapsed64 [1; 1]%float = 2%float ∧
  elapsed64 [0.5; 0.5; 0.5; 0.5; 0.5; 0.5]%float = 3%float ∧
  elapsed64 [1; 1; 0.5; 0.5; 0.5; 0.5; 0.5; 0.5]%float = 5%float ∧
  Binary64.Robot.state (ticks64 [1; 1]%float line_robot64) = Robot.MOVING ∧
  Binary64.Robot.position_idx (ticks64 [1; 1]%float line_robot64) = 1 ∧
  let late :=
    ticks64 [1; 1; 0.5; 0.5; 0.5; 0.5; 0.5; 0.5]%float line_robot64 in
  Binary64.Robot.state late = Robot.MOVING ∧
  Binary64.Robot.state late ≠ Robot.TASK_COMPLETE ∧
  Binary64.Robot.position_idx late = 1 ∧
  Binary64.Robot.current_path_index late = 1 ∧
  Binary64.Robot.progress late = (1 - 0x1p-53)%float ∧
  (Binary64.Robot.progress late <? 1)%float = true ∧
  Binary64.Robot.state
    (ticks64 [1; 1; 0.5; 0.5; 0.5; 0.5; 0.5; 0.5; 0.5]%float line_robot64)
    = Robot.TASK_COMPLETE.
Proof.
  repeat split; try (vm_compute; reflexivity).
  vm_compute. discriminate.
Qed.

(** ** TrafficManager: reservations *)

Lemma held_by_other_spec {K : Type} `{Countable K}
    (reservations : gmap K (string * Qc)) (key : K) (robot_id : string)
    (current_time : Qc) :
  TrafficManager.held_by_other reservations key robot_id current_time = true
  ↔ live_lease_of_other reservations key robot_id current_time.
Proof.
  unfold TrafficManager.held_by_other, live_lease_of_other.
  destruct (reservations !! key) as [[holder expiry]|].
  - rewrite andb_true_iff, !bool_decide_eq_true. split.
    + intros [? ?]. by exists holder, expiry.
    + intros (? & ? & [= <- <-] & ? & ?). done.
  - split; [done|]. intros (? & ? & ? & _). done.
Qed.

Lemma held_by_other_false {K : Type} `{Countable K}
    (reservations : gmap K (string * Qc)) (key : K) (robot_id : string)
    (current_time : Qc) :
  TrafficManager.held_by_other reservations key robot_id current_time = false
  ↔ ¬ live_lease_of_other reservations key robot_id current_time.
Proof. rewrite <- held_by_other_spec. by destruct (TrafficManager.held_by_other _ _ _ _). Qed.

(** C7: [reserve_lane] and [reserve_intersection] refuse, and change
    nothing, when the key carries a live lease of another robot; otherwise
    they grant and record the lease until [now + duration]. In particular,
    after [R1] was granted lane [L] for one second at time [t0], [R2] is
    refused a tenth of a second later and granted eleven tenths of a second
    after [t0]. *)
Theorem reservation_lease (self : TrafficManager.t) (now duration : Qc)
    (robot_id : string) (lane : nat * nat) (vertex_idx : nat) (t0 : Qc) :
  (live_lease_of_other (TrafficManager.lane_reservations self) lane
     robot_id now →
   TrafficManager.reserve_lane now lane robot_id duration self
     = (false, self)) ∧
  (¬ live_lease_of_other (TrafficManager.lane_reservations self) lane
       robot_id now →
   TrafficManager.reserve_lane now lane robot_id duration self
     = (true,
        TrafficManager.mk (TrafficManager.intersection_slots self)
          (<[lane := (robot_id, (now + duration)%Qc)]>
             (TrafficManager.lane_reservations self)))) ∧
  (live_lease_of_other (TrafficManager.intersection_slots self) vertex_idx
     robot_id now →
   TrafficManager.reserve_intersection now vertex_idx robot_id duration self
     = (false, self)) ∧
  (¬ live_lease_of_other (TrafficManager.intersection_slots self) vertex_idx
       robot_id now →
   TrafficManager.reserve_intersection now vertex_idx robot_id duration self
     = (true,
        TrafficManager.mk
          (<[vertex_idx := (robot_id, (now + duration)%Qc)]>
             (TrafficManager.intersection_slots self))
          (TrafficManager.lane_reservations self))) ∧
  ((TrafficManager.reserve_lane t0 lane "R1" 1%Qc self).1 = true →
   let held := (TrafficManager.reserve_lane t0 lane "R1" 1%Qc self).2 in
   TrafficManager.reserve_lane (t0 + one_tenth)%Qc lane "R2" 1%Qc held
     = (false, held) ∧
   (TrafficManager.reserve_lane (t0 + eleven_tenths)%Qc lane "R2" 1%Qc
      held).1 = true).
Proof.
  unfold TrafficManager.reserve_lane, TrafficManager.reserve_intersection.
  split; [|split; [|split; [|split]]].
  - intros Hl. apply held_by_other_spec in Hl. by rewrite Hl.
  - intros Hl. apply held_by_other_false in Hl. by rewrite Hl.
  - intros Hl. apply held_by_other_spec in Hl. by rewrite Hl.
  - intros Hl. apply held_by_other_false in Hl. by rewrite Hl.
  - destruct (TrafficManager.held_by_other _ lane "R1" t0); [done|].
    intros _. cbn [snd TrafficManager.lane_reservations].
    unfold TrafficManager.held_by_other.
    rewrite !lookup_insert_eq.
    assert (Hlive : (t0 + one_tenth < t0 + 1)%Qc)
      by (unfold one_tenth; qc_to_q; lra).
    assert (Hdead : ¬ (t0 + eleven_tenths < t0 + 1)%Qc)
      by (unfold eleven_tenths; qc_to_q; lra).
    rewrite (bool_decide_eq_true_2 _ Hlive).
    rewrite (bool_decide_eq_false_2 _ Hdead).
    split; reflexivity.
Qed.

(** C7, witness: the three calls of the scenario on empty tables, at time
    [0], and a refused and a granted reservation of a vertex. *)
Lemma reservation_lease_witness :
  let held := (TrafficManager.reserve_lane 0%Qc (0, 1) "R1" 1%Qc
                 TrafficManager.init).2 in
  TrafficManager.reserve_lane (0 + one_tenth)%Qc (0, 1) "R2" 1%Qc held
    = (false, held) ∧
  (TrafficManager.reserve_lane (0 + eleven_tenths)%Qc (0, 1) "R2" 1%Qc
     held).1 = true ∧
  TrafficManager.reserve_intersection 1%Qc 1 "R1" 1%Qc vertex_1_reserved
    = (false, vertex_1_reserved) ∧
  (TrafficManager.reserve_intersection 1%Qc 1 "R2" 1%Qc
     vertex_1_reserved).1 = true.
Proof.
  pose proof (reservation_lease TrafficManager.init 0%Qc 1%Qc "R1" (0, 1) 0
                0%Qc) as (_ & _ & _ & _ & Hscenario).
  pose proof (reservation_lease vertex_1_reserved 1%Qc 1%Qc "R1" (0, 1) 1
                0%Qc) as (_ & _ & Hrefused & _ & _).
  pose proof (reservation_lease vertex_1_reserved 1%Qc 1%Qc "R2" (0, 1) 1
                0%Qc) as (_ & _ & _ & Hgranted & _).
  destruct (Hscenario eq_refl) as [H1 H2].
  split; [exact H1|]. split; [exact H2|]. split.
  - apply Hrefused. exists "R2", (0 + Qc_of_Z 10)%Qc.
    split; [reflexivity|]. split; [discriminate|reflexivity].
  - rewrite Hgranted; [reflexivity|].
    intros (holder & expiry & Hlook & Hne & _).
    vm_compute in Hlook. by injection Hlook as <- _.
Defined.

(** What [check_path_availability] tests: the lanes of the path and the
    vertices at which those lanes start. *)
Lemma check_segments_spec (now : Qc) (robot_id : string)
    (self : TrafficManager.t) (path : list nat) :
  TrafficManager.check_segments now robot_id self path = false ↔
  ∃ a b, (a, b) ∈ lanes_of path ∧
    (live_lease_of_other (TrafficManager.lane_reservations self) (a, b)
       robot_id now ∨
     live_lease_of_other (TrafficManager.intersection_slots self) a
       robot_id now).
Proof.
  induction path as [|a [|b rest] IH].
  - cbn. split; [done|]. intros (? & ? & Hin & _). by apply elem_of_nil in Hin.
  - cbn. split; [done|]. intros (? & ? & Hin & _). by apply elem_of_nil in Hin.
  - cbn [TrafficManager.check_segments lanes_of].
    destruct (TrafficManager.held_by_other _ (a, b) _ _) eqn:Hlane.
    { split; [|done]. intros _. exists a, b. split; [apply list_elem_of_here|].
      left. by apply held_by_other_spec. }
    destruct (TrafficManager.held_by_other _ a _ _) eqn:Hslot.
    { split; [|done]. intros _. exists a, b. split; [apply list_elem_of_here|].
      right. by apply held_by_other_spec. }
    rewrite IH. apply held_by_other_false in Hlane, Hslot.
    split.
    + intros (a' & b' & Hin & Hl). exists a', b'.
      split; [by apply list_elem_of_further|done].
    + intros (a' & b' & Hin & Hl). apply elem_of_cons in Hin as [[= -> ->]|Hin].
      * by destruct Hl.
      * by exists a', b'.
Qed.

(** C8 (the code departs from the claim): the last vertex of a path is
    never tested. With vertex [1] under a live lease of [R2], the path
    [[0; 1]] is reported available to [R1], and so is the path [[1]]. *)
Theorem check_path_availability_skips_last_vertex :
  live_lease_of_other (TrafficManager.intersection_slots vertex_1_reserved)
    1 "R1" 1%Qc ∧
  1 ∈ [0; 1] ∧
  TrafficManager.check_path_availability 1%Qc [0; 1] "R1" vertex_1_reserved
    = true ∧
  TrafficManager.check_path_availability 1%Qc [1] "R1" vertex_1_reserved
    = true.
Proof.
  split.
  - exists "R2", (0 + Qc_of_Z 10)%Qc.
    split; [reflexivity|]. split; [discriminate|reflexivity].
  - split; [set_solver|]. split; reflexivity.
Qed.

(** ** FleetManager: task assignment *)

(** C6, as amended: the state of the robot is checked by
    [FleetManager.assign_task], which turns down a robot that is moving or
    waiting: it returns [False], logs the refusal and changes neither the
    robot nor anything else of the fleet. *)
Theorem fleet_assign_task_rejects_busy (new_task_id robot_id : string)
    (destination_idx : nat) (self : FleetManager.t) (robot : Robot.t) :
  FleetManager.get_robot_by_id self robot_id = Some robot →
  Robot.state robot = Robot.MOVING ∨ Robot.state robot = Robot.WAITING →
  ∃ self',
    FleetManager.assign_task new_task_id robot_id destination_idx self
      = Some (Ret false, self') ∧
    FleetManager.log self' =
      FleetManager.log self ++ [FleetManager.AssignBusy robot_id] ∧
    FleetManager.robots self' = FleetManager.robots self ∧
    FleetManager.get_robot_by_id self' robot_id = Some robot ∧
    FleetManager.occupied_lanes self' = FleetManager.occupied_lanes self ∧
    FleetManager.robot_count self' = FleetManager.robot_count self.
Proof.
  unfold FleetManager.get_robot_by_id, FleetManager.assign_task.
  intros Hget Hst. rewrite Hget.
  destruct (decide _) as [_|Hn]; [|by destruct Hn].
  eexists. split; [reflexivity|]. cbn. by rewrite Hget.
Qed.

(** C6, witness: the moving robot of the one-robot fleet. *)
Lemma fleet_assign_task_rejects_busy_witness :
  ∃ self',
    FleetManager.assign_task "task-2" "R1" 2 busy_fleet
      = Some (Ret false, self') ∧
    FleetManager.robots self' = FleetManager.robots busy_fleet.
Proof.
  destruct (fleet_assign_task_rejects_busy "task-2" "R1" 2 busy_fleet
              moving_robot) as (self' & Hcall & _ & Hrobots & _).
  - reflexivity.
  - left. reflexivity.
  - exists self'. split; assumption.
Defined.

(** ** TrafficManager: waiting robots *)

(** [get_current_lane] reports no lane for a robot that is not moving. *)
Lemma get_current_lane_not_moving (r : Robot.t) :
  Robot.state r ≠ Robot.MOVING → Robot.get_current_lane r = None.
Proof.
  intros Hst. unfold Robot.get_current_lane.
  destruct (decide _) as [_|Hn]; [done|]. destruct Hn. by left.
Qed.

(** Hence the loop body of [process_waiting_robots] changes no robot. *)
Lemma process_waiting_robot_id (fm : FleetManager.t) (robot_id : string)
    (robot : Robot.t) :
  TrafficManager.process_waiting_robot fm robot_id robot = robot.
Proof.
  unfold TrafficManager.process_waiting_robot.
  destruct (decide _) as [Hw|_]; [|done].
  rewrite get_current_lane_not_moving; [done|]. by rewrite Hw.
Qed.

Lemma process_waiting_robots_id (fm : FleetManager.t) :
  TrafficManager.process_waiting_robots fm = fm.
Proof.
  assert (Hmap : ∀ rs : list (string * Robot.t),
            map (fun kr => (kr.1, TrafficManager.process_waiting_robot fm
                                    kr.1 kr.2)) rs = rs).
  { induction rs as [|[k r] rs IH]; cbn; [done|].
    by rewrite process_waiting_robot_id, IH. }
  unfold TrafficManager.process_waiting_robots, FleetManager.set_robots.
  rewrite Hmap. by destruct fm.
Qed.

(** C3 (the code departs from the claim): [process_waiting_robots] never
    releases a robot. The robot of the fleet below waits in front of the
    lane [(0, 1)], the fleet manager does not report the lane blocked, and
    after the call the robot is still waiting. *)
Theorem waiting_robot_not_released :
  let robot := Robot.set_waiting 1%Qc moving_robot in
  FleetManager.get_robot_by_id waiting_fleet "R1" = Some robot ∧
  Robot.state robot = Robot.WAITING ∧
  Robot.path robot !! Robot.current_path_index robot = Some 0 ∧
  Robot.get_next_vertex robot = Some 1 ∧
  FleetManager.is_lane_blocked waiting_fleet 0 1 "R1" = false ∧
  FleetManager.get_robot_by_id
    (TrafficManager.process_waiting_robots waiting_fleet) "R1" = Some robot.
Proof.
  rewrite process_waiting_robots_id. repeat split.
Qed.

(** ** Robot: what every update preserves *)

Ltac update_cases :=
  unfold Robot.update, Robot.update_moving, Robot.resume_movement,
    Robot.set_waiting, Robot.get_next_vertex in *;
  repeat (case_decide || case_match); simplify_eq; cbn in *.

(** An update changes neither the path, nor the id, nor the destination of
    the robot. *)
Lemma update_frame (now dt : Qc) (coords : nat -> result (Qc * Qc))
    (dist : nat -> nat -> result Qc) (blocked : nat -> nat -> string -> bool)
    (r r' : Robot.t) (res : result bool) :
  Robot.update now dt coords dist blocked r = (res, r') →
  Robot.path r' = Robot.path r ∧ Robot.id r' = Robot.id r ∧
  Robot.destination_idx r' = Robot.destination_idx r.
Proof. intros H. update_cases; done. Qed.

(** An update that reports a change was given a robot under way. *)
Lemma update_changed_under_way (now dt : Qc)
    (coords : nat -> result (Qc * Qc)) (dist : nat -> nat -> result Qc)
    (blocked : nat -> nat -> string -> bool) (r r' : Robot.t) :
  Robot.update now dt coords dist blocked r = (Ret true, r') →
  Robot.state r = Robot.MOVING ∨ Robot.state r = Robot.WAITING.
Proof.
  intros H. destruct (Robot.state r) eqn:Hst; auto; exfalso;
    unfold Robot.update in H; rewrite Hst in H;
    destruct (decide _) as [_|Hn] in H; try done;
    destruct Hn; done.
Qed.

(** An update moves the path index only for a robot whose lane ahead is
    free. *)
Lemma update_index_moved (now dt : Qc) (coords : nat -> result (Qc * Qc))
    (dist : nat -> nat -> result Qc) (blocked : nat -> nat -> string -> bool)
    (r r' : Robot.t) (res : result bool) :
  Robot.update now dt coords dist blocked r = (res, r') →
  Robot.current_path_index r' ≠ Robot.current_path_index r →
  ∃ u v,
    Robot.path r !! Robot.current_path_index r = Some u ∧
    Robot.path r !! (Robot.current_path_index r + 1) = Some v ∧
    blocked u v (Robot.id r) = false.
Proof.
  intros H Hne. update_cases; try done; eauto.
  all: match goal with
       | Hfree : negb _ = true |- _ => apply negb_true_iff in Hfree
       end; eauto.
Qed.

(** ** FleetManager: one pass of [update_robots] runs to its end *)

Lemma get_vertex_coords_total (g : NavGraph.t) (v : nat) :
  v < length (NavGraph.vertices g) →
  ∃ c, NavGraph.get_vertex_coords g v = Ret c.
Proof.
  intros Hv. apply lookup_lt_is_Some_2 in Hv as [x Hx].
  unfold NavGraph.get_vertex_coords. rewrite Hx. eauto.
Qed.

Lemma get_vertex_name_total (g : NavGraph.t) (v : nat) :
  v < length (NavGraph.vertices g) →
  ∃ nm, NavGraph.get_vertex_name g v = Ret nm.
Proof.
  intros Hv. apply lookup_lt_is_Some_2 in Hv as [x Hx].
  unfold NavGraph.get_vertex_name. rewrite Hx. eauto.
Qed.

Lemma calculate_distance_total (sqrt : Qc -> Qc) (g : NavGraph.t)
    (u v : nat) :
  u < length (NavGraph.vertices g) → v < length (NavGraph.vertices g) →
  ∃ len, NavGraph.calculate_distance sqrt g u v = Ret len.
Proof.
  intros Hu Hv.
  apply lookup_lt_is_Some_2 in Hu as [x Hx].
  apply lookup_lt_is_Some_2 in Hv as [y Hy].
  unfold NavGraph.calculate_distance, NavGraph.distance_in.
  rewrite Hx, Hy. eauto.
Qed.

Lemma path_vertex_valid (g : NavGraph.t) (r : Robot.t) (i v : nat) :
  Forall (fun v => v < length (NavGraph.vertices g)) (Robot.path r) →
  Robot.path r !! i = Some v → v < length (NavGraph.vertices g).
Proof. intros Hall Hi. by apply (Forall_lookup_1 _ _ _ _ Hall Hi). Qed.

(** [Robot.update] does not raise on a robot of the fleet. *)
Lemma update_total (sqrt : Qc -> Qc) (g : NavGraph.t) (now dt : Qc)
    (blocked : nat -> nat -> string -> bool) (r : Robot.t) :
  robot_ready g r →
  ∃ changed r',
    Robot.update now dt (NavGraph.get_vertex_coords g)
      (NavGraph.calculate_distance sqrt g) blocked r = (Ret changed, r').
Proof.
  intros (Hpath & Hwait & _).
  destruct (Robot.update _ _ _ _ _ r) as [[changed|e] r'] eqn:Hup; [eauto|].
  exfalso. update_cases;
    repeat match goal with
    | Hp : Forall _ (Robot.path ?x), H : Robot.path ?x !! _ = Some _ |- _ =>
        apply (path_vertex_valid g x _ _ Hp) in H
    end;
    repeat match goal with
    | H : Robot.path _ !! _ = None |- _ => apply lookup_ge_None_1 in H
    | H : NavGraph.get_vertex_coords g ?v = Raise _,
      Hv : ?v < _ |- _ =>
        destruct (get_vertex_coords_total g v Hv) as [? ?]; congruence
    | H : NavGraph.calculate_distance sqrt g ?u ?v = Raise _,
      Hu : ?u < _, Hv : ?v < _ |- _ =>
        destruct (calculate_distance_total sqrt g u v Hu Hv) as [? ?];
        congruence
    end;
    try (specialize (Hwait ltac:(done))); try lia.
Qed.


(** The log lines of a robot of the fleet are written without a raise. *)
Lemma log_state_change_total (g : NavGraph.t)
    (occupied : gmap (nat * nat) string) (robot_id : string) (r : Robot.t) :
  Forall (fun v => v < length (NavGraph.vertices g)) (Robot.path r) →
  (Robot.state r = Robot.TASK_COMPLETE →
   ∃ d, Robot.destination_idx r = Some d ∧
        d < length (NavGraph.vertices g)) →
  ∃ msgs, FleetManager.log_state_change g occupied robot_id r = Ret msgs.
Proof.
  intros Hpath Hdest. unfold FleetManager.log_state_change.
  destruct (decide (Robot.state r = Robot.TASK_COMPLETE)) as [Hc|_].
  { destruct (Hdest Hc) as (d & -> & Hd).
    destruct (get_vertex_name_total g d Hd) as [nm ->]. eauto. }
  destruct (decide (Robot.state r = Robot.WAITING)) as [_|_].
  { destruct (Robot.get_current_lane r); eauto. }
  destruct (decide _) as [[_ Hlt]|_]; [|eauto].
  destruct (lookup_lt_is_Some_2 (Robot.path r) (Robot.current_path_index r))
    as [curr Hcurr]; [lia|].
  destruct (lookup_lt_is_Some_2 (Robot.path r)
              (Robot.current_path_index r + 1)) as [next Hnext]; [lia|].
  rewrite Hcurr, Hnext.
  destruct (Robot.current_path_index r) as [|i] eqn:Hi; [eauto|].
  destruct (lookup_lt_is_Some_2 (Robot.path r) i) as [prev Hprev]; [lia|].
  rewrite Hprev.
  destruct (decide _) as [_|_]; [|eauto].
  destruct (get_vertex_name_total g prev) as [nm1 ->];
    [by eapply path_vertex_valid|].
  destruct (get_vertex_name_total g curr) as [nm2 ->];
    [by eapply path_vertex_valid|].
  eauto.
Qed.

Section Pass.

Variable sqrt : Qc -> Qc.
Variable g : NavGraph.t.
Variables now delta_time : Qc.

#[local] Abbreviation update_in occupied r :=
  (Robot.update now delta_time (NavGraph.get_vertex_coords g)
     (NavGraph.calculate_distance sqrt g)
     (FleetManager.lane_blocked_in occupied) r).

#[local] Abbreviation update_one k r p :=
  (FleetManager.update_one sqrt g now delta_time k r p).

#[local] Abbreviation update_each todo p :=
  (FleetManager.update_each sqrt g now delta_time todo p).

(** One iteration of the loop on a robot of the fleet: the robot is
    updated against the table as it stands, appended to the robots done,
    and, if it changed and is on a lane, entered into the table. *)
Lemma update_one_ready (k : string) (r : Robot.t) (p : FleetManager.pass) :
  robot_ready g r →
  ∃ changed r' p',
    update_in (FleetManager.table p) r = (Ret changed, r') ∧
    update_one k r p = (Ret tt, p') ∧
    FleetManager.updated p' = FleetManager.updated p ++ [(k, r')] ∧
    FleetManager.table p' =
      match Robot.get_current_lane r' with
      | Some lane =>
          if changed then <[lane := k]> (FleetManager.table p)
          else FleetManager.table p
      | None => FleetManager.table p
      end.
Proof.
  intros Hready.
  destruct (update_total sqrt g now delta_time
              (FleetManager.lane_blocked_in (FleetManager.table p)) r Hready)
    as (changed & r' & Hup).
  exists changed, r'.
  unfold FleetManager.update_one. rewrite Hup.
  destruct changed.
  - destruct (update_frame _ _ _ _ _ _ _ _ Hup) as (Hpath & _ & Hdest).
    pose proof (update_changed_under_way _ _ _ _ _ _ _ Hup) as Hway.
    destruct Hready as (Hvalid & _ & Hd).
    destruct (log_state_change_total g
                match Robot.get_current_lane r' with
                | Some lane => <[lane:=k]> (FleetManager.table p)
                | None => FleetManager.table p
                end k r') as [msgs Hmsgs].
    { by rewrite Hpath. }
    { intros _. rewrite Hdest. by apply Hd. }
    rewrite Hmsgs. eexists. split; [done|]. split; [done|].
    cbn. split; [done|]. by destruct (Robot.get_current_lane r').
  - eexists. split; [done|]. split; [done|].
    cbn. split; [done|]. by destruct (Robot.get_current_lane r').
Qed.

(** The loop over robots of the fleet does not raise. *)
Lemma update_each_ready (todo : list (string * Robot.t))
    (p : FleetManager.pass) :
  Forall (fun kr => robot_ready g kr.2) todo →
  ∃ p', update_each todo p = (Ret tt, p').
Proof.
  intros Hall. revert p.
  induction Hall as [|[k r] todo Hr _ IH]; intros p; cbn; [eauto|].
  destruct (update_one_ready k r p Hr) as (? & ? & p1 & _ & -> & _).
  apply IH.
Qed.

Lemma update_each_app (todo1 todo2 : list (string * Robot.t))
    (p p1 : FleetManager.pass) :
  update_each todo1 p = (Ret tt, p1) →
  update_each (todo1 ++ todo2) p = update_each todo2 p1.
Proof.
  revert p. induction todo1 as [|[k r] todo1 IH]; intros p; cbn.
  - by intros [= ->].
  - destruct (update_one k r p) as [[[]|e] p']; [|done]. apply IH.
Qed.

End Pass.

(** ** FleetManager: the table of occupied lanes *)

Lemma robots_get_elem_of (rs : list (string * Robot.t)) (k : string)
    (r : Robot.t) :
  FleetManager.robots_get rs k = Some r → (k, r) ∈ rs.
Proof.
  induction rs as [|[k' r'] rs IH]; cbn; [done|].
  destruct (decide (k' = k)) as [->|_].
  - intros [= ->]. apply list_elem_of_here.
  - intros H. apply list_elem_of_further. by apply IH.
Qed.

Lemma robots_get_app_here (l1 l2 : list (string * Robot.t)) (k : string)
    (r : Robot.t) :
  k ∉ map fst l1 → FleetManager.robots_get (l1 ++ (k, r) :: l2) k = Some r.
Proof.
  induction l1 as [|[k' r'] l1 IH]; cbn; intros Hk.
  - destruct (decide (k = k)); done.
  - apply not_elem_of_cons in Hk as [Hne Hk].
    destruct (decide (k' = k)); [done|]. by apply IH.
Qed.

Lemma robots_get_unique (rs : list (string * Robot.t)) (k : string)
    (r : Robot.t) :
  NoDup (map fst rs) → (k, r) ∈ rs → FleetManager.robots_get rs k = Some r.
Proof.
  intros Hnd Hin. apply list_elem_of_split in Hin as (l1 & l2 & ->).
  apply robots_get_app_here.
  rewrite map_app in Hnd. cbn in Hnd.
  apply NoDup_app in Hnd as (_ & Hdisj & _).
  intros Hk. apply (Hdisj k Hk). apply list_elem_of_here.
Qed.

(** The first loop of [update_robots] only adds entries ... *)
Lemma mark_occupied_mono (rs : list (string * Robot.t))
    (o : gmap (nat * nat) string) (lane : nat * nat) :
  is_Some (o !! lane) → is_Some (FleetManager.mark_occupied rs o !! lane).
Proof.
  revert o. induction rs as [|[k r] rs IH]; intros o Ho; cbn; [done|].
  destruct (Robot.get_current_lane r) as [l|]; apply IH; [|done].
  destruct (decide (l = lane)) as [->|Hne].
  - rewrite lookup_insert_eq. eauto.
  - by rewrite lookup_insert_ne.
Qed.

(** ... one for the lane of every moving robot ... *)
Lemma mark_occupied_hit (rs : list (string * Robot.t))
    (o : gmap (nat * nat) string) (lane : nat * nat) (k : string)
    (r : Robot.t) :
  (k, r) ∈ rs → Robot.get_current_lane r = Some lane →
  is_Some (FleetManager.mark_occupied rs o !! lane).
Proof.
  revert o. induction rs as [|[k' r'] rs IH]; intros o Hin Hl.
  { by apply elem_of_nil in Hin. }
  apply elem_of_cons in Hin as [[= <- <-]|Hin]; cbn.
  - rewrite Hl. apply mark_occupied_mono. rewrite lookup_insert_eq. eauto.
  - destruct (Robot.get_current_lane r'); by apply IH.
Qed.

(** ... and each entry names a robot that is moving on the lane. *)
Lemma mark_occupied_origin (rs : list (string * Robot.t))
    (o : gmap (nat * nat) string) (lane : nat * nat) (h : string) :
  FleetManager.mark_occupied rs o !! lane = Some h →
  o !! lane = Some h ∨
  ∃ r, (h, r) ∈ rs ∧ Robot.get_current_lane r = Some lane.
Proof.
  revert o. induction rs as [|[k r] rs IH]; intros o; cbn; [auto|].
  destruct (Robot.get_current_lane r) as [l|] eqn:Hl; intros H;
    apply IH in H as [H|(r' & Hin & Hr')].
  - destruct (decide (l = lane)) as [->|Hne].
    + rewrite lookup_insert_eq in H. injection H as <-.
      right. exists r. split; [apply list_elem_of_here|done].
    + rewrite lookup_insert_ne in H by done. by left.
  - right. exists r'. split; [by apply list_elem_of_further|done].
  - by left.
  - right. exists r'. split; [by apply list_elem_of_further|done].
Qed.

(** A lane on which no robot is moving is not in the rebuilt table. *)
Lemma mark_occupied_free (rs : list (string * Robot.t)) (lane : nat * nat) :
  (∀ k r, (k, r) ∈ rs → Robot.get_current_lane r ≠ Some lane) →
  FleetManager.mark_occupied rs ∅ !! lane = None.
Proof.
  intros Hfree.
  destruct (FleetManager.mark_occupied rs ∅ !! lane) as [h|] eqn:Hh; [|done].
  apply mark_occupied_origin in Hh as [Hh|(r & Hin & Hr)].
  - by rewrite lookup_empty in Hh.
  - by destruct (Hfree h r Hin).
Qed.

Section PassTable.

Variable sqrt : Qc -> Qc.
Variable g : NavGraph.t.
Variables now delta_time : Qc.

#[local] Abbreviation update_in occupied r :=
  (Robot.update now delta_time (NavGraph.get_vertex_coords g)
     (NavGraph.calculate_distance sqrt g)
     (FleetManager.lane_blocked_in occupied) r).

#[local] Abbreviation update_one k r p :=
  (FleetManager.update_one sqrt g now delta_time k r p).

#[local] Abbreviation update_each todo p :=
  (FleetManager.update_each sqrt g now delta_time todo p).

(** An iteration leaves the table as it is or writes the id of its robot
    into it. *)
Lemma update_one_table (k : string) (r : Robot.t) (p p' : FleetManager.pass)
    (res : result unit) :
  update_one k r p = (res, p') →
  FleetManager.table p' = FleetManager.table p ∨
  ∃ lane, FleetManager.table p' = <[lane := k]> (FleetManager.table p).
Proof.
  unfold FleetManager.update_one.
  destruct (Robot.update _ _ _ _ _ r) as [[[]|e] r'].
  - destruct (Robot.get_current_lane r') as [lane|];
      destruct (FleetManager.log_state_change _ _ _ _);
      intros [= <- <-]; cbn; eauto.
  - intros [= <- <-]. by left.
  - intros [= <- <-]. by left.
Qed.

(** No entry of the table is removed while the robots are updated ... *)
Lemma update_each_table_mono (todo : list (string * Robot.t))
    (p : FleetManager.pass) (lane : nat * nat) :
  is_Some (FleetManager.table p !! lane) →
  is_Some (FleetManager.table (update_each todo p).2 !! lane).
Proof.
  revert p. induction todo as [|[k r] todo IH]; intros p Hp; cbn; [done|].
  destruct (update_one k r p) as [res p1] eqn:H1.
  assert (Hp1 : is_Some (FleetManager.table p1 !! lane)).
  { apply update_one_table in H1 as [->|[l ->]]; [done|].
    destruct (decide (l = lane)) as [->|Hne].
    - rewrite lookup_insert_eq. eauto.
    - by rewrite lookup_insert_ne. }
  destruct res as [[]|e]; [by apply IH|done].
Qed.

(** ... and an entry that changed names one of the robots updated. *)
Lemma update_each_table_origin (todo : list (string * Robot.t))
    (p : FleetManager.pass) (lane : nat * nat) (k' : string) :
  FleetManager.table (update_each todo p).2 !! lane = Some k' →
  FleetManager.table p !! lane = Some k' ∨ k' ∈ map fst todo.
Proof.
  revert p. induction todo as [|[k r] todo IH]; intros p; cbn; [auto|].
  destruct (update_one k r p) as [res p1] eqn:H1.
  assert (Hp1 : FleetManager.table p1 !! lane = Some k' →
                FleetManager.table p !! lane = Some k' ∨ k' = k).
  { apply update_one_table in H1 as [->|[l ->]]; [auto|].
    destruct (decide (l = lane)) as [->|Hne].
    - rewrite lookup_insert_eq. intros [= ->]. by right.
    - rewrite lookup_insert_ne by done. auto. }
  destruct res as [[]|e].
  - intros H. apply IH in H as [H|H].
    + apply Hp1 in H as [H| ->]; [by left|]. right. apply list_elem_of_here.
    + right. by apply list_elem_of_further.
  - cbn. intros H. apply Hp1 in H as [H| ->]; [by left|].
    right. apply list_elem_of_here.
Qed.

(** The robots done grow by the robots of the loop, under the same ids. *)
Lemma update_each_updated (todo : list (string * Robot.t))
    (p p' : FleetManager.pass) :
  update_each todo p = (Ret tt, p') →
  ∃ rs', FleetManager.updated p' = FleetManager.updated p ++ rs' ∧
         map fst rs' = map fst todo.
Proof.
  revert p. induction todo as [|[k r] todo IH]; intros p; cbn.
  { intros [= ->]. exists []. by rewrite app_nil_r. }
  destruct (update_one k r p) as [[[]|e] p1] eqn:H1; [|done].
  intros H. apply IH in H as (rs' & -> & Hkeys).
  unfold FleetManager.update_one in H1.
  destruct (Robot.update _ _ _ _ _ r) as [[[]|e] r']; [| |done].
  - destruct (FleetManager.log_state_change _ _ _ _); [|done].
    injection H1 as <-. cbn. exists ((k, r') :: rs').
    rewrite <- app_assoc. cbn. by rewrite Hkeys.
  - injection H1 as <-. cbn. exists ((k, r') :: rs').
    rewrite <- app_assoc. cbn. by rewrite Hkeys.
Qed.

End PassTable.

Lemma lane_blocked_in_true (occupied : gmap (nat * nat) string)
    (lane : nat * nat) (k : string) :
  FleetManager.lane_blocked_in occupied lane.1 lane.2 k = true ↔
  ∃ y, occupied !! lane = Some y ∧ y ≠ k.
Proof.
  unfold FleetManager.lane_blocked_in. destruct lane as [a b]. cbn.
  destruct (occupied !! (a, b)) as [y|].
  - rewrite bool_decide_eq_true. split; [eauto|]. by intros (? & [= <-] & ?).
  - split; [done|]. by intros (? & ? & _).
Qed.

Lemma get_current_lane_Some (r : Robot.t) (lane : nat * nat) :
  Robot.get_current_lane r = Some lane →
  Robot.state r = Robot.MOVING ∧
  Robot.path r !! Robot.current_path_index r = Some lane.1 ∧
  Robot.path r !! (Robot.current_path_index r + 1) = Some lane.2.
Proof.
  unfold Robot.get_current_lane.
  destruct (decide _) as [|Hn]; [done|].
  destruct (Robot.path r !! Robot.current_path_index r) as [a|]; [|done].
  destruct (Robot.path r !! (Robot.current_path_index r + 1)) as [b|];
    [|done].
  intros [= <-]. cbn. split; [|done].
  destruct (decide (Robot.state r = Robot.MOVING)); [done|].
  destruct Hn. by left.
Qed.

Section PassClaims.

Variable sqrt : Qc -> Qc.
Variables now delta_time : Qc.

#[local] Abbreviation update_in g occupied r :=
  (Robot.update now delta_time (NavGraph.get_vertex_coords g)
     (NavGraph.calculate_distance sqrt g)
     (FleetManager.lane_blocked_in occupied) r).

#[local] Abbreviation update_each g todo p :=
  (FleetManager.update_each sqrt g now delta_time todo p).

(** The robot [r], stored under [k] between the robots [pre] and [post],
    in a pass that starts from a table in which the lane ahead of [r] is
    held by another robot: the loop reaches [r], leaves it waiting where it
    is, and runs to its end. *)
Lemma held_lane_in_pass (g : NavGraph.t) (pre post : list (string * Robot.t))
    (k : string) (r : Robot.t) (lane : nat * nat) (p0 : FleetManager.pass) :
  robots_ready g (pre ++ (k, r) :: post) →
  pending_lane r lane →
  (∃ y, FleetManager.table p0 !! lane = Some y ∧ y ≠ k) →
  ∃ pr changed r' p',
    update_each g pre p0 = (Ret tt, pr) ∧
    update_in g (FleetManager.table pr) r = (Ret changed, r') ∧
    Robot.state r' = Robot.WAITING ∧ stayed r r' ∧
    update_each g (pre ++ (k, r) :: post) p0 = (Ret tt, p') ∧
    ∃ pre' post',
      FleetManager.updated p' =
        FleetManager.updated p0 ++ pre' ++ (k, r') :: post' ∧
      map fst pre' = map fst pre.
Proof.
  intros [Hnd Hall] (Hst & Hu & Hv) (y & Hy & Hyk).
  apply Forall_app in Hall as [Hpre Hrest].
  apply Forall_cons in Hrest as [[Hid Hr] Hpost]. cbn in Hid, Hr.
  assert (Hk : k ∉ map fst pre).
  { rewrite map_app in Hnd. cbn in Hnd.
    apply NoDup_app in Hnd as (_ & Hdisj & _).
    intros Hin. apply (Hdisj k Hin). apply list_elem_of_here. }
  destruct (update_each_ready sqrt g now delta_time pre p0) as [pr Hpr].
  { eapply Forall_impl; [exact Hpre|]. by intros ? [_ ?]. }
  (* the table when [r] is reached *)
  assert (Hblocked :
    FleetManager.lane_blocked_in (FleetManager.table pr) lane.1 lane.2
      (Robot.id r) = true).
  { apply lane_blocked_in_true.
    pose proof (update_each_table_mono sqrt g now delta_time pre p0 lane
                  ltac:(eauto)) as [y' Hy'].
    rewrite Hpr in Hy'. cbn in Hy'. exists y'. split; [done|].
    pose proof (update_each_table_origin sqrt g now delta_time pre p0 lane y')
      as Horigin.
    rewrite Hpr in Horigin. destruct (Horigin Hy') as [H|H].
    - rewrite Hid. congruence.
    - rewrite Hid. intros ->. done. }
  destruct (update_blocked now (NavGraph.get_vertex_coords g)
              (NavGraph.calculate_distance sqrt g)
              (FleetManager.lane_blocked_in (FleetManager.table pr))
              delta_time r lane.1 lane.2 Hst Hu Hv Hblocked)
    as (changed & r' & Hup & Hw & Hprog & Hposn & Hpidx & Hidx & _).
  destruct (update_one_ready sqrt g now delta_time k r pr Hr)
    as (changed' & r'' & p1 & Hup' & Hone & Hupd1 & _).
  rewrite Hup in Hup'. injection Hup' as <- <-.
  destruct (update_each_ready sqrt g now delta_time post p1) as [p' Hp'].
  { eapply Forall_impl; [exact Hpost|]. by intros ? [_ ?]. }
  exists pr, changed, r', p'.
  split; [done|]. split; [done|]. split; [done|]. split; [done|].
  split.
  { rewrite (update_each_app sqrt g now delta_time pre _ p0 pr Hpr).
    cbn. by rewrite Hone. }
  destruct (update_each_updated sqrt g now delta_time pre p0 pr Hpr)
    as (pre' & Hupd & Hkeys).
  destruct (update_each_updated sqrt g now delta_time post p1 p' Hp')
    as (post' & Hupd' & _).
  exists pre', post'. split; [|done].
  rewrite Hupd', Hupd1, Hupd, <- !app_assoc. done.
Qed.

(** What a single pass does keep: in a pass of [update_robots] over a
    fleet in which some robot is moving on the lane [lane], the table of
    occupied lanes built at the start of the pass maps the lane to one
    robot id [h], that of a robot moving on it; and every other robot that
    is on the lane or waits in front of it at the start of the pass is
    waiting at the end of the pass, with its progress, position and path
    index unchanged. A robot that reaches the start of the lane during
    the pass is not covered. *)
Theorem lane_mutual_exclusion (fm : FleetManager.t) (kB : string)
    (B : Robot.t) (lane : nat * nat) :
  fleet_ready fm →
  FleetManager.get_robot_by_id fm kB = Some B →
  Robot.get_current_lane B = Some lane →
  ∃ fm' h H,
    FleetManager.update_robots sqrt now delta_time fm = (Ret tt, fm') ∧
    FleetManager.mark_occupied (FleetManager.robots fm) ∅ !! lane = Some h ∧
    FleetManager.get_robot_by_id fm h = Some H ∧
    Robot.get_current_lane H = Some lane ∧
    ∀ k r,
      FleetManager.get_robot_by_id fm k = Some r →
      pending_lane r lane → k ≠ h →
      ∃ r', FleetManager.get_robot_by_id fm' k = Some r' ∧
            Robot.state r' = Robot.WAITING ∧ stayed r r'.
Proof.
  intros Hready HB HBl. pose proof Hready as [Hnd Hall].
  unfold FleetManager.get_robot_by_id in *.
  set (p0 := FleetManager.mkPass [] (FleetManager.mark_occupied
                (FleetManager.robots fm) ∅) (FleetManager.log fm)).
  destruct (update_each_ready sqrt (FleetManager.nav_graph fm) now delta_time
              (FleetManager.robots fm) p0) as [p' Hp'].
  { eapply Forall_impl; [exact Hall|]. by intros ? [_ ?]. }
  destruct (mark_occupied_hit (FleetManager.robots fm) ∅ lane kB B)
    as [h Hh]; [by apply robots_get_elem_of|done|].
  pose proof Hh as Hh'.
  apply mark_occupied_origin in Hh' as [Hh'|(H & HH & HHl)];
    [by rewrite lookup_empty in Hh'|].
  eexists _, h, H.
  split. { unfold FleetManager.update_robots. fold p0. by rewrite Hp'. }
  split; [done|]. split; [by apply robots_get_unique|]. split; [done|].
  intros k r Hk Hpend Hkh. cbn.
  apply robots_get_elem_of, list_elem_of_split in Hk as (pre & post & Hsplit).
  destruct (held_lane_in_pass (FleetManager.nav_graph fm) pre post k r lane p0)
    as (_ & _ & r' & p'' & _ & _ & Hw & Hstay & Hrun & pre' & post' &
        Hupd & Hkeys).
  { unfold fleet_ready in Hready. by rewrite Hsplit in Hready. }
  { done. }
  { exists h. split; [done|]. by intros ->. }
  rewrite <- Hsplit, Hp' in Hrun. injection Hrun as <-.
  exists r'. split; [|done].
  rewrite Hupd. cbn. apply robots_get_app_here.
  rewrite Hkeys. rewrite Hsplit, map_app in Hnd. cbn in Hnd.
  apply NoDup_app in Hnd as (_ & Hdisj & _).
  intros Hin. apply (Hdisj k Hin). apply list_elem_of_here.
Qed.

(** C9: the second loop of [update_robots] never removes an entry of the
    table of occupied lanes. Hence, when a robot [A] that was moving on
    [lane] at the start of the pass goes past the end of the lane (its path
    index advances), the lane is still reported blocked to every robot
    [B] updated later in the pass, and a robot [B] that is on the lane or
    waits in front of it ends the pass waiting where it was. The entry
    goes when the table is rebuilt: a lane on which no robot is moving is
    reported blocked to nobody. *)
Theorem single_snapshot_occupancy (fm : FleetManager.t)
    (pre mid post : list (string * Robot.t)) (kA kB : string)
    (A B : Robot.t) (lane : nat * nat) :
  fleet_ready fm →
  FleetManager.robots fm = pre ++ (kA, A) :: mid ++ (kB, B) :: post →
  Robot.get_current_lane A = Some lane →
  let g := FleetManager.nav_graph fm in
  let p0 := FleetManager.mkPass []
              (FleetManager.mark_occupied (FleetManager.robots fm) ∅)
              (FleetManager.log fm) in
  (∀ todo p l,
     is_Some (FleetManager.table p !! l) →
     is_Some (FleetManager.table (update_each g todo p).2 !! l)) ∧
  (∃ pA changedA A' pB changedB B',
     update_each g pre p0 = (Ret tt, pA) ∧
     update_in g (FleetManager.table pA) A = (Ret changedA, A') ∧
     update_each g (pre ++ (kA, A) :: mid) p0 = (Ret tt, pB) ∧
     update_in g (FleetManager.table pB) B = (Ret changedB, B') ∧
     (Robot.current_path_index A' = Robot.current_path_index A + 1 →
      FleetManager.lane_blocked_in (FleetManager.table pB) lane.1 lane.2 kB
        = true ∧
      (pending_lane B lane →
       Robot.state B' = Robot.WAITING ∧ stayed B B'))) ∧
  (∀ rs,
     (∀ k r, (k, r) ∈ rs → Robot.get_current_lane r ≠ Some lane) →
     ∀ k, FleetManager.lane_blocked_in (FleetManager.mark_occupied rs ∅)
            lane.1 lane.2 k = false).
Proof.
  intros [Hnd Hall] Hsplit HAl g p0. rewrite Hsplit in Hnd, Hall.
  split; [|split].
  - intros todo p l. apply update_each_table_mono.
  - apply Forall_app in Hall as [Hpre Hrest].
    apply Forall_cons in Hrest as [[HidA HA] Hrest].
    apply Forall_app in Hrest as [Hmid Hrest].
    apply Forall_cons in Hrest as [[HidB HB] _]. cbn in HidA, HA, HidB, HB.
    destruct (update_each_ready sqrt g now delta_time pre p0) as [pA HpA].
    { eapply Forall_impl; [exact Hpre|]. by intros ? [_ ?]. }
    destruct (update_one_ready sqrt g now delta_time kA A pA HA)
      as (changedA & A' & pA1 & HupA & HoneA & _ & HtabA).
    destruct (update_each_ready sqrt g now delta_time mid pA1) as [pB HpB].
    { eapply Forall_impl; [exact Hmid|]. by intros ? [_ ?]. }
    destruct (update_total sqrt g now delta_time
                (FleetManager.lane_blocked_in (FleetManager.table pB)) B HB)
      as (changedB & B' & HupB).
    exists pA, changedA, A', pB, changedB, B'.
    split; [done|]. split; [done|].
    split.
    { rewrite (update_each_app sqrt g now delta_time pre _ p0 pA HpA).
      cbn. by rewrite HoneA. }
    split; [done|].
    intros Hmoved.
    (* the lane was in the table, under the id of [A], when [A] moved *)
    destruct (update_index_moved _ _ _ _ _ _ _ _ HupA) as (u & v & Hu & Hv & Hfree);
      [lia|].
    destruct (get_current_lane_Some A lane HAl) as (_ & Hu' & Hv').
    assert (u = lane.1) by congruence. assert (v = lane.2) by congruence.
    subst u v.
    assert (HtA : FleetManager.table pA !! lane = Some kA).
    { destruct (update_each_table_mono sqrt g now delta_time pre p0 lane)
        as [y Hy].
      { apply (mark_occupied_hit _ _ _ kA A); [|done].
        rewrite Hsplit. apply elem_of_app. right.
        apply list_elem_of_here. }
      rewrite HpA in Hy. cbn in Hy. rewrite Hy. f_equal.
      destruct (decide (y = kA)) as [|Hne]; [done|]. exfalso.
      assert (FleetManager.lane_blocked_in (FleetManager.table pA) lane.1
                lane.2 (Robot.id A) = true); [|congruence].
      apply lane_blocked_in_true. exists y. by rewrite HidA. }
    assert (HtA1 : FleetManager.table pA1 !! lane = Some kA).
    { rewrite HtabA. destruct (Robot.get_current_lane A') as [l|]; [|done].
      destruct changedA; [|done].
      destruct (decide (l = lane)) as [->|Hne].
      - by rewrite lookup_insert_eq.
      - by rewrite lookup_insert_ne. }
    assert (HtB : ∃ y, FleetManager.table pB !! lane = Some y ∧ y ≠ kB).
    { destruct (update_each_table_mono sqrt g now delta_time mid pA1 lane)
        as [y Hy]; [eauto|].
      pose proof (update_each_table_origin sqrt g now delta_time mid pA1
                    lane y Hy) as Horigin.
      rewrite HpB in Hy. cbn in Hy. exists y. split; [done|].
      rewrite map_app in Hnd. cbn in Hnd.
      apply NoDup_app in Hnd as (_ & _ & Hnd).
      apply NoDup_cons in Hnd as [HkA Hnd].
      rewrite map_app in HkA, Hnd. cbn in HkA, Hnd.
      destruct Horigin as [Ho|Ho].
      - rewrite HtA1 in Ho. injection Ho as <-. intros ->.
        apply HkA. apply elem_of_app. right. apply list_elem_of_here.
      - intros ->. apply NoDup_app in Hnd as (_ & Hdisj & _).
        apply (Hdisj kB Ho). apply list_elem_of_here. }
    split; [by apply lane_blocked_in_true|].
    intros (Hst & HuB & HvB).
    destruct (update_blocked now (NavGraph.get_vertex_coords g)
                (NavGraph.calculate_distance sqrt g)
                (FleetManager.lane_blocked_in (FleetManager.table pB))
                delta_time B lane.1 lane.2 Hst HuB HvB)
      as (c & B'' & HupB' & Hw & Hprog & Hposn & Hpidx & Hidx & _).
    { rewrite HidB. by apply lane_blocked_in_true. }
    rewrite HupB in HupB'. injection HupB' as <- <-. done.
  - intros rs Hfree k.
    destruct (FleetManager.lane_blocked_in _ _ _ _) eqn:Hb; [|done].
    apply lane_blocked_in_true in Hb as (y & Hy & _).
    by rewrite mark_occupied_free in Hy.
Qed.

End PassClaims.

(** The fleets of the fixtures are as the fleet manager keeps them. *)
Lemma under_way_ready (r : Robot.t) :
  Robot.path r = [0; 1; 2] → Robot.current_path_index r = 0 →
  Robot.destination_idx r = Some 2 → robot_ready triangle_graph r.
Proof.
  intros Hp Hi Hd. unfold robot_ready. rewrite Hp, Hi, Hd.
  split; [|split].
  - repeat constructor.
  - intros _. cbn. lia.
  - intros _. exists 2. split; [done|]. cbn. lia.
Qed.

Lemma contended_fleet_ready : fleet_ready contended_fleet.
Proof.
  split.
  - cbn. apply NoDup_cons. split; [|apply NoDup_singleton].
    apply not_elem_of_cons. split; [discriminate|apply not_elem_of_nil].
  - repeat constructor; apply under_way_ready; reflexivity.
Qed.

Lemma queued_fleet_ready : fleet_ready queued_fleet.
Proof.
  split.
  - cbn. apply NoDup_cons. split; [|apply NoDup_singleton].
    apply not_elem_of_cons. split; [discriminate|apply not_elem_of_nil].
  - repeat constructor; apply under_way_ready; reflexivity.
Qed.

(** Of the two robots given the same path at the same time, the first is
    left waiting by the first pass. *)
Lemma lane_mutual_exclusion_witness :
  ∃ fm' r',
    FleetManager.update_robots exact_sqrt 0%Qc 1%Qc contended_fleet
      = (Ret tt, fm') ∧
    FleetManager.get_robot_by_id fm' "R1" = Some r' ∧
    Robot.state r' = Robot.WAITING ∧ stayed line_robot r'.
Proof.
  destruct (lane_mutual_exclusion exact_sqrt 0%Qc 1%Qc contended_fleet "R2"
              second_robot (0, 1) contended_fleet_ready eq_refl eq_refl)
    as (fm' & h & H & Hrun & Hh & _ & _ & Hothers).
  injection Hh as <-.
  destruct (Hothers "R1" line_robot eq_refl) as (r' & Hget & Hw & Hstay).
  - repeat split. by left.
  - discriminate.
  - exists fm', r'. repeat split; try assumption; apply Hstay.
Defined.

(** C1 (the code departs from the claim): two robots are created at [v0]
    and sent to [v2] along the lanes [(0, 1)], of length [3], and
    [(1, 2)], of length [4]; the fleet is updated once a second. After
    five passes [R2] is moving in the middle of the lane [(1, 2)], which
    the table gives to it, and [R1] is moving on [(0, 1)]. In the sixth
    pass [R1] reaches [v1]: its path index is moved on to the lane
    [(1, 2)] without the test of [is_lane_blocked], and [update_robots]
    writes [R1] over the entry of [R2]. [R2], updated next, finds its own
    lane held by [R1] and is made to wait where it is, in the middle of
    the lane. [R1] then advances along the lane that [R2] is on: after
    the eighth pass it is at the very place where [R2] stands, and after
    the tenth it has reached [v2], with [R2] still waiting in mid-lane. *)
Theorem lane_taken_from_holder :
  (* after five passes *)
  crossing_holder 5 (1, 2) = Some "R2" ∧
  (Robot.get_current_lane <$> crossing 5 "R2") = Some (Some (1, 2)) ∧
  (progress_of <$> crossing 5 "R2") = Some (1 # 2)%Q ∧
  (Robot.get_current_lane <$> crossing 5 "R1") = Some (Some (0, 1)) ∧
  (* the sixth pass *)
  crossing_holder 6 (1, 2) = Some "R1" ∧
  (Robot.get_current_lane <$> crossing 6 "R1") = Some (Some (1, 2)) ∧
  (Robot.state <$> crossing 6 "R2") = Some Robot.WAITING ∧
  (Robot.current_path_index <$> crossing 6 "R2") = Some 1 ∧
  (progress_of <$> crossing 6 "R2") = Some (1 # 2)%Q ∧
  (* the robot that took the lane advances along it *)
  (Robot.get_current_lane <$> crossing 8 "R1") = Some (Some (1, 2)) ∧
  (progress_of <$> crossing 8 "R1") = Some (1 # 2)%Q ∧
  (position_of <$> crossing 8 "R1") = Some (3 # 1, 2 # 1)%Q ∧
  (position_of <$> crossing 8 "R2") = Some (3 # 1, 2 # 1)%Q ∧
  (Robot.state <$> crossing 8 "R2") = Some Robot.WAITING ∧
  (* and passes the robot that held it *)
  (Robot.state <$> crossing 10 "R1") = Some Robot.TASK_COMPLETE ∧
  (Robot.position_idx <$> crossing 10 "R1") = Some 2 ∧
  (Robot.state <$> crossing 10 "R2") = Some Robot.WAITING ∧
  (position_of <$> crossing 10 "R2") = Some (3 # 1, 2 # 1)%Q.
Proof. repeat split; vm_compute; reflexivity. Qed.

(** C9, witness: the first robot covers the lane [(0, 1)], of length [3],
    in a tick of three seconds; the lane is still reported blocked to the
    second robot, which stays waiting. *)
Lemma single_snapshot_occupancy_witness :
  ∃ pB B',
    FleetManager.update_each exact_sqrt triangle_graph 0%Qc (Qc_of_Z 3)
      [("R1", line_robot)]
      (FleetManager.mkPass []
         (FleetManager.mark_occupied (FleetManager.robots queued_fleet) ∅) [])
      = (Ret tt, pB) ∧
    FleetManager.lane_blocked_in (FleetManager.table pB) 0 1 "R2" = true ∧
    Robot.state B' = Robot.WAITING ∧
    stayed (Robot.set_waiting 1%Qc second_robot) B'.
Proof.
  destruct (single_snapshot_occupancy exact_sqrt 0%Qc (Qc_of_Z 3) queued_fleet
              [] [] [] "R1" "R2" line_robot
              (Robot.set_waiting 1%Qc second_robot) (0, 1)
              queued_fleet_ready eq_refl eq_refl)
    as (_ & (pA & cA & A' & pB & cB & B' & HpA & HupA & HpB & _ & Hkept) & _).
  injection HpA as <-.
  apply (f_equal (fun x => Robot.current_path_index x.2)) in HupA.
  vm_compute in HupA.
  destruct (Hkept (eq_sym HupA)) as [Hblocked Hwaits].
  destruct Hwaits as [Hw Hstay].
  - repeat split. by right.
  - exists pB, B'. repeat split; try assumption; apply Hstay.
Defined.

(** ** NavGraph: the order on distances *)

Lemma dist_le_refl (a : dist) : dist_le a a.
Proof.
  destruct a as [q|]; unfold dist_le; cbn; [|done].
  apply bool_decide_eq_false. apply Qcle_not_lt, Qcle_refl.
Qed.

Lemma dist_le_fin (a b : Qc) : dist_le (Fin a) (Fin b) ↔ (a ≤ b)%Qc.
Proof.
  unfold dist_le. cbn. rewrite bool_decide_eq_false. split.
  - apply Qcnot_lt_le.
  - apply Qcle_not_lt.
Qed.

Lemma dist_le_trans (a b c : dist) : dist_le a b → dist_le b c → dist_le a c.
Proof.
  destruct a as [x|], b as [y|], c as [z|]; try done.
  rewrite !dist_le_fin. apply Qcle_trans.
Qed.

Lemma dist_ltb_le (a b : dist) : dist_ltb a b = true → dist_le a b.
Proof.
  destruct a as [x|], b as [y|]; try done.
  cbn. rewrite bool_decide_eq_true, dist_le_fin. apply Qclt_le_weak.
Qed.

Lemma dist_ltb_fin (a b : Qc) : dist_ltb (Fin a) (Fin b) = true ↔ (a < b)%Qc.
Proof. cbn. apply bool_decide_eq_true. Qed.

(** ** NavGraph: the tables built over [range(n)] *)

Lemma constant_table_lookup {A : Type} (n : nat) (x : A) (i : nat) :
  NavGraph.constant_table n x !! i = if decide (i < n) then Some x else None.
Proof.
  unfold NavGraph.constant_table.
  destruct (decide (i < n)) as [Hi|Hi].
  - apply elem_of_list_to_map_1.
    + rewrite <- list_fmap_compose. cbn.
      replace (fst ∘ (fun j : nat => (j, x))) with (@Datatypes.id nat) by done.
      rewrite list_fmap_id. apply NoDup_seq.
    + apply list_elem_of_fmap. exists i. split; [done|].
      apply elem_of_seq. lia.
  - apply not_elem_of_list_to_map_1.
    rewrite <- list_fmap_compose. intros Hin.
    apply list_elem_of_fmap in Hin as (j & Hj & Hin). cbn in Hj. subst j.
    apply elem_of_seq in Hin. lia.
Qed.

Lemma dist_ltb_trans (a b c : dist) :
  dist_ltb a b = true → dist_ltb b c = true → dist_ltb a c = true.
Proof.
  destruct a as [x|], b as [y|], c as [z|]; try done.
  rewrite !dist_ltb_fin. apply Qclt_trans.
Qed.

(** ** NavGraph: the selection of the closest unvisited vertex *)

Lemma min_by_distance_spec (distances : gmap nat dist) (rest : list nat)
    (best : nat) (best_d : dist) :
  distances !! best = Some best_d →
  (∀ v, v ∈ rest → is_Some (distances !! v)) →
  ∃ current dc,
    NavGraph.min_by_distance distances best best_d rest = Ret current ∧
    current ∈ best :: rest ∧ distances !! current = Some dc ∧
    dist_le dc best_d ∧
    ∀ y dy, y ∈ rest → distances !! y = Some dy → dist_le dc dy.
Proof.
  revert best best_d.
  induction rest as [|v rest IH]; intros best best_d Hbest Hall.
  { exists best, best_d. cbn. split; [done|]. split; [apply list_elem_of_here|].
    split; [done|]. split; [apply dist_le_refl|].
    intros y dy Hy. by apply elem_of_nil in Hy. }
  destruct (Hall v) as [dv Hdv]; [apply list_elem_of_here|].
  cbn. rewrite Hdv.
  destruct (dist_ltb dv best_d) eqn:Hlt.
  - destruct (IH v dv Hdv) as (cur & dc & Hmin & Hin & Hcur & Hle & Hrest).
    { intros y Hy. apply Hall. by apply list_elem_of_further. }
    exists cur, dc. split; [done|]. split.
    { apply list_elem_of_further. exact Hin. }
    split; [done|]. split.
    { eapply dist_le_trans; [exact Hle|]. by apply dist_ltb_le. }
    intros y dy Hy Hdy. apply elem_of_cons in Hy as [->|Hy].
    + rewrite Hdv in Hdy. by injection Hdy as <-.
    + by apply (Hrest y).
  - destruct (IH best best_d Hbest) as (cur & dc & Hmin & Hin & Hcur & Hle & Hrest).
    { intros y Hy. apply Hall. by apply list_elem_of_further. }
    exists cur, dc. split; [done|]. split.
    { apply elem_of_cons in Hin as [->|Hin].
      - apply list_elem_of_here.
      - by do 2 apply list_elem_of_further. }
    split; [done|]. split; [done|].
    intros y dy Hy Hdy. apply elem_of_cons in Hy as [->|Hy].
    + rewrite Hdv in Hdy. injection Hdy as <-.
      eapply dist_le_trans; [exact Hle|]. exact Hlt.
    + by apply (Hrest y).
Qed.

(** ** NavGraph: the relaxation of the lanes out of a vertex *)

Lemma relax_spec (current : nat) (qc : Qc) (out : list (nat * Qc))
    (d : gmap nat dist) (prev : gmap nat (option nat)) :
  d !! current = Some (Fin qc) →
  (∀ v w, (v, w) ∈ out → is_Some (d !! v) ∧ (0 ≤ w)%Qc) →
  ∃ d' prev',
    NavGraph.relax current out d prev = Ret (d', prev') ∧
    d' !! current = Some (Fin qc) ∧
    (∀ v, relaxed current qc out d d' prev prev' v) ∧
    (∀ v w, (v, w) ∈ out →
       ∃ dv', d' !! v = Some dv' ∧ dist_le dv' (Fin (qc + w)%Qc)).
Proof.
  revert d prev.
  induction out as [|[nb len] out IH]; intros d prev Hcur Hall.
  { exists d, prev. cbn. split; [done|]. split; [done|]. split.
    - intros v. by left.
    - intros v w Hin. by apply elem_of_nil in Hin. }
  destruct (Hall nb len) as [[dn Hdn] Hlen]; [apply list_elem_of_here|].
  cbn [NavGraph.relax]. rewrite Hcur, Hdn. cbn [dist_add].
  destruct (dist_ltb (Fin (qc + len)%Qc) dn) eqn:Hlt.
  - (* the distance of [nb] improves *)
    assert (Hne : nb ≠ current).
    { intros ->. rewrite Hcur in Hdn. injection Hdn as <-.
      apply dist_ltb_fin in Hlt. clear Hall IH Hcur. qc_to_q. lra. }
    destruct (IH (<[nb := Fin (qc + len)%Qc]> d) (<[nb := Some current]> prev))
      as (d' & prev' & Hrun & Hcur' & Hrel & Hout).
    { by rewrite lookup_insert_ne. }
    { intros v w Hin. destruct (Hall v w) as [Hv Hw];
        [by apply list_elem_of_further|]. split; [|done].
      destruct (decide (nb = v)) as [->|Hnv].
      - rewrite lookup_insert_eq. eauto.
      - by rewrite lookup_insert_ne. }
    exists d', prev'. split; [done|]. split; [done|]. split.
    + intros v. destruct (decide (nb = v)) as [<-|Hnv].
      * right. destruct (Hrel nb) as [[Hd Hp]|(w & dv & Hin & Hd & Hp & Hdv & Hlt')].
        -- exists len, dn. rewrite Hd, Hp, !lookup_insert_eq.
           split; [apply list_elem_of_here|done].
        -- exists w, dn. rewrite lookup_insert_eq in Hdv. injection Hdv as <-.
           split; [by apply list_elem_of_further|]. split; [done|].
           split; [done|]. split; [done|].
           by eapply dist_ltb_trans.
      * destruct (Hrel v) as [[Hd Hp]|(w & dv & Hin & Hd & Hp & Hdv & Hlt')].
        -- left. by rewrite Hd, Hp, !lookup_insert_ne.
        -- right. exists w, dv. rewrite lookup_insert_ne in Hdv by done.
           split; [by apply list_elem_of_further|done].
    + intros v w Hin. apply elem_of_cons in Hin as [[= -> ->]|Hin];
        [|by apply Hout].
      destruct (Hrel nb) as [[Hd _]|(w' & dv & _ & Hd & _ & Hdv & Hlt')].
      * rewrite lookup_insert_eq in Hd. eexists. split; [done|].
        apply dist_le_refl.
      * rewrite lookup_insert_eq in Hdv. injection Hdv as <-.
        eexists. split; [done|]. by apply dist_ltb_le.
  - (* the distance of [nb] stays *)
    destruct (IH d prev) as (d' & prev' & Hrun & Hcur' & Hrel & Hout).
    { done. }
    { intros v w Hin. apply Hall. by apply list_elem_of_further. }
    exists d', prev'. split; [done|]. split; [done|]. split.
    + intros v. destruct (Hrel v) as [?|(w & dv & Hin & ?)]; [by left|].
      right. exists w, dv. split; [by apply list_elem_of_further|done].
    + intros v w Hin. apply elem_of_cons in Hin as [[= -> ->]|Hin];
        [|by apply Hout].
      destruct (Hrel nb) as [[Hd _]|(w' & dv & _ & Hd & _ & Hdv & Hlt')].
      * rewrite Hdn in Hd. eexists. split; [done|]. exact Hlt.
      * rewrite Hdn in Hdv. injection Hdv as <-.
        eexists. split; [done|].
        eapply dist_le_trans; [by apply dist_ltb_le|]. exact Hlt.
Qed.

(** ** NavGraph: Dijkstra's loop keeps its invariant *)

Section Search.

Variable self : NavGraph.t.
Variables start_idx end_idx : nat.

#[local] Abbreviation n := (length (NavGraph.vertices self)).
#[local] Abbreviation edge := (edge self).
#[local] Abbreviation walk := (walk self start_idx).
#[local] Abbreviation chain := (chain self start_idx).
#[local] Abbreviation is_visited := (visited self).
#[local] Abbreviation search_inv := (search_inv self start_idx end_idx).
#[local] Abbreviation search_done := (search_done end_idx).

Hypothesis adjacency_dom :
  ∀ u, u < n → is_Some (NavGraph.adjacency_list self !! u).
Hypothesis adjacency_valid :
  ∀ u v w, edge u v w → v < n ∧ (0 ≤ w)%Qc.
Hypothesis start_valid : start_idx < n.
Hypothesis end_valid : end_idx < n.
Hypothesis start_not_end : start_idx ≠ end_idx.

Lemma chain_walk (prev : gmap nat (option nat)) (v : nat) (p : list nat)
    (q : Qc) :
  chain prev v p q → walk v p q.
Proof. induction 1; econstructor; eauto. Qed.

Lemma walk_nonneg (v : nat) (p : list nat) (q : Qc) :
  walk v p q → (0 ≤ q)%Qc.
Proof.
  induction 1 as [|u v w p q _ IH Hedge]; [apply Qcle_refl|].
  apply adjacency_valid in Hedge as [_ Hw]. clear -IH Hw. qc_to_q. lra.
Qed.

(** A chain depends on [previous] at its own vertices only. *)
Lemma chain_ext (prev prev' : gmap nat (option nat)) (v : nat)
    (p : list nat) (q : Qc) :
  (∀ x, x ∈ p → prev' !! x = prev !! x) →
  chain prev v p q → chain prev' v p q.
Proof.
  intros Hagree Hchain. induction Hchain as [Hroot|u v w p q _ IH Hedge Hprev].
  - apply chain_start. rewrite Hagree; [done|]. apply list_elem_of_here.
  - apply chain_step with u.
    + apply IH. intros x Hx. apply Hagree, elem_of_app. by left.
    + done.
    + rewrite Hagree; [done|]. apply elem_of_app. right.
      apply list_elem_of_here.
Qed.

(** The tables [find_shortest_path] starts from. *)
Lemma initial_inv :
  search_inv
    (NavGraph.mkSearch
       (<[start_idx := Fin 0%Qc]> (NavGraph.constant_table n Inf))
       (NavGraph.constant_table n (@None nat)) (seq 0 n)).
Proof.
  split; cbn.
  - intros v Hv. split.
    + destruct (decide (start_idx = v)) as [->|Hne].
      * rewrite lookup_insert_eq. eauto.
      * rewrite lookup_insert_ne, constant_table_lookup by done.
        destruct (decide _); [eauto|lia].
    + rewrite constant_table_lookup. destruct (decide _); [eauto|lia].
  - split; [apply lookup_insert_eq|].
    rewrite constant_table_lookup. destruct (decide _); [done|lia].
  - split; [apply NoDup_seq|]. split.
    + intros v Hv. apply elem_of_seq in Hv. lia.
    + apply elem_of_seq. lia.
  - intros v q Hv. destruct (decide (start_idx = v)) as [<-|Hne].
    + rewrite lookup_insert_eq in Hv. injection Hv as <-.
      exists [start_idx]. split.
      { apply chain_start. rewrite constant_table_lookup.
        destruct (decide _); [done|lia]. }
      split. { intros x Hx Hne. apply list_elem_of_singleton in Hx. done. }
      split; [apply NoDup_singleton|].
      intros x Hx. apply list_elem_of_singleton in Hx. by subst.
    + rewrite lookup_insert_ne, constant_table_lookup in Hv by done.
      destruct (decide _); done.
  - intros v Hv. destruct (decide (start_idx = v)) as [<-|Hne].
    + by rewrite lookup_insert_eq in Hv.
    + rewrite lookup_insert_ne, constant_table_lookup in Hv by done.
      rewrite constant_table_lookup. destruct (decide _); done.
  - intros u v w qu [Hu Hnot]. destruct Hnot. apply elem_of_seq. lia.
  - intros u v du dv [Hu Hnot]. destruct Hnot. apply elem_of_seq. lia.
Qed.

(** One iteration of the loop: the closest unvisited vertex [current],
    at a finite distance and not the target, leaves [unvisited] and its
    lanes are relaxed. *)
Lemma step_inv (s : NavGraph.search) (current : nat) (qc : Qc)
    (out : list (nat * Qc)) (d' : gmap nat dist)
    (prev' : gmap nat (option nat)) :
  search_inv s →
  current ∈ NavGraph.unvisited s → current ≠ end_idx →
  NavGraph.distances s !! current = Some (Fin qc) →
  (∀ y dy, y ∈ NavGraph.unvisited s →
     NavGraph.distances s !! y = Some dy → dist_le (Fin qc) dy) →
  NavGraph.adjacency_list self !! current = Some out →
  d' !! current = Some (Fin qc) →
  (∀ v, relaxed current qc out (NavGraph.distances s) d'
          (NavGraph.previous s) prev' v) →
  (∀ v w, (v, w) ∈ out →
     ∃ dv', d' !! v = Some dv' ∧ dist_le dv' (Fin (qc + w)%Qc)) →
  search_inv
    (NavGraph.mkSearch d' prev'
       (filter (fun v => v ≠ current) (NavGraph.unvisited s))).
Proof.
  intros Hinv Hcur Hcur_end Hdc Hmin Hout Hdc' Hrel Hrelaxed.
  destruct Hinv as [Hdom Hstart Hunv Hchain Hinf Hclosed Hmono].
  destruct Hunv as (Hnd & Hvalid & Hend).
  pose proof (Hvalid _ Hcur) as Hcur_n.
  destruct (Hchain _ _ Hdc) as (pc & Hpc & Hpc_vis & Hpc_nd & Hpc_n).
  pose proof (walk_nonneg _ _ _ (chain_walk _ _ _ _ Hpc)) as Hqc.
  set (s' := NavGraph.mkSearch d' prev'
               (filter (fun v => v ≠ current) (NavGraph.unvisited s))).
  (* a lane out of [current] has a target in the graph and a length >= 0 *)
  assert (Hedge : ∀ v w, (v, w) ∈ out → v < n ∧ (0 ≤ w)%Qc).
  { intros v w Hin. apply (adjacency_valid current). by exists out. }
  (* the vertices taken out so far, and [current], keep their entries *)
  assert (Hkeep : ∀ x, is_visited s x ∨ x = current →
            d' !! x = NavGraph.distances s !! x ∧
            prev' !! x = NavGraph.previous s !! x).
  { intros x Hx.
    destruct (Hrel x) as [?|(w & dv & Hin & _ & _ & Hdx & Hlt)]; [done|].
    exfalso. destruct (Hedge _ _ Hin) as [_ Hw].
    assert (Hle : dist_le dv (Fin qc)).
    { destruct Hx as [Hx| ->].
      - by apply (Hmono x current).
      - rewrite Hdc in Hdx. injection Hdx as <-. apply dist_le_refl. }
    destruct dv as [qx|]; [|done].
    apply dist_le_fin in Hle. apply dist_ltb_fin in Hlt.
    clear -Hle Hlt Hw. qc_to_q. lra. }
  assert (Hvis' : ∀ x, is_visited s' x ↔ is_visited s x ∨ x = current).
  { intros x. unfold visited. cbn.
    rewrite list_elem_of_filter. split.
    - intros [Hx Hnot]. destruct (decide (x = current)); [by right|].
      left. split; [done|]. intros Hin. apply Hnot. done.
    - intros [[Hx Hnot]| ->].
      + split; [done|]. intros [_ Hin]. done.
      + split; [done|]. intros [Hne _]. done. }
  split.
  - (* inv_dom *)
    intros v Hv. destruct (Hdom v Hv) as [[dv Hdv] [pv Hpv]]. cbn.
    destruct (Hrel v) as [[-> ->]|(w & ? & _ & -> & -> & _)]; eauto.
  - (* inv_start *)
    cbn. destruct Hstart as [Hd0 Hp0].
    destruct (Hrel start_idx) as [[-> ->]|(w & dv & Hin & _ & _ & Hdv & Hlt)];
      [done|].
    exfalso. rewrite Hd0 in Hdv. injection Hdv as <-.
    destruct (Hedge _ _ Hin) as [_ Hw]. apply dist_ltb_fin in Hlt.
    clear -Hqc Hlt Hw. qc_to_q. lra.
  - (* inv_unvisited *)
    cbn. split; [by apply NoDup_filter|]. split.
    + intros v Hv. apply list_elem_of_filter in Hv as [_ Hv]. by apply Hvalid.
    + apply list_elem_of_filter. split; [|done]. by intros ->.
  - (* inv_chain *)
    cbn. intros v q Hv.
    destruct (Hrel v) as [[Hd Hp]|(w & dv & Hin & Hd & Hp & Hdv & Hlt)].
    + rewrite Hd in Hv.
      destruct (Hchain _ _ Hv) as (p & Hp_chain & Hp_vis & Hp_nd & Hp_n).
      exists p. split; [|split; [|done]].
      * eapply chain_ext; [|exact Hp_chain].
        intros x Hx. destruct (decide (x = v)) as [->|Hne]; [done|].
        apply Hkeep. left. by apply Hp_vis.
      * intros x Hx Hne. apply Hvis'. left. by apply Hp_vis.
    + rewrite Hd in Hv. injection Hv as <-.
      destruct (Hedge _ _ Hin) as [Hv_n Hw].
      (* [v] is neither [current] nor a vertex taken out before *)
      assert (Hv_new : ¬ (is_visited s v ∨ v = current)).
      { intros Hx. destruct (Hkeep v Hx) as [Hsame _].
        rewrite Hd, Hdv in Hsame. injection Hsame as <-.
        apply dist_ltb_fin in Hlt. by apply Qclt_not_le in Hlt;
          apply Hlt, Qcle_refl. }
      assert (Hv_pc : v ∉ pc).
      { intros Hx. apply Hv_new.
        destruct (decide (v = current)) as [|Hne]; [by right|].
        left. by apply Hpc_vis. }
      exists (pc ++ [v]). split; [|split; [|split]].
      * apply chain_step with current; [| by exists out | done].
        eapply chain_ext; [|exact Hpc].
        intros x Hx. apply Hkeep.
        destruct (decide (x = current)) as [|Hne]; [by right|].
        left. by apply Hpc_vis.
      * intros x Hx Hne. apply elem_of_app in Hx as [Hx|Hx].
        -- apply Hvis'. destruct (decide (x = current)) as [|Hnc];
             [by right|]. left. by apply Hpc_vis.
        -- apply list_elem_of_singleton in Hx. done.
      * apply NoDup_app. split; [done|]. split; [|apply NoDup_singleton].
        intros x Hx Hxv. apply list_elem_of_singleton in Hxv. by subst.
      * intros x Hx. apply elem_of_app in Hx as [Hx|Hx]; [by apply Hpc_n|].
        apply list_elem_of_singleton in Hx. by subst.
  - (* inv_inf *)
    cbn. intros v Hv.
    destruct (Hrel v) as [[Hd Hp]|(w & dv & _ & Hd & _)].
    + rewrite Hp. apply Hinf. by rewrite <- Hd.
    + by rewrite Hd in Hv.
  - (* inv_closed *)
    cbn. intros u v w qu Hu Huv Hdu.
    apply Hvis' in Hu. destruct (Hkeep u Hu) as [Hsame _].
    rewrite Hsame in Hdu. destruct Hu as [Hu| ->].
    + destruct (Hclosed u v w qu Hu Huv Hdu) as (dv & Hdv & Hle).
      destruct (adjacency_valid _ _ _ Huv) as [Hv_n _].
      destruct (Hdom v Hv_n) as [_ _].
      destruct (Hrel v) as [[Hd _]|(w' & dv0 & _ & Hd & _ & Hdv0 & Hlt)].
      * exists dv. by rewrite Hd.
      * rewrite Hdv in Hdv0. injection Hdv0 as <-.
        eexists. split; [done|].
        eapply dist_le_trans; [by apply dist_ltb_le|done].
    + rewrite Hdc in Hdu. injection Hdu as <-.
      destruct Huv as (out' & Hout' & Hin). rewrite Hout in Hout'.
      injection Hout' as <-. by apply Hrelaxed.
  - (* inv_mono *)
    cbn. intros u v du dv Hu Hv Hdu Hdv.
    apply list_elem_of_filter in Hv as [Hv_cur Hv].
    apply Hvis' in Hu. destruct (Hkeep u Hu) as [Hsame _].
    rewrite Hsame in Hdu.
    assert (Hu_cur : dist_le du (Fin qc)).
    { destruct Hu as [Hu| ->].
      - by apply (Hmono u current).
      - rewrite Hdc in Hdu. injection Hdu as <-. apply dist_le_refl. }
    destruct (Hrel v) as [[Hd _]|(w & dv0 & Hin & Hd & _ & _ & _)].
    + rewrite Hd in Hdv. eapply dist_le_trans; [exact Hu_cur|].
      by apply (Hmin v).
    + rewrite Hd in Hdv. injection Hdv as <-.
      eapply dist_le_trans; [exact Hu_cur|].
      destruct (Hedge _ _ Hin) as [_ Hw]. apply dist_le_fin.
      clear -Hw. qc_to_q. lra.
Qed.

(** Every walk from the start leaves the set of vertices taken out at a
    vertex whose recorded distance is at most the length of the walk, or
    ends inside the set at such a vertex. *)
Lemma walk_exit (s : NavGraph.search) (v : nat) (p : list nat) (len : Qc) :
  search_inv s → walk v p len →
  (∃ y qy, y ∈ NavGraph.unvisited s ∧
           NavGraph.distances s !! y = Some (Fin qy) ∧ (qy ≤ len)%Qc) ∨
  (is_visited s v ∧
   ∃ qv, NavGraph.distances s !! v = Some (Fin qv) ∧ (qv ≤ len)%Qc).
Proof.
  intros Hinv Hwalk.
  induction Hwalk as [|u v w p q Hwalk IH Hedge].
  - destruct (inv_start _ _ _ _ Hinv) as [Hd0 _].
    destruct (decide (start_idx ∈ NavGraph.unvisited s)) as [Hin|Hout].
    + left. exists start_idx, 0%Qc. split; [done|]. split; [done|].
      apply Qcle_refl.
    + right. split; [by split|]. exists 0%Qc. split; [done|].
      apply Qcle_refl.
  - destruct (adjacency_valid _ _ _ Hedge) as [Hv Hw].
    destruct IH as [(y & qy & Hy & Hdy & Hle)|(Hu & qu & Hdu & Hle)].
    + left. exists y, qy. split; [done|]. split; [done|].
      clear -Hle Hw. qc_to_q. lra.
    + destruct (inv_closed _ _ _ _ Hinv u v w qu Hu Hedge Hdu)
        as (dv & Hdv & Hdle).
      destruct dv as [qv|]; [|done]. apply dist_le_fin in Hdle.
      assert (Hqv : (qv ≤ q + w)%Qc) by (clear -Hle Hdle; qc_to_q; lra).
      destruct (decide (v ∈ NavGraph.unvisited s)) as [Hin|Hout].
      * left. by exists v, qv.
      * right. split; [by split|]. by exists qv.
Qed.

Lemma search_loop_unfold (fuel : nat) (s : NavGraph.search) :
  NavGraph.search_loop self end_idx fuel s =
  match NavGraph.unvisited s with
  | [] => Some (Ret s)
  | first :: rest =>
      match NavGraph.distances s !! first with
      | None => Some (Raise KeyError)
      | Some first_d =>
          match NavGraph.min_by_distance (NavGraph.distances s) first first_d
                  rest with
          | Raise ex => Some (Raise ex)
          | Ret current =>
              match NavGraph.distances s !! current with
              | None => Some (Raise KeyError)
              | Some dc =>
                  if bool_decide (current = end_idx) ||
                     (match dc with Inf => true | Fin _ => false end)
                  then Some (Ret s)
                  else
                    match fuel with
                    | 0 => None
                    | S fuel' =>
                        match NavGraph.adjacency_list self !! current with
                        | None => Some (Raise KeyError)
                        | Some out =>
                            match NavGraph.relax current out
                                    (NavGraph.distances s)
                                    (NavGraph.previous s) with
                            | Raise ex => Some (Raise ex)
                            | Ret (d', p') =>
                                NavGraph.search_loop self end_idx fuel'
                                  (NavGraph.mkSearch d' p'
                                     (filter (fun v => v ≠ current)
                                        (NavGraph.unvisited s)))
                            end
                        end
                    end
              end
          end
      end
  end.
Proof. destruct fuel; reflexivity. Qed.

(** The loop ends without a raise, within as many iterations as there are
    unvisited vertices, in a state that satisfies the invariant. *)
Lemma search_loop_total (fuel : nat) (s : NavGraph.search) :
  search_inv s → length (NavGraph.unvisited s) ≤ fuel →
  ∃ s', NavGraph.search_loop self end_idx fuel s = Some (Ret s') ∧
        search_inv s' ∧ search_done s'.
Proof.
  revert s. induction fuel as [|fuel IH]; intros s Hinv Hfuel;
    rewrite search_loop_unfold;
    pose proof (inv_unvisited _ _ _ _ Hinv) as (Hnd & Hvalid & Hend);
    pose proof (inv_dom _ _ _ _ Hinv) as Hdom;
    (destruct (NavGraph.unvisited s) as [|first rest] eqn:HU;
       [by apply elem_of_nil in Hend|]);
    (destruct (Hdom first) as [[first_d Hfirst] _];
       [apply Hvalid, list_elem_of_here|]);
    rewrite Hfirst;
    (destruct (min_by_distance_spec (NavGraph.distances s) rest first first_d
                 Hfirst) as (current & dc & -> & Hcur & Hdc & Hle & Hrest);
       [intros v Hv; apply Hdom, Hvalid; by apply list_elem_of_further|]);
    rewrite Hdc;
    (assert (Hmin : ∀ y dy, y ∈ first :: rest →
               NavGraph.distances s !! y = Some dy → dist_le dc dy);
       [intros y dy Hy Hdy; apply elem_of_cons in Hy as [->|Hy];
          [rewrite Hfirst in Hdy; by injection Hdy as <-|by apply (Hrest y)]
       |]);
    (destruct (bool_decide (current = end_idx) ||
               match dc with Inf => true | Fin _ => false end) eqn:Hbreak;
       [exists s; split; [done|]; split; [done|];
        exists current, dc; rewrite HU;
        split; [done|]; split; [done|]; split; [done|];
        apply orb_true_iff in Hbreak as [Hb|Hb];
          [left; by apply bool_decide_eq_true in Hb
          |right; by destruct dc]
       |]).
  - cbn in Hfuel. lia.
  - apply orb_false_iff in Hbreak as [Hne Hfin].
    apply bool_decide_eq_false in Hne.
    destruct dc as [qc|]; [|done].
    destruct (adjacency_dom current) as [out Hout]; [by apply Hvalid|].
    rewrite Hout.
    destruct (relax_spec current qc out (NavGraph.distances s)
                (NavGraph.previous s) Hdc)
      as (d' & prev' & -> & Hdc' & Hrel & Hrelaxed).
    { intros v w Hin.
      destruct (adjacency_valid current v w) as [Hv Hw]; [by exists out|].
      split; [by apply Hdom|done]. }
    rewrite <- HU in Hcur, Hfuel, Hmin |- *.
    apply IH.
    + by apply (step_inv s current qc out).
    + cbn.
      pose proof (length_filter_lt (fun v => v ≠ current)
                    (NavGraph.unvisited s) current Hcur) as Hlt.
      specialize (Hlt ltac:(auto)). lia.
Qed.

(** The walk back along [previous] returns the chain of the target. *)
Lemma walk_back_chain (prev : gmap nat (option nat)) (v : nat)
    (p : list nat) (q : Qc) (fuel : nat) (acc : list nat) :
  chain prev v p q → length p ≤ fuel →
  NavGraph.walk_back prev fuel (Some v) acc = Some (Ret (acc ++ rev p)).
Proof.
  intros Hchain. revert fuel acc.
  induction Hchain as [Hroot|u v w p q _ IH _ Hprev]; intros fuel acc Hfuel.
  - destruct fuel as [|fuel]; [cbn in Hfuel; lia|].
    cbn. rewrite Hroot. by destruct fuel.
  - rewrite length_app in Hfuel. cbn in Hfuel.
    destruct fuel as [|fuel]; [lia|].
    cbn. rewrite Hprev, IH by lia.
    by rewrite rev_app_distr, <- app_assoc.
Qed.

(** A list of distinct vertices of the graph is no longer than the graph
    has vertices. *)
Lemma distinct_vertices_length (p : list nat) :
  NoDup p → (∀ x, x ∈ p → x < n) → length p ≤ n.
Proof.
  intros Hnd Hn.
  transitivity (length (seq 0 n)); [|by rewrite length_seq].
  apply submseteq_length, NoDup_submseteq; [done|].
  intros x Hx. apply elem_of_seq. specialize (Hn x Hx). lia.
Qed.

(** [find_shortest_path] between two different vertices: the empty list
    when no walk reaches the target, and otherwise a walk to the target
    that no walk to the target undercuts. *)
Lemma find_shortest_path_walk :
  ((¬ ∃ p len, walk end_idx p len) →
   NavGraph.find_shortest_path self start_idx end_idx = Some (Ret [])) ∧
  ((∃ p len, walk end_idx p len) →
   ∃ p q,
     NavGraph.find_shortest_path self start_idx end_idx = Some (Ret p) ∧
     walk end_idx p q ∧
     ∀ p' len, walk end_idx p' len → (q ≤ len)%Qc).
Proof.
  unfold NavGraph.find_shortest_path, NavGraph.find_shortest_path_fuel.
  destruct (decide (start_idx = end_idx)) as [|_]; [done|].
  destruct (search_loop_total (S n) _ initial_inv) as (s & -> & Hinv & Hdone).
  { cbn. rewrite length_seq. lia. }
  destruct (inv_dom _ _ _ _ Hinv end_idx end_valid) as [[de Hde] [pe Hpe]].
  destruct (inv_unvisited _ _ _ _ Hinv) as (_ & _ & Hend).
  destruct Hdone as (current & dc & Hcur & Hdc & Hmin & Hstop).
  rewrite Hpe.
  (* the distance of the target bounds every walk to the target *)
  assert (Hbound : ∀ p' len, walk end_idx p' len →
            ∃ q, de = Fin q ∧ (q ≤ len)%Qc).
  { intros p' len Hwalk.
    destruct (walk_exit s _ _ _ Hinv Hwalk)
      as [(y & qy & Hy & Hdy & Hle)|([_ Hnot] & _)]; [|done].
    pose proof (Hmin y (Fin qy) Hy Hdy) as Hcy.
    destruct dc as [qc|]; [|done].
    destruct Hstop as [->|?]; [|done].
    rewrite Hde in Hdc. injection Hdc as ->.
    exists qc. split; [done|]. apply dist_le_fin in Hcy.
    by apply Qcle_trans with qy. }
  destruct de as [q|].
  - destruct (inv_chain _ _ _ _ Hinv _ _ Hde) as (p & Hchain & _ & Hnd & Hn).
    assert (Hprev : ∃ u, pe = Some u).
    { inversion Hchain as [|u v w p0 q0 _ _ Hprev]; subst; [done|].
      rewrite Hpe in Hprev. injection Hprev as ->. eauto. }
    destruct Hprev as [u ->]. cbn [bool_decide andb].
    rewrite (walk_back_chain _ _ _ _ _ _ Hchain)
      by (pose proof (distinct_vertices_length p Hnd Hn); lia).
    cbn. rewrite rev_involutive.
    split.
    + intros Hno. destruct Hno. exists p, q. by apply chain_walk in Hchain.
    + intros _. exists p, q. split; [done|].
      split; [by apply chain_walk in Hchain|].
      intros p' len Hwalk. destruct (Hbound _ _ Hwalk) as (q' & [= ->] & Hle).
      done.
  - rewrite (inv_inf _ _ _ _ Hinv _ Hde) in Hpe. injection Hpe as <-.
    rewrite bool_decide_eq_true_2 by done.
    rewrite bool_decide_eq_false_2 by done. cbn.
    split; [done|].
    intros (p' & len & Hwalk). by destruct (Hbound _ _ Hwalk) as (? & ? & _).
Qed.

End Search.

(** ** NavGraph: the graphs [load_graph] builds *)

Section Loaded.

Variable sqrt : Qc -> Qc.
Hypothesis sqrt_nonneg : ∀ x, (0 ≤ sqrt x)%Qc.

Lemma distance_in_Ret (vs : list NavGraph.Vertex) (s e : nat) (len : Qc) :
  NavGraph.distance_in sqrt vs s e = Ret len →
  s < length vs ∧ e < length vs ∧ (0 ≤ len)%Qc.
Proof.
  unfold NavGraph.distance_in.
  destruct (vs !! s) as [a|] eqn:Hs; [|done].
  destruct (vs !! e) as [b|] eqn:He; [|done].
  intros [= <-]. apply lookup_lt_Some in Hs, He. auto.
Qed.

Lemma load_lanes_spec (vs : list NavGraph.Vertex)
    (lane_data : list (nat * nat)) (ls : list NavGraph.Lane) :
  NavGraph.load_lanes sqrt vs lane_data = Ret ls →
  Forall (fun lane =>
            NavGraph.distance_in sqrt vs (NavGraph.start_idx lane)
              (NavGraph.end_idx lane) = Ret (NavGraph.lane_length lane)) ls.
Proof.
  revert ls. induction lane_data as [|[s e] rest IH]; intros ls; cbn.
  { intros [= <-]. constructor. }
  destruct (NavGraph.distance_in sqrt vs s e) as [len|] eqn:Hlen; [|done].
  destruct (NavGraph.load_lanes sqrt vs rest) as [ls'|]; [|done].
  intros [= <-]. constructor; [done|]. by apply IH.
Qed.

Lemma append_lanes_spec (ls : list NavGraph.Lane)
    (adj adj' : gmap nat (list (nat * Qc))) :
  NavGraph.append_lanes ls adj = Ret adj' →
  ∀ u, adj' !! u = (fun out => out ++ lanes_from ls u) <$> adj !! u.
Proof.
  revert adj. induction ls as [|lane ls IH]; intros adj;
    cbn [NavGraph.append_lanes].
  { intros [= <-] u. unfold lanes_from. cbn.
    destruct (adj !! u); cbn; by rewrite ?app_nil_r. }
  destruct (adj !! NavGraph.start_idx lane) as [out|] eqn:Hout; [|done].
  intros Hrun u. rewrite (IH _ Hrun u).
  unfold lanes_from. rewrite filter_cons.
  destruct (decide (NavGraph.start_idx lane = u)) as [<-|Hne].
  - rewrite lookup_insert_eq, Hout. cbn. by rewrite <- app_assoc.
  - by rewrite lookup_insert_ne.
Qed.

Lemma loaded_adjacency (g : NavGraph.t) (u : nat) :
  loaded sqrt g →
  NavGraph.adjacency_list g !! u =
    if decide (u < length (NavGraph.vertices g))
    then Some (lanes_from (NavGraph.lanes g) u) else None.
Proof.
  intros (vd & ld & Hload). unfold NavGraph.load_graph in Hload.
  destruct (NavGraph.load_lanes _ _ _) as [ls|]; [|done].
  destruct (NavGraph.build_adjacency_list _ _) as [adj|] eqn:Hadj; [|done].
  injection Hload as <-. cbn.
  unfold NavGraph.build_adjacency_list in Hadj.
  rewrite (append_lanes_spec _ _ _ Hadj u).
  change (NavGraph.empty_adjacency ?k)
    with (NavGraph.constant_table k (@nil (nat * Qc))).
  rewrite constant_table_lookup. by destruct (decide _).
Qed.

Lemma loaded_lanes (g : NavGraph.t) :
  loaded sqrt g →
  Forall (fun lane =>
            NavGraph.calculate_distance sqrt g (NavGraph.start_idx lane)
              (NavGraph.end_idx lane) = Ret (NavGraph.lane_length lane))
         (NavGraph.lanes g).
Proof.
  intros (vd & ld & Hload). unfold NavGraph.load_graph in Hload.
  destruct (NavGraph.load_lanes _ _ _) as [ls|] eqn:Hls; [|done].
  destruct (NavGraph.build_adjacency_list _ _) as [adj|]; [|done].
  injection Hload as <-. by apply load_lanes_spec in Hls.
Qed.

(** The entries of the adjacency list are the lanes, with their Euclidean
    lengths. *)
Lemma loaded_edge (g : NavGraph.t) (u v : nat) (w : Qc) :
  loaded sqrt g →
  edge g u v w ↔ lane_between g u v ∧ w = edge_length sqrt g u v.
Proof.
  intros Hg. pose proof (loaded_lanes g Hg) as Hlanes.
  unfold edge. rewrite (loaded_adjacency g u Hg). split.
  - intros (out & Hout & Hin).
    destruct (decide _) as [Hu|]; [|done]. injection Hout as <-.
    apply list_elem_of_fmap in Hin as (lane & [= -> ->] & Hin).
    apply list_elem_of_filter in Hin as [<- Hin].
    split; [by exists lane|].
    unfold edge_length.
    by rewrite (proj1 (Forall_forall _ _) Hlanes lane Hin).
  - intros [(lane & Hin & <- & <-) ->].
    pose proof (proj1 (Forall_forall _ _) Hlanes lane Hin) as Hlen.
    destruct (distance_in_Ret _ _ _ _ Hlen) as (Hs & _ & _).
    destruct (decide _) as [_|]; [|done].
    eexists. split; [done|].
    apply list_elem_of_fmap. exists lane. split.
    + unfold edge_length. by rewrite Hlen.
    + by apply list_elem_of_filter.
Qed.

Lemma loaded_edge_valid (g : NavGraph.t) (u v : nat) (w : Qc) :
  loaded sqrt g → edge g u v w →
  v < length (NavGraph.vertices g) ∧ (0 ≤ w)%Qc.
Proof.
  intros Hg Hedge. apply (loaded_edge g u v w Hg) in Hedge
    as [(lane & Hin & <- & <-) ->].
  pose proof (proj1 (Forall_forall _ _) (loaded_lanes g Hg) lane Hin) as Hlen.
  unfold edge_length. rewrite Hlen.
  by destruct (distance_in_Ret _ _ _ _ Hlen) as (_ & ? & ?).
Qed.

(** *** Routes and walks *)

Lemma lanes_of_snoc (p : list nat) (u v : nat) :
  last p = Some u → lanes_of (p ++ [v]) = lanes_of p ++ [(u, v)].
Proof.
  induction p as [|a [|b p] IH]; [done| |].
  - intros [= ->]. done.
  - intros Hlast. rewrite last_cons_cons in Hlast.
    change (lanes_of ((a :: b :: p) ++ [v]))
      with ((a, b) :: lanes_of ((b :: p) ++ [v])).
    by rewrite (IH Hlast).
Qed.

Lemma route_length_snoc (g : NavGraph.t) (p : list nat) (u v : nat) :
  last p = Some u →
  route_length sqrt g (p ++ [v]) =
    (route_length sqrt g p + edge_length sqrt g u v)%Qc.
Proof.
  induction p as [|a [|b p] IH]; [done| |].
  - intros [= ->]. cbn. ring.
  - intros Hlast. rewrite last_cons_cons in Hlast.
    change (route_length sqrt g ((a :: b :: p) ++ [v]))
      with (edge_length sqrt g a b +
            route_length sqrt g ((b :: p) ++ [v]))%Qc.
    rewrite (IH Hlast). cbn. ring.
Qed.

Lemma walk_route (g : NavGraph.t) (a v : nat) (p : list nat) (q : Qc) :
  loaded sqrt g → walk g a v p q →
  is_route g a v p ∧ q = route_length sqrt g p.
Proof.
  intros Hg. induction 1 as [|u v w p q _ [(Hhead & Hlast & Hlanes) ->] Hedge].
  { repeat split. constructor. }
  apply (loaded_edge g u v w Hg) in Hedge as [Hlane ->].
  split; [split; [|split]|].
  - destruct p; [done|]. done.
  - apply last_snoc.
  - rewrite (lanes_of_snoc p u v Hlast). apply Forall_app. split; [done|].
    by constructor.
  - by rewrite (route_length_snoc g p u v Hlast).
Qed.

Lemma route_walk (g : NavGraph.t) (a v : nat) (p : list nat) :
  loaded sqrt g → is_route g a v p → walk g a v p (route_length sqrt g p).
Proof.
  intros Hg. revert v.
  induction p as [|x p IH] using rev_ind; intros v (Hhead & Hlast & Hlanes).
  { done. }
  rewrite last_snoc in Hlast. injection Hlast as ->.
  destruct (last p) as [u|] eqn:Hu.
  - rewrite (lanes_of_snoc p u v Hu) in Hlanes.
    apply Forall_app in Hlanes as [Hlanes Hlane].
    apply Forall_cons in Hlane as [Hlane _]. cbn in Hlane.
    rewrite (route_length_snoc g p u v Hu).
    apply walk_step with u.
    + apply IH. split; [|done]. destruct p; [done|]. done.
    + apply (loaded_edge g u v _ Hg). done.
  - apply last_None in Hu. subst p. cbn in Hhead. injection Hhead as ->.
    apply walk_start.
Qed.


End Loaded.

(** *** The sample graph *)

Lemma exact_sqrt_nonneg (x : Qc) : (0 ≤ exact_sqrt x)%Qc.
Proof.
  unfold exact_sqrt, Qcle, Q2Qc. cbn [this]. rewrite !Qred_correct.
  unfold Qle. cbn [Qnum Qden]. rewrite Z.mul_1_r. apply Z.sqrt_nonneg.
Qed.

Lemma sample_graph_loaded : loaded exact_sqrt sample_graph.
Proof.
  exists sample_vertex_data, sample_lane_data. unfold sample_graph.
  destruct (NavGraph.load_graph _ _ _) as [g|e] eqn:Hload; [reflexivity|].
  exfalso. vm_compute in Hload. discriminate Hload.
Qed.

Lemma get_lane_between (g : NavGraph.t) (u v : nat) (lane : NavGraph.Lane) :
  NavGraph.get_lane g u v = Some lane → lane_between g u v.
Proof.
  unfold NavGraph.get_lane. intros Hfind.
  apply find_some in Hfind as [Hin Hlane].
  apply bool_decide_eq_true in Hlane as [? ?].
  exists lane. by rewrite list_elem_of_In.
Qed.

Example sample_paths :
  NavGraph.find_shortest_path sample_graph 0 2 = Some (Ret [0; 2]) ∧
  NavGraph.find_shortest_path sample_graph 0 1 = Some (Ret [0; 1]) ∧
  NavGraph.find_shortest_path sample_graph 1 2 = Some (Ret [1; 2]) ∧
  NavGraph.find_shortest_path sample_graph 2 0 = Some (Ret []) ∧
  NavGraph.find_shortest_path sample_graph 0 3 = Some (Ret []) ∧
  NavGraph.find_shortest_path sample_graph 3 3 = Some (Ret [3]).
Proof. repeat split; vm_compute; reflexivity. Qed.


(** ** The end-to-end scenario *)

(** The robot is given the path [[0; 1; 2]]; after three seconds of ticks
    it is at [v1], moving; after seven it is at [(3, 4)] with its task
    complete. *)
Example end_to_end :
  (Robot.path <$> FleetManager.get_robot_by_id scenario_fleet "R1")
    = Some [0; 1; 2] ∧
  (Robot.state <$> FleetManager.get_robot_by_id
     (run_fleet exact_sqrt 0%Qc 1%Qc 3 scenario_fleet) "R1")
    = Some Robot.MOVING ∧
  (Robot.position_idx <$> FleetManager.get_robot_by_id
     (run_fleet exact_sqrt 0%Qc 1%Qc 3 scenario_fleet) "R1") = Some 1 ∧
  (Robot.state <$> FleetManager.get_robot_by_id
     (run_fleet exact_sqrt 0%Qc 1%Qc 7 scenario_fleet) "R1")
    = Some Robot.TASK_COMPLETE ∧
  (Robot.position_idx <$> FleetManager.get_robot_by_id
     (run_fleet exact_sqrt 0%Qc 1%Qc 7 scenario_fleet) "R1") = Some 2.
Proof. repeat split; vm_compute; reflexivity. Qed.

(** * Further properties of the code *)

(** ** Robot *)

(** X1: a successful [Robot.assign_task] (the path starts at the robot's
    vertex) returns normally whatever the state of the robot was, and
    leaves the robot on the first vertex of the stored path with the
    blocked flags reset: task complete when the path is that single
    vertex, moving with progress [0] otherwise. *)
Theorem assign_task_accepted (tid : string) (dest p0 : nat)
    (rest : list nat) (r : Robot.t) :
  Robot.position_idx r = p0 →
  ∃ r',
    Robot.assign_task tid dest (p0 :: rest) r = (Ret tt, r') ∧
    Robot.path r' = p0 :: rest ∧ Robot.current_path_index r' = 0 ∧
    on_path r' ∧
    Robot.destination_idx r' = Some dest ∧ Robot.task_id r' = Some tid ∧
    Robot.path_blocked r' = false ∧ Robot.blocked_time r' = 0%Qc ∧
    Robot.position r' = Robot.position r ∧
    Robot.battery_level r' = Robot.battery_level r ∧
    (rest = [] → Robot.state r' = Robot.TASK_COMPLETE ∧
                 Robot.progress r' = Robot.progress r) ∧
    (rest ≠ [] → Robot.state r' = Robot.MOVING ∧
                 Robot.progress r' = 0%Qc).
Proof.
  intros <-. unfold Robot.assign_task, on_path.
  destruct (decide _) as [Hn|_]; [by destruct Hn|].
  destruct rest as [|p1 rest]; cbn.
  - eexists. split; [reflexivity|]. cbn. repeat split; done.
  - eexists. split; [reflexivity|]. cbn. repeat split; done.
Qed.

Lemma assign_task_accepted_witness :
  ∃ r',
    Robot.assign_task "task-7" 2 [0; 1; 2] moving_robot = (Ret tt, r') ∧
    Robot.state r' = Robot.MOVING ∧ on_path r'.
Proof.
  destruct (assign_task_accepted "task-7" 2 0 [1; 2] moving_robot eq_refl)
    as (r' & Hrun & _ & _ & Hon & _ & _ & _ & _ & _ & _ & _ & Hmoving).
  exists r'. split; [exact Hrun|]. split; [|exact Hon].
  apply Hmoving. discriminate.
Defined.

(** Closes the cases of [Robot.update] that the context rules out. *)
Ltac update_absurd :=
  first
    [ by intuition (congruence || lia)
    | match goal with
      | H : Robot.path ?r = [] ∨ _, H' : Robot.path ?r !! _ = Some _ |- _ =>
          destruct H as [H|H]; [by rewrite H in H'|lia]
      end
    | match goal with
      | H : negb (?f ?a ?b ?c) = false, H' : ?f ?a ?b ?c = false |- _ =>
          by rewrite H' in H
      end
    | match goal with
      | H : ?l !! ?i = None, H' : ?l !! ?i = Some _ |- _ => congruence
      end ].

Section RobotExtras.

Variable now : Qc.
Variable delta_time : Qc.
Variable get_vertex_coords : nat -> result (Qc * Qc).
Variable calculate_distance : nat -> nat -> result Qc.
Variable is_lane_blocked : nat -> nat -> string -> bool.

#[local] Abbreviation update r :=
  (Robot.update now delta_time get_vertex_coords calculate_distance
     is_lane_blocked r).

(** X2: when [Robot.update] returns [False] it has left the robot exactly
    as it was. *)
Theorem update_false_unchanged (r r' : Robot.t) :
  update r = (Ret false, r') → r' = r.
Proof.
  intros H. update_cases; try done; try lia.
Qed.

(** X3: the transitions of [Robot.update]. A robot that is idle, charging
    or has completed its task is returned unchanged with [False]; a robot
    that is moving or waiting ends moving, waiting or with its task
    complete, and its task becomes complete only on reaching the last
    index of its path. *)
Theorem update_transitions (r r' : Robot.t) (res : result bool) :
  update r = (res, r') →
  match Robot.state r with
  | Robot.MOVING | Robot.WAITING =>
      (Robot.state r' = Robot.MOVING ∨ Robot.state r' = Robot.WAITING ∨
       (Robot.state r' = Robot.TASK_COMPLETE ∧ res = Ret true ∧
        Robot.current_path_index r' = Robot.current_path_index r + 1 ∧
        Robot.current_path_index r' + 1 = length (Robot.path r')))
  | _ => res = Ret false ∧ r' = r
  end.
Proof.
  intros H.
  destruct (decide (Robot.state r ≠ Robot.MOVING ∧
                    Robot.state r ≠ Robot.WAITING)) as [[Hm Hw]|Hn].
  { unfold Robot.update in H.
    destruct (decide _) as [_|Hn] in H; [|by destruct Hn].
    injection H as <- <-. by destruct (Robot.state r). }
  destruct (Robot.state r) eqn:Hst;
    try (exfalso; apply Hn; split; discriminate); clear Hn;
    update_cases; try done; try (exfalso; congruence);
    first [ by left | by right; left
          | right; right; repeat split; (done || lia)
          | left; congruence | right; left; congruence ].
Qed.

(** X4: [Robot.update] keeps the robot on its path, and moves its path
    index forward by at most one lane. *)
Theorem update_keeps_on_path (r r' : Robot.t) (res : result bool) :
  update r = (res, r') → on_path r →
  on_path r' ∧
  (Robot.current_path_index r' = Robot.current_path_index r ∨
   Robot.current_path_index r' = Robot.current_path_index r + 1).
Proof.
  unfold on_path. intros H Hon.
  update_cases; try done; split; auto.
Qed.

(** X5: the progress along the lane stays in [[0, 1)]: an update that
    brings it to [1] moves the robot to the next vertex and starts again
    from [0]. *)
Theorem update_progress_range (r r' : Robot.t) (res : result bool) :
  update r = (res, r') →
  (0 ≤ Robot.progress r)%Qc ∧ (Robot.progress r < 1)%Qc →
  (0 ≤ Robot.progress r')%Qc ∧ (Robot.progress r' < 1)%Qc.
Proof.
  intros H [H0 H1].
  update_cases; try done;
    match goal with
    | |- context [pymin 1 (pymax 0 ?x)] =>
        pose proof (clamp_range x) as [? ?]; split; [done|];
        by apply Qcnot_le_lt
    end.
Qed.

(** X6: the battery level never goes below [0], and an update with a
    non-negative distance to move never raises it. *)
Theorem update_battery_range (r r' : Robot.t) (res : result bool) :
  update r = (res, r') →
  (0 ≤ Robot.battery_level r)%Qc →
  (0 ≤ Robot.battery_level r')%Qc ∧
  ((0 ≤ Robot.speed r * delta_time)%Qc →
   (Robot.battery_level r' ≤ Robot.battery_level r)%Qc).
Proof.
  intros H H0.
  update_cases; try done; try (split; [done|intros _; apply Qcle_refl]);
    unfold pymax; case_decide;
    (split; [|intros Hd]); unfold one_hundredth in *; qc_to_q; lra.
Qed.

(** X7: a waiting robot whose lane ahead is free does not wait for a
    later update: the update that finds the lane free makes it move, so
    it never returns [False], and the robot leaves it moving or with its
    task complete, its blocked time reset to [0]. *)
Theorem update_waiting_resumes (r r' : Robot.t) (res : result bool)
    (a b : nat) :
  Robot.state r = Robot.WAITING →
  Robot.path r !! Robot.current_path_index r = Some a →
  Robot.path r !! (Robot.current_path_index r + 1) = Some b →
  is_lane_blocked a b (Robot.id r) = false →
  update r = (res, r') →
  res ≠ Ret false ∧
  (Robot.state r' = Robot.MOVING ∨ Robot.state r' = Robot.TASK_COMPLETE) ∧
  Robot.blocked_time r' = 0%Qc.
Proof.
  intros Hst Ha Hb Hfree H.
  pose proof (lookup_succ_bound _ _ _ Hb) as Hidx.
  update_cases; try done; try lia; try congruence; auto;
    exfalso; update_absurd.
Qed.

(** X8: a lane whose length is not positive is crossed in one update,
    whatever the time step: the robot is put on the end vertex of the
    lane. *)
Theorem update_crosses_empty_lane (r : Robot.t) (a b : nat)
    (ca cb : Qc * Qc) (len : Qc) :
  Robot.state r = Robot.MOVING →
  Robot.path r !! Robot.current_path_index r = Some a →
  Robot.path r !! (Robot.current_path_index r + 1) = Some b →
  is_lane_blocked a b (Robot.id r) = false →
  get_vertex_coords a = Ret ca →
  get_vertex_coords b = Ret cb →
  calculate_distance a b = Ret len →
  (len ≤ 0)%Qc → (0 ≤ Robot.progress r)%Qc →
  ∃ r', update r = (Ret true, r') ∧
    Robot.position r' = cb ∧ Robot.position_idx r' = b ∧
    Robot.current_path_index r' = Robot.current_path_index r + 1 ∧
    Robot.progress r' = 0%Qc.
Proof.
  intros Hst Ha Hb Hfree Hca Hcb Hlen Hle Hp.
  pose proof (lookup_succ_bound _ _ _ Hb) as Hidx.
  assert (Hfull : (1 ≤ pymin 1 (pymax 0 (Robot.progress r + 1)))%Qc).
  { unfold pymin, pymax. repeat case_decide; qc_to_q; lra. }
  destruct (update_moving_free now get_vertex_coords calculate_distance
              is_lane_blocked delta_time r a b ca cb len)
    as (r' & Hrun & _ & _ & _ & Hcase); try done.
  exists r'. split; [done|].
  unfold progress_increment in Hcase.
  destruct (decide (0 < len)%Qc) as [Hpos|_] in Hcase.
  { exfalso. qc_to_q. lra. }
  destruct (decide _) as [_|Hn] in Hcase; [|done].
  by destruct Hcase as (? & ? & ? & ? & _).
Qed.

End RobotExtras.

Lemma update_false_unchanged_witness :
  (Robot.update 0%Qc 1%Qc unit_coords unit_distance never_blocked
     idle_robot).2 = idle_robot.
Proof.
  apply (update_false_unchanged 0%Qc 1%Qc unit_coords unit_distance
           never_blocked idle_robot).
  vm_compute. reflexivity.
Defined.

Lemma update_transitions_witness :
  ∃ r',
    Robot.update 0%Qc 1%Qc unit_coords unit_distance never_blocked
      moving_robot = (Ret true, r') ∧
    (Robot.state r' = Robot.MOVING ∨ Robot.state r' = Robot.WAITING ∨
     (Robot.state r' = Robot.TASK_COMPLETE ∧ Ret true = Ret true ∧
      Robot.current_path_index r' = 1 ∧
      Robot.current_path_index r' + 1 = length (Robot.path r'))).
Proof.
  eexists. split; [vm_compute; reflexivity|].
  apply (update_transitions 0%Qc 1%Qc unit_coords unit_distance
           never_blocked moving_robot).
  vm_compute. reflexivity.
Defined.

Lemma update_keeps_on_path_witness :
  ∃ r',
    Robot.update 0%Qc 1%Qc unit_coords unit_distance never_blocked
      line_robot = (Ret true, r') ∧
    on_path r' ∧
    (Robot.current_path_index r' = 0 ∨ Robot.current_path_index r' = 1).
Proof.
  eexists. split; [vm_compute; reflexivity|].
  eapply (update_keeps_on_path 0%Qc 1%Qc unit_coords unit_distance
           never_blocked line_robot _ (Ret true)).
  - vm_compute. reflexivity.
  - reflexivity.
Defined.

Lemma update_progress_range_witness :
  ∃ r',
    Robot.update 0%Qc one_tenth unit_coords unit_distance never_blocked
      line_robot = (Ret true, r') ∧
    (0 ≤ Robot.progress r')%Qc ∧ (Robot.progress r' < 1)%Qc.
Proof.
  eexists. split; [vm_compute; reflexivity|].
  eapply (update_progress_range 0%Qc one_tenth unit_coords unit_distance
           never_blocked line_robot _ (Ret true)).
  - vm_compute. reflexivity.
  - split; vm_compute; [discriminate|reflexivity].
Defined.

Lemma update_battery_range_witness :
  let r' := (Robot.update 0%Qc one_tenth unit_coords unit_distance
               never_blocked line_robot).2 in
  (0 ≤ Robot.battery_level r')%Qc ∧
  (Robot.battery_level r' ≤ Robot.battery_level line_robot)%Qc.
Proof.
  intros r'.
  destruct (update_battery_range 0%Qc one_tenth unit_coords unit_distance
              never_blocked line_robot r' (Ret true)) as [Hlow Hhigh].
  - vm_compute. reflexivity.
  - vm_compute. discriminate.
  - split; [exact Hlow|]. apply Hhigh. vm_compute. discriminate.
Defined.

Lemma update_waiting_resumes_witness :
  ∃ r',
    Robot.update 2%Qc 1%Qc unit_coords unit_distance never_blocked
      (Robot.set_waiting 1%Qc line_robot) = (Ret true, r') ∧
    Ret true ≠ Ret false ∧
    (Robot.state r' = Robot.MOVING ∨ Robot.state r' = Robot.TASK_COMPLETE) ∧
    Robot.blocked_time r' = 0%Qc.
Proof.
  eexists. split; [vm_compute; reflexivity|].
  eapply (update_waiting_resumes 2%Qc 1%Qc unit_coords unit_distance
           never_blocked (Robot.set_waiting 1%Qc line_robot) _ (Ret true)
           0 1); reflexivity.
Defined.

(** A lane between two vertices at the same place. *)
Lemma update_crosses_empty_lane_witness :
  ∃ r',
    Robot.update 0%Qc 0%Qc unit_coords (fun _ _ => Ret 0%Qc) never_blocked
      line_robot = (Ret true, r') ∧
    Robot.position r' = (1%Qc, 0%Qc) ∧ Robot.position_idx r' = 1 ∧
    Robot.current_path_index r' = 1 ∧ Robot.progress r' = 0%Qc.
Proof.
  apply (update_crosses_empty_lane 0%Qc 0%Qc unit_coords
           (fun _ _ => Ret 0%Qc) never_blocked line_robot 0 1
           (0%Qc, 0%Qc) (1%Qc, 0%Qc) 0%Qc); try reflexivity;
    vm_compute; discriminate.
Defined.

(** ** NavGraph: loading *)


Lemma load_vertices_lookup (k : nat)
    (vertex_data : list (Qc * Qc * option string * bool)) (i : nat)
    (v : NavGraph.Vertex) :
  NavGraph.load_vertices k vertex_data !! i = Some v →
  NavGraph.index v = k + i ∧
  NavGraph.attrs_name v ≠ Some EmptyString ∧
  ∃ nm, vertex_data !! i
          = Some (NavGraph.vx v, NavGraph.vy v, nm,
                  NavGraph.attrs_is_charger v).
Proof.
  revert k i. induction vertex_data as [|[[[x y] nm] ch] vd IH];
    intros k i; cbn; [done|].
  destruct i as [|i]; cbn.
  - intros [= <-]. cbn. split; [lia|]. split; [|by exists nm].
    destruct nm as [[|c s]|]; done.
  - intros Hv. destruct (IH _ _ Hv) as (Hidx & Hnm & Hdata).
    split; [lia|done].
Qed.

(** *** Indexing by an arbitrary int *)

Lemma py_getitem_of_nat {A : Type} (l : list A) (i : nat) :
  py_getitem l (Z.of_nat i) =
    match l !! i with
    | Some x => Ret x
    | None => Raise IndexError
    end.
Proof.
  unfold py_getitem.
  destruct (decide (Z.of_nat i < 0)%Z) as [?|_]; [lia|].
  destruct (decide (Z.of_nat i < 0)%Z) as [?|_]; [lia|].
  by rewrite Nat2Z.id.
Qed.


Lemma py_getitem_in_range {A : Type} (l : list A) (i : Z) :
  (- Z.of_nat (length l) ≤ i < Z.of_nat (length l))%Z →
  ∃ x, py_getitem l i = Ret x ∧ x ∈ l.
Proof.
  intros Hi. unfold py_getitem.
  destruct (decide (i < 0)%Z) as [Hneg|Hpos].
  - destruct (decide _) as [?|_]; [lia|].
    destruct (lookup_lt_is_Some_2 l (Z.to_nat (i + Z.of_nat (length l))))
      as [x Hx]; [lia|].
    rewrite Hx. exists x. split; [done|]. by eapply list_elem_of_lookup_2.
  - destruct (decide _) as [?|_]; [lia|].
    destruct (lookup_lt_is_Some_2 l (Z.to_nat i)) as [x Hx]; [lia|].
    rewrite Hx. exists x. split; [done|]. by eapply list_elem_of_lookup_2.
Qed.

Lemma py_getitem_out_of_range {A : Type} (l : list A) (i : Z) :
  ¬ (- Z.of_nat (length l) ≤ i < Z.of_nat (length l))%Z →
  py_getitem l i = Raise IndexError.
Proof.
  intros Hi. unfold py_getitem.
  destruct (decide (i < 0)%Z) as [Hneg|Hpos].
  - destruct (decide _) as [?|?]; [done|lia].
  - destruct (decide _) as [?|_]; [done|].
    rewrite (proj2 (lookup_ge_None l (Z.to_nat i))); [done|lia].
Qed.

(** Indexing raises [IndexError] and nothing else, and it raises exactly
    outside [-len(l) <= i < len(l)]. *)
Lemma py_getitem_Raise {A : Type} (l : list A) (i : Z) (e : exn) :
  py_getitem l i = Raise e ↔
  e = IndexError ∧ ¬ (- Z.of_nat (length l) ≤ i < Z.of_nat (length l))%Z.
Proof.
  destruct (decide (- Z.of_nat (length l) ≤ i < Z.of_nat (length l))%Z)
    as [Hin|Hout].
  - destruct (py_getitem_in_range l i Hin) as (x & -> & _).
    split; [done|]. by intros [_ ?].
  - rewrite (py_getitem_out_of_range l i Hout). split.
    + by intros [= <-].
    + by intros [-> _].
Qed.

Section Loading.

Variable sqrt : Qc -> Qc.






Lemma append_lanes_total (ls : list NavGraph.Lane)
    (adj : gmap nat (list (nat * Qc))) :
  Forall (fun lane => is_Some (adj !! NavGraph.start_idx lane)) ls →
  ∃ adj', NavGraph.append_lanes ls adj = Ret adj'.
Proof.
  revert adj. induction ls as [|lane ls IH]; intros adj Hall; cbn.
  { eauto. }
  apply Forall_cons in Hall as [[out Hout] Hall]. rewrite Hout.
  apply IH. eapply Forall_impl; [exact Hall|]. cbn. intros l [o Ho].
  destruct (decide (NavGraph.start_idx lane = NavGraph.start_idx l))
    as [<-|Hne].
  - rewrite lookup_insert_eq. eauto.
  - rewrite lookup_insert_ne by done. eauto.
Qed.

Lemma append_lanes_raise (ls : list NavGraph.Lane)
    (adj : gmap nat (list (nat * Qc))) :
  Exists (fun lane => adj !! NavGraph.start_idx lane = None) ls →
  NavGraph.append_lanes ls adj = Raise KeyError.
Proof.
  revert adj. induction ls as [|lane ls IH]; intros adj Hex; cbn.
  { by apply Exists_nil in Hex. }
  destruct (adj !! NavGraph.start_idx lane) as [out|] eqn:Hout; [|done].
  apply Exists_cons in Hex as [Hex|Hex]; [congruence|].
  apply IH. eapply Exists_impl; [exact Hex|]. cbn. intros l Hl.
  rewrite lookup_insert_ne; [done|]. congruence.
Qed.

(** The adjacency list of lanes that all start at a vertex. *)
Lemma build_adjacency_list_total (vs : list NavGraph.Vertex)
    (ls : list NavGraph.Lane) :
  Forall (fun lane => NavGraph.start_idx lane < length vs) ls →
  ∃ adj, NavGraph.build_adjacency_list vs ls = Ret adj ∧
    ∀ u, adj !! u =
           if decide (u < length vs) then Some (lanes_from ls u) else None.
Proof.
  intros Hall. unfold NavGraph.build_adjacency_list.
  change (NavGraph.empty_adjacency ?k)
    with (NavGraph.constant_table k (@nil (nat * Qc))).
  destruct (append_lanes_total ls
              (NavGraph.constant_table (length vs) [])) as [adj Hadj].
  { eapply Forall_impl; [exact Hall|]. cbn. intros lane Hlane.
    rewrite constant_table_lookup. by destruct (decide _). }
  exists adj. split; [done|]. intros u.
  rewrite (append_lanes_spec _ _ _ Hadj u), constant_table_lookup.
  by destruct (decide _).
Qed.

(** X10: [build_adjacency_list] raises [KeyError] exactly when a lane
    starts at an index that is not a vertex; otherwise the list it builds
    has an entry for every vertex and for nothing else, and the entry of
    a vertex holds the ends and lengths of the lanes that start there, in
    the order of the lanes. The ends of the lanes are not looked at. *)
Theorem build_adjacency_list_spec (vs : list NavGraph.Vertex)
    (ls : list NavGraph.Lane) :
  if decide (Forall (fun lane => NavGraph.start_idx lane < length vs) ls)
  then
    ∃ adj, NavGraph.build_adjacency_list vs ls = Ret adj ∧
      ∀ u, adj !! u =
             if decide (u < length vs) then Some (lanes_from ls u) else None
  else NavGraph.build_adjacency_list vs ls = Raise KeyError.
Proof.
  destruct (decide _) as [Hall|Hex].
  - by apply build_adjacency_list_total.
  - unfold NavGraph.build_adjacency_list.
    change (NavGraph.empty_adjacency ?k)
      with (NavGraph.constant_table k (@nil (nat * Qc))).
    apply append_lanes_raise.
    apply not_Forall_Exists in Hex; [|solve_decision].
    eapply Exists_impl; [exact Hex|]. cbn. intros lane Hlane.
    rewrite constant_table_lookup. by destruct (decide _).
Qed.



End Loading.




(** ** NavGraph: queries *)

Lemma loaded_vertices (sqrt : Qc -> Qc) (g : NavGraph.t) :
  loaded sqrt g →
  ∃ vertex_data, NavGraph.vertices g = NavGraph.load_vertices 0 vertex_data.
Proof.
  intros (vd & ld & Hload). unfold NavGraph.load_graph in Hload.
  destruct (NavGraph.load_lanes _ _ _) as [ls|]; [|done].
  destruct (NavGraph.build_adjacency_list _ _) as [adj|]; [|done].
  injection Hload as <-. by exists vd.
Qed.

(** X13: [get_lane] returns the first lane of the list that joins the two
    vertices in the direction asked for, and [None] exactly when no lane
    does. *)
Theorem get_lane_first (g : NavGraph.t) (s e : nat) :
  match NavGraph.get_lane g s e with
  | Some lane =>
      NavGraph.start_idx lane = s ∧ NavGraph.end_idx lane = e ∧
      ∃ before after,
        NavGraph.lanes g = before ++ lane :: after ∧
        Forall (fun l => ¬ (NavGraph.start_idx l = s ∧
                            NavGraph.end_idx l = e)) before
  | None => ¬ lane_between g s e
  end.
Proof.
  unfold NavGraph.get_lane, lane_between.
  induction (NavGraph.lanes g) as [|l ls IH]; cbn.
  { intros (lane & Hin & _). by apply elem_of_nil in Hin. }
  destruct (bool_decide _) eqn:Hl.
  - apply bool_decide_eq_true in Hl as [Hs He].
    split; [done|]. split; [done|]. by exists [], ls.
  - apply bool_decide_eq_false in Hl.
    destruct (find _ ls) as [lane|].
    + destruct IH as (Hs & He & before & after & -> & Hbefore).
      split; [done|]. split; [done|].
      exists (l :: before), after. split; [done|]. by constructor.
    + intros (lane & Hin & Hs & He). apply elem_of_cons in Hin as [->|Hin].
      * by apply Hl.
      * apply IH. by exists lane.
Qed.

Lemma pretty_of_nat (i : nat) : pretty (Z.of_nat i) = pretty i.
Proof. by destruct i. Qed.

(** X14: [get_vertex_name] called with any int, on a graph built by
    [load_graph]. For an index within
    [-len(vertices) <= i < len(vertices)] it returns a name that is not
    empty: the name of the vertex, in which [load_graph] replaced an empty
    one, or ["v"] followed by the index as it was passed (["v-1"] for the
    index [-1]). Outside that range it raises [IndexError]. On
    non-negative indices the method is [NavGraph.get_vertex_name] of the
    embedding. *)
Theorem get_vertex_name_any_int (sqrt : Qc -> Qc) (g : NavGraph.t)
    (i : Z) :
  loaded sqrt g →
  let n := Z.of_nat (length (NavGraph.vertices g)) in
  match NavGraphInt.get_vertex_name g i with
  | Ret nm => (- n ≤ i < n)%Z ∧ nm ≠ EmptyString
  | Raise e => ¬ (- n ≤ i < n)%Z ∧ e = IndexError
  end ∧
  ∀ u : nat,
    NavGraphInt.get_vertex_name g (Z.of_nat u) = NavGraph.get_vertex_name g u.
Proof.
  intros Hg n. destruct (loaded_vertices sqrt g Hg) as [vd Hvs]. split.
  - unfold NavGraphInt.get_vertex_name.
    destruct (py_getitem (NavGraph.vertices g) i) as [v|e] eqn:Hv.
    + assert (Hin : (- n ≤ i < n)%Z).
      { destruct (decide (- n ≤ i < n)%Z) as [?|Hout]; [done|].
        by rewrite (py_getitem_out_of_range _ _ Hout) in Hv. }
      split; [done|].
      destruct (py_getitem_in_range _ i Hin) as (x & Hx & Hel).
      rewrite Hv in Hx. injection Hx as <-.
      apply list_elem_of_lookup_1 in Hel as [k Hk]. rewrite Hvs in Hk.
      apply load_vertices_lookup in Hk as (_ & Hnm & _).
      destruct (NavGraph.attrs_name v) as [nm|]; [congruence|done].
    + by apply py_getitem_Raise in Hv as [-> Hout].
  - intros u. unfold NavGraphInt.get_vertex_name, NavGraph.get_vertex_name.
    rewrite py_getitem_of_nat, pretty_of_nat.
    by destruct (NavGraph.vertices g !! u).
Qed.

Lemma get_vertex_name_any_int_witness :
  match NavGraphInt.get_vertex_name sample_graph (-1) with
  | Ret nm => (- 4 ≤ -1 < 4)%Z ∧ nm ≠ EmptyString
  | Raise e => ¬ (- 4 ≤ -1 < 4)%Z ∧ e = IndexError
  end ∧
  NavGraphInt.get_vertex_name sample_graph (-1) = Ret "v-1" ∧
  NavGraphInt.get_vertex_name sample_graph 4 = Raise IndexError.
Proof.
  split; [|split; reflexivity].
  exact (proj1 (get_vertex_name_any_int exact_sqrt sample_graph (-1)
                  sample_graph_loaded)).
Defined.

(** ** NavGraph: the path search at and beyond its domain *)

Lemma min_by_distance_all_inf (distances : gmap nat dist) (best : nat)
    (rest : list nat) :
  (∀ v, v ∈ rest → distances !! v = Some Inf) →
  NavGraph.min_by_distance distances best Inf rest = Ret best.
Proof.
  induction rest as [|v rest IH]; intros Hall; cbn; [done|].
  rewrite (Hall v) by apply list_elem_of_here. cbn.
  apply IH. intros y Hy. by apply Hall, list_elem_of_further.
Qed.

(** X15: a search from an index that is not a vertex of the graph to a
    vertex of the graph does not raise: it returns the empty list, as for
    a vertex that cannot be reached. *)
Theorem find_shortest_path_unknown_start (g : NavGraph.t)
    (start_idx end_idx : nat) :
  length (NavGraph.vertices g) ≤ start_idx →
  end_idx < length (NavGraph.vertices g) →
  NavGraph.find_shortest_path g start_idx end_idx = Some (Ret []).
Proof.
  intros Hs He.
  unfold NavGraph.find_shortest_path, NavGraph.find_shortest_path_fuel.
  destruct (decide (start_idx = end_idx)) as [|Hne]; [lia|].
  set (n := length (NavGraph.vertices g)) in *.
  assert (Hd : ∀ v, v < n →
            <[start_idx := Fin 0%Qc]> (NavGraph.constant_table n Inf) !! v
              = Some Inf).
  { intros v Hv. rewrite lookup_insert_ne by lia.
    rewrite constant_table_lookup. by destruct (decide _). }
  rewrite search_loop_unfold. cbn [NavGraph.unvisited NavGraph.distances].
  destruct n as [|k] eqn:Hn; [lia|]. cbn [seq].
  rewrite (Hd 0) by lia.
  rewrite min_by_distance_all_inf.
  2:{ intros v Hv. apply elem_of_seq in Hv. apply Hd. lia. }
  rewrite (Hd 0) by lia. rewrite orb_true_r. cbn [NavGraph.previous].
  rewrite constant_table_lookup.
  destruct (decide _) as [_|?]; [|lia].
  rewrite bool_decide_eq_true_2 by done.
  rewrite bool_decide_eq_false_2 by lia. done.
Qed.

Lemma find_shortest_path_unknown_start_witness :
  NavGraph.find_shortest_path sample_graph 7 2 = Some (Ret []).
Proof.
  apply (find_shortest_path_unknown_start sample_graph 7 2);
    vm_compute; lia.
Defined.

Section SearchExtras.

Variable self : NavGraph.t.
Variables start_idx end_idx : nat.

#[local] Abbreviation n := (length (NavGraph.vertices self)).

Hypothesis adjacency_dom :
  ∀ u, u < n → is_Some (NavGraph.adjacency_list self !! u).
Hypothesis adjacency_valid :
  ∀ u v w, edge self u v w → v < n ∧ (0 ≤ w)%Qc.

(** Between two vertices the search returns a list of distinct vertices of
    the graph. *)
Lemma find_shortest_path_chain :
  start_idx < n → end_idx < n →
  ∃ p, NavGraph.find_shortest_path self start_idx end_idx = Some (Ret p) ∧
       NoDup p ∧ (∀ x, x ∈ p → x < n).
Proof.
  intros Hs He.
  unfold NavGraph.find_shortest_path, NavGraph.find_shortest_path_fuel.
  destruct (decide (start_idx = end_idx)) as [<-|Hne].
  { exists [start_idx]. split; [done|]. split; [apply NoDup_singleton|].
    intros x Hx. apply list_elem_of_singleton in Hx. by subst. }
  destruct (search_loop_total self start_idx end_idx adjacency_dom
              adjacency_valid Hs He Hne (S n) _
              (initial_inv self start_idx end_idx Hs He Hne))
    as (s & -> & Hinv & _).
  { cbn. rewrite length_seq. lia. }
  destruct (inv_dom _ _ _ _ Hinv end_idx He) as [[de Hde] [pe Hpe]].
  rewrite Hpe. destruct de as [q|].
  - destruct (inv_chain _ _ _ _ Hinv _ _ Hde) as (p & Hchain & _ & Hnd & Hn).
    assert (Hprev : ∃ u, pe = Some u).
    { inversion Hchain as [|u v w p0 q0 _ _ Hprev]; subst; [done|].
      rewrite Hpe in Hprev. injection Hprev as ->. eauto. }
    destruct Hprev as [u ->]. cbn [bool_decide andb].
    rewrite (walk_back_chain self start_idx end_idx Hs He Hne
               _ _ _ _ _ _ Hchain)
      by (pose proof (distinct_vertices_length self start_idx end_idx
                        Hs He Hne p Hnd Hn); lia).
    cbn. rewrite rev_involutive. by exists p.
  - rewrite (inv_inf _ _ _ _ Hinv _ Hde) in Hpe. injection Hpe as <-.
    rewrite bool_decide_eq_true_2 by done.
    rewrite bool_decide_eq_false_2 by done. cbn.
    exists []. split; [done|]. split; [constructor|].
    intros x Hx. by apply elem_of_nil in Hx.
Qed.

(** The loop of a search for an index that is not a vertex: it ends
    without a raise, and [previous] has no entry for the index. *)
Lemma search_loop_unknown_end (fuel : nat) (s : NavGraph.search) :
  n ≤ end_idx →
  (∀ v, v < n → is_Some (NavGraph.distances s !! v)) →
  NavGraph.previous s !! end_idx = None →
  (∀ v, v ∈ NavGraph.unvisited s → v < n) →
  length (NavGraph.unvisited s) ≤ fuel →
  ∃ s', NavGraph.search_loop self end_idx fuel s = Some (Ret s') ∧
        NavGraph.previous s' !! end_idx = None.
Proof.
  intros He. revert s.
  induction fuel as [|fuel IH]; intros s Hdom Hprev Hvalid Hfuel;
    rewrite search_loop_unfold;
    (destruct (NavGraph.unvisited s) as [|first rest] eqn:HU;
       [by exists s|]);
    (destruct (Hdom first) as [first_d Hfirst];
       [apply Hvalid, list_elem_of_here|]);
    rewrite Hfirst;
    (destruct (min_by_distance_spec (NavGraph.distances s) rest first first_d
                 Hfirst) as (current & dc & -> & Hcur & Hdc & _ & _);
       [intros v Hv; apply Hdom, Hvalid; by apply list_elem_of_further|]);
    rewrite Hdc;
    (destruct (bool_decide (current = end_idx) ||
               match dc with Inf => true | Fin _ => false end) eqn:Hbreak;
       [by exists s|]).
  - cbn in Hfuel. lia.
  - apply orb_false_iff in Hbreak as [_ Hfin].
    destruct dc as [qc|]; [|done].
    destruct (adjacency_dom current) as [out Hout]; [by apply Hvalid|].
    rewrite Hout.
    destruct (relax_spec current qc out (NavGraph.distances s)
                (NavGraph.previous s) Hdc)
      as (d' & prev' & -> & _ & Hrel & _).
    { intros v w Hin.
      destruct (adjacency_valid current v w) as [Hv Hw]; [by exists out|].
      split; [by apply Hdom|done]. }
    apply IH; cbn [NavGraph.distances NavGraph.previous NavGraph.unvisited].
    + intros v Hv. destruct (Hrel v) as [[-> _]|(w & dv & _ & -> & _)];
        [by apply Hdom|eauto].
    + destruct (Hrel end_idx) as [[_ ->]|(w & dv & Hin & _)]; [done|].
      destruct (adjacency_valid current end_idx w) as [Hlt _];
        [by exists out|lia].
    + intros v Hv. apply list_elem_of_filter in Hv as [_ Hv].
      by apply Hvalid.
    + pose proof (length_filter_lt (fun v => v ≠ current)
                    (first :: rest) current Hcur) as Hlt.
      specialize (Hlt ltac:(auto)).
      change (length (first :: rest)) with (S (length rest)) in Hlt.
      cbn in Hfuel. lia.
Qed.

Lemma find_shortest_path_no_entry :
  start_idx < n → n ≤ end_idx →
  NavGraph.find_shortest_path self start_idx end_idx = Some (Raise KeyError).
Proof.
  intros Hs He.
  unfold NavGraph.find_shortest_path, NavGraph.find_shortest_path_fuel.
  destruct (decide (start_idx = end_idx)) as [|Hne]; [lia|].
  destruct (search_loop_unknown_end (S n)
              (NavGraph.mkSearch
                 (<[start_idx := Fin 0%Qc]> (NavGraph.constant_table n Inf))
                 (NavGraph.constant_table n (@None nat)) (seq 0 n)))
    as (s & -> & ->); cbn; try done.
  - intros v Hv. destruct (decide (start_idx = v)) as [->|Hv'].
    + rewrite lookup_insert_eq. eauto.
    + rewrite lookup_insert_ne, constant_table_lookup by done.
      destruct (decide _); [eauto|lia].
  - rewrite constant_table_lookup. destruct (decide _); [lia|done].
  - intros v Hv. apply elem_of_seq in Hv. lia.
  - rewrite length_seq. lia.
Qed.

End SearchExtras.

Section LoadedSearch.

Variable sqrt : Qc -> Qc.
Hypothesis sqrt_nonneg : ∀ x, (0 ≤ sqrt x)%Qc.

Lemma loaded_adjacency_dom (g : NavGraph.t) (u : nat) :
  loaded sqrt g → u < length (NavGraph.vertices g) →
  is_Some (NavGraph.adjacency_list g !! u).
Proof.
  intros Hg Hu. rewrite (loaded_adjacency sqrt g u Hg).
  destruct (decide _); [eauto|done].
Qed.

(** X16: on a graph built by [load_graph], a search between two vertices
    ends within its bound on the iterations and does not raise; the path
    it returns passes through no vertex twice, so it has at most as many
    vertices as the graph. *)
Theorem find_shortest_path_simple (g : NavGraph.t) (start_idx end_idx : nat) :
  loaded sqrt g →
  start_idx < length (NavGraph.vertices g) →
  end_idx < length (NavGraph.vertices g) →
  ∃ p, NavGraph.find_shortest_path g start_idx end_idx = Some (Ret p) ∧
       NoDup p ∧ (∀ x, x ∈ p → x < length (NavGraph.vertices g)) ∧
       length p ≤ length (NavGraph.vertices g).
Proof.
  intros Hg Hs He.
  destruct (find_shortest_path_chain g start_idx end_idx) as (p & Hp & Hnd & Hn);
    try done.
  { intros u. by apply loaded_adjacency_dom. }
  { intros u v w. by apply (loaded_edge_valid sqrt sqrt_nonneg). }
  exists p. split; [done|]. split; [done|]. split; [done|].
  transitivity (length (seq 0 (length (NavGraph.vertices g))));
    [|by rewrite length_seq].
  apply submseteq_length, NoDup_submseteq; [done|].
  intros x Hx. apply elem_of_seq. specialize (Hn x Hx). lia.
Qed.

(** X17: on a graph built by [load_graph], a search from a vertex to an
    index that is not a vertex raises [KeyError]: the loop runs to its
    end, and the table [previous] has no entry for the index. *)
Theorem find_shortest_path_unknown_end (g : NavGraph.t)
    (start_idx end_idx : nat) :
  loaded sqrt g →
  start_idx < length (NavGraph.vertices g) →
  length (NavGraph.vertices g) ≤ end_idx →
  NavGraph.find_shortest_path g start_idx end_idx = Some (Raise KeyError).
Proof.
  intros Hg Hs He. apply find_shortest_path_no_entry; try done.
  - intros u. by apply loaded_adjacency_dom.
  - intros u v w. by apply (loaded_edge_valid sqrt sqrt_nonneg).
Qed.

End LoadedSearch.

Lemma find_shortest_path_simple_witness :
  ∃ p, NavGraph.find_shortest_path sample_graph 0 2 = Some (Ret p) ∧
       NoDup p ∧ length p ≤ length (NavGraph.vertices sample_graph).
Proof.
  destruct (find_shortest_path_simple exact_sqrt exact_sqrt_nonneg
              sample_graph 0 2 sample_graph_loaded)
    as (p & Hp & Hnd & _ & Hlen).
  { vm_compute. lia. }
  { vm_compute. lia. }
  exists p. split; [exact Hp|]. split; [exact Hnd|exact Hlen].
Defined.

Lemma find_shortest_path_unknown_end_witness :
  NavGraph.find_shortest_path sample_graph 0 9 = Some (Raise KeyError).
Proof.
  apply (find_shortest_path_unknown_end exact_sqrt exact_sqrt_nonneg
           sample_graph 0 9 sample_graph_loaded); vm_compute; lia.
Defined.

(** ** FleetManager: the dictionary of robots *)

Lemma robots_set_fresh (rs : list (string * Robot.t)) (k : string)
    (r : Robot.t) :
  k ∉ map fst rs → FleetManager.robots_set rs k r = rs ++ [(k, r)].
Proof.
  induction rs as [|[k0 r0] rs IH]; cbn; intros Hk; [done|].
  apply not_elem_of_cons in Hk as [Hne Hk].
  destruct (decide (k0 = k)); [done|]. by rewrite IH.
Qed.

Lemma robots_set_keys (rs : list (string * Robot.t)) (k : string)
    (r : Robot.t) :
  is_Some (FleetManager.robots_get rs k) →
  map fst (FleetManager.robots_set rs k r) = map fst rs.
Proof.
  induction rs as [|[k0 r0] rs IH]; cbn; [by intros [? ?]|].
  destruct (decide (k0 = k)); [done|]. intros H. cbn. by rewrite IH.
Qed.

Lemma robots_get_set (rs : list (string * Robot.t)) (k k' : string)
    (r : Robot.t) :
  FleetManager.robots_get (FleetManager.robots_set rs k r) k' =
    if decide (k = k') then Some r else FleetManager.robots_get rs k'.
Proof.
  induction rs as [|[k0 r0] rs IH]; cbn; [done|].
  destruct (decide (k0 = k)) as [->|Hne]; cbn.
  - by destruct (decide (k = k')).
  - rewrite IH. destruct (decide (k0 = k')) as [->|?]; [|done].
    by destruct (decide (k = k')).
Qed.

Lemma robot_id_inj (i j : nat) :
  "R" +:+ pretty i = "R" +:+ pretty j → i = j.
Proof.
  intros H. apply (inj (String.append "R")) in H. by apply (inj pretty) in H.
Qed.

(** X18: [create_robot] at a vertex of the graph, in a fleet whose ids
    were all handed out by [create_robot]: the new robot gets the id
    ["R<count + 1>"], which no robot of the fleet has, so it is added at
    the end of the dictionary and no robot is replaced; it is idle at the
    vertex, at the coordinates of the vertex. *)
Theorem create_robot_adds (now : Qc) (vertex_idx : nat)
    (fm : FleetManager.t) :
  vertex_idx < length (NavGraph.vertices (FleetManager.nav_graph fm)) →
  ids_issued fm →
  ∃ fm' robot,
    FleetManager.create_robot now vertex_idx fm
      = (Ret ("R" +:+ pretty (FleetManager.robot_count fm + 1)), fm') ∧
    FleetManager.robots fm'
      = FleetManager.robots fm ++
          [("R" +:+ pretty (FleetManager.robot_count fm + 1), robot)] ∧
    FleetManager.robot_count fm' = FleetManager.robot_count fm + 1 ∧
    FleetManager.nav_graph fm' = FleetManager.nav_graph fm ∧
    ids_issued fm' ∧
    Robot.id robot = "R" +:+ pretty (FleetManager.robot_count fm + 1) ∧
    Robot.state robot = Robot.IDLE ∧
    Robot.position_idx robot = vertex_idx ∧
    NavGraph.get_vertex_coords (FleetManager.nav_graph fm) vertex_idx
      = Ret (Robot.position robot) ∧
    (fleet_ready fm → fleet_ready fm').
Proof.
  intros Hv Hids. unfold FleetManager.create_robot.
  cbn [FleetManager.set_robot_count FleetManager.nav_graph
       FleetManager.robot_count FleetManager.robots].
  destruct (get_vertex_coords_total (FleetManager.nav_graph fm) vertex_idx Hv)
    as [coords Hcoords].
  destruct (get_vertex_name_total (FleetManager.nav_graph fm) vertex_idx Hv)
    as [name Hname].
  rewrite Hcoords.
  destruct (lookup_lt_is_Some_2 FleetManager.ROBOT_COLORS
              ((FleetManager.robot_count fm + 1)
                 mod length FleetManager.ROBOT_COLORS)) as [color ->].
  { apply Nat.mod_upper_bound. cbn. lia. }
  unfold FleetManager.set_robots, FleetManager.set_robot_count.
  cbn [FleetManager.nav_graph FleetManager.robot_count FleetManager.robots].
  rewrite Hname.
  assert (Hfresh : "R" +:+ pretty (FleetManager.robot_count fm + 1)
                     ∉ map fst (FleetManager.robots fm)).
  { intros Hin. destruct (Hids _ Hin) as (i & Hi & Heq).
    apply robot_id_inj in Heq. lia. }
  rewrite (robots_set_fresh _ _ _ Hfresh).
  unfold FleetManager.log_event.
  cbn [FleetManager.nav_graph FleetManager.robot_count FleetManager.robots
       FleetManager.occupied_lanes FleetManager.log].
  eexists _, _. split; [reflexivity|].
  unfold ids_issued, fleet_ready.
  cbn [FleetManager.nav_graph FleetManager.robot_count FleetManager.robots].
  split; [done|]. split; [done|]. split; [done|]. split.
  { intros k Hk. rewrite map_app in Hk. apply elem_of_app in Hk as [Hk|Hk].
    - destruct (Hids k Hk) as (i & Hi & ->). exists i. split; [lia|done].
    - apply list_elem_of_singleton in Hk as ->.
      exists (FleetManager.robot_count fm + 1). split; [lia|done]. }
  split; [done|]. split; [done|]. split; [done|]. split; [done|].
  intros [Hnd Hall]. split; cbn.
  - rewrite map_app. apply NoDup_app. split; [done|]. split.
    + intros k Hk Hk'. apply list_elem_of_singleton in Hk' as ->. done.
    + apply NoDup_singleton.
  - apply Forall_app. split; [done|]. constructor; [|constructor].
    cbn. split; [done|]. split; [constructor|]. split; [done|].
    intros [?|?]; done.
Qed.

Lemma create_robot_adds_witness :
  ∃ fm' robot,
    FleetManager.create_robot 0%Qc 2 (FleetManager.init sample_graph)
      = (Ret "R1", fm') ∧
    FleetManager.robots fm' = [("R1", robot)] ∧
    Robot.state robot = Robot.IDLE ∧ Robot.position_idx robot = 2.
Proof.
  destruct (create_robot_adds 0%Qc 2 (FleetManager.init sample_graph))
    as (fm' & robot & Hrun & Hrobots & _ & _ & _ & _ & Hst & Hpos & _).
  { vm_compute. lia. }
  { intros k Hk. by apply elem_of_nil in Hk. }
  exists fm', robot. split; [exact Hrun|]. split; [exact Hrobots|].
  split; [exact Hst|exact Hpos].
Defined.

(** X19: [create_robot] at an index from [len(vertices)] on raises
    [IndexError] and adds no robot, but the id it would have given is
    used up: the counter of the fleet has advanced. *)
Theorem create_robot_unknown_vertex (now : Qc) (vertex_idx : nat)
    (fm : FleetManager.t) :
  length (NavGraph.vertices (FleetManager.nav_graph fm)) ≤ vertex_idx →
  ∃ fm',
    FleetManager.create_robot now vertex_idx fm = (Raise IndexError, fm') ∧
    FleetManager.robots fm' = FleetManager.robots fm ∧
    FleetManager.log fm' = FleetManager.log fm ∧
    FleetManager.robot_count fm' = FleetManager.robot_count fm + 1.
Proof.
  intros Hv. unfold FleetManager.create_robot, NavGraph.get_vertex_coords.
  cbn [FleetManager.set_robot_count FleetManager.nav_graph].
  rewrite (proj2 (lookup_ge_None _ _) Hv). by eexists.
Qed.

Lemma create_robot_unknown_vertex_witness :
  ∃ fm',
    FleetManager.create_robot 0%Qc 4 (FleetManager.init sample_graph)
      = (Raise IndexError, fm') ∧
    FleetManager.robots fm' = [] ∧
    FleetManager.log fm' = [] ∧
    FleetManager.robot_count fm' = 1.
Proof.
  apply (create_robot_unknown_vertex 0%Qc 4 (FleetManager.init sample_graph)).
  vm_compute. lia.
Defined.

(** X20: whatever its outcome, [FleetManager.assign_task] adds and
    removes no robot, keeps the order of the dictionary, the counter and
    the graph, and leaves every robot other than the one it was called
    for as it was. *)
Theorem assign_task_frame (new_task_id robot_id : string)
    (destination_idx : nat) (fm fm' : FleetManager.t) (res : result bool) :
  FleetManager.assign_task new_task_id robot_id destination_idx fm
    = Some (res, fm') →
  map fst (FleetManager.robots fm') = map fst (FleetManager.robots fm) ∧
  FleetManager.robot_count fm' = FleetManager.robot_count fm ∧
  FleetManager.nav_graph fm' = FleetManager.nav_graph fm ∧
  FleetManager.occupied_lanes fm' = FleetManager.occupied_lanes fm ∧
  ∀ k, k ≠ robot_id →
    FleetManager.get_robot_by_id fm' k = FleetManager.get_robot_by_id fm k.
Proof.
  unfold FleetManager.assign_task, FleetManager.get_robot_by_id.
  destruct (FleetManager.robots_get _ robot_id) as [robot|] eqn:Hget.
  2:{ intros [= <- <-]. done. }
  destruct (decide _) as [_|_]; [intros [= <- <-]; done|].
  destruct (NavGraph.find_shortest_path _ _ _) as [[[|p0 rest]|e]|];
    try (intros [= <- <-]; done).
  destruct (FleetManager.try_assign _ _ _ _ _ _) as [[[sn dn]|e] robot'];
    intros [= <- <-]; cbn;
    (split; [apply robots_set_keys; by rewrite Hget|]);
    repeat (split; [done|]);
    intros k Hk; rewrite robots_get_set; by destruct (decide _).
Qed.

Lemma assign_task_frame_witness :
  map fst (FleetManager.robots scenario_fleet) = ["R1"] ∧
  FleetManager.robot_count scenario_fleet = 1.
Proof.
  destruct (assign_task_frame "task-1" "R1" 2
              (FleetManager.create_robot 0%Qc 0
                 (FleetManager.init scenario_graph)).2
              scenario_fleet (Ret true)) as (Hkeys & Hcount & _).
  { vm_compute. reflexivity. }
  split; [exact Hkeys|exact Hcount].
Defined.

(** ** FleetManager: the table of occupied lanes *)

(** X21: when several robots are moving on the same lane, the table that
    [update_robots] builds at the start of a pass gives the lane to the
    one that comes last in the dictionary. *)
Theorem mark_occupied_last (pre post : list (string * Robot.t)) (k : string)
    (r : Robot.t) (lane : nat * nat) (occupied : gmap (nat * nat) string) :
  Robot.get_current_lane r = Some lane →
  Forall (fun kr => Robot.get_current_lane kr.2 ≠ Some lane) post →
  FleetManager.mark_occupied (pre ++ (k, r) :: post) occupied !! lane
    = Some k.
Proof.
  intros Hr Hpost. revert occupied.
  induction pre as [|[k0 r0] pre IH]; intros occupied; cbn.
  - rewrite Hr.
    assert (Hkeep : ∀ occ, occ !! lane = Some k →
              FleetManager.mark_occupied post occ !! lane = Some k).
    { induction Hpost as [|[k1 r1] post Hne _ IHp]; intros occ Hocc;
        cbn; [done|].
      cbn in Hne. destruct (Robot.get_current_lane r1) as [l1|]; [|by apply IHp].
      apply IHp. rewrite lookup_insert_ne; [done|]. congruence. }
    apply Hkeep, lookup_insert_eq.
  - destruct (Robot.get_current_lane r0); apply IH.
Qed.

Lemma mark_occupied_last_witness :
  FleetManager.mark_occupied (FleetManager.robots contended_fleet) ∅
    !! (0, 1) = Some "R2".
Proof.
  apply (mark_occupied_last [("R1", line_robot)] [] "R2" second_robot
           (0, 1) ∅).
  - reflexivity.
  - constructor.
Defined.

(** ** FleetManager: task assignment on a loaded graph *)

Lemma robots_set_Forall (P : string * Robot.t → Prop)
    (rs : list (string * Robot.t)) (k : string) (r : Robot.t) :
  Forall P rs → P (k, r) → Forall P (FleetManager.robots_set rs k r).
Proof.
  intros Hall Hr. induction Hall as [|[k0 r0] rs H0 Hall IH]; cbn.
  { by constructor. }
  destruct (decide (k0 = k)) as [->|?]; by constructor.
Qed.

Lemma route_cons (g : NavGraph.t) (a b : nat) (p : list nat) :
  is_route g a b p → ∃ rest, p = a :: rest ∧ (a ≠ b → rest ≠ []).
Proof.
  intros (Hhead & Hlast & _). destruct p as [|x rest]; [done|].
  injection Hhead as ->. exists rest. split; [done|].
  intros Hne ->. cbn in Hlast. congruence.
Qed.

Section FleetLoaded.

Variable sqrt : Qc -> Qc.
Hypothesis sqrt_nonneg : ∀ x, (0 ≤ sqrt x)%Qc.

(** The search from the vertex of an idle robot, on a loaded graph. *)
Lemma find_shortest_path_route (g : NavGraph.t) (a b : nat) :
  loaded sqrt g →
  a < length (NavGraph.vertices g) → b < length (NavGraph.vertices g) →
  ((¬ ∃ p, is_route g a b p) →
   NavGraph.find_shortest_path g a b = Some (Ret [])) ∧
  ((∃ p, is_route g a b p) →
   ∃ p, NavGraph.find_shortest_path g a b = Some (Ret p) ∧
        is_route g a b p ∧
        Forall (fun v => v < length (NavGraph.vertices g)) p).
Proof.
  intros Hg Ha Hb.
  destruct (find_shortest_path_chain g a b) as (p & Hp & _ & Hn); try done.
  { intros u. by apply (loaded_adjacency_dom sqrt). }
  { intros u v w. by apply (loaded_edge_valid sqrt sqrt_nonneg). }
  apply Forall_forall in Hn.
  destruct (decide (a = b)) as [<-|Hne].
  { assert (Hself : is_route g a a [a]) by (repeat split; constructor).
    split; [intros Hno; destruct Hno; eauto|]. intros _.
    exists [a]. split; [|split; [done|]].
    - unfold NavGraph.find_shortest_path, NavGraph.find_shortest_path_fuel.
      by destruct (decide (a = a)).
    - by repeat constructor. }
  destruct (find_shortest_path_walk g a b) as [Hnone Hsome]; try done.
  { intros u. by apply (loaded_adjacency_dom sqrt). }
  { intros u v w. by apply (loaded_edge_valid sqrt sqrt_nonneg). }
  split.
  - intros Hno. apply Hnone. intros (p' & len & Hwalk). apply Hno.
    exists p'. by apply (walk_route sqrt sqrt_nonneg g) in Hwalk as [? _].
  - intros (p0 & Hp0). destruct Hsome as (p' & q & Hrun & Hwalk & _).
    { exists p0, (route_length sqrt g p0).
      by apply (route_walk sqrt sqrt_nonneg). }
    exists p'. split; [done|].
    apply (walk_route sqrt sqrt_nonneg g) in Hwalk as [Hroute _]; [|done].
    split; [done|]. rewrite Hrun in Hp. by injection Hp as <-.
Qed.

(** X22: [FleetManager.assign_task] for a robot that is neither moving
    nor waiting, on a graph built by [load_graph], towards a vertex of the
    graph. When a directed path leads from the vertex of the robot to the
    destination, the call returns [True] and the robot holds such a path,
    stands on its first vertex and is moving, or has its task complete
    when it was at the destination already; the call never ends in the
    error branch. When no directed path leads there, the call returns
    [False] and only the log changes. A ready fleet stays ready. *)
Theorem assign_task_assigns (new_task_id robot_id : string)
    (destination_idx : nat) (fm : FleetManager.t) (r : Robot.t) :
  let g := FleetManager.nav_graph fm in
  loaded sqrt g →
  FleetManager.get_robot_by_id fm robot_id = Some r →
  Robot.state r ≠ Robot.MOVING → Robot.state r ≠ Robot.WAITING →
  Robot.position_idx r < length (NavGraph.vertices g) →
  destination_idx < length (NavGraph.vertices g) →
  ((∃ p, is_route g (Robot.position_idx r) destination_idx p) →
   ∃ fm' r',
     FleetManager.assign_task new_task_id robot_id destination_idx fm
       = Some (Ret true, fm') ∧
     FleetManager.get_robot_by_id fm' robot_id = Some r' ∧
     is_route g (Robot.position_idx r) destination_idx (Robot.path r') ∧
     on_path r' ∧ Robot.current_path_index r' = 0 ∧
     Robot.destination_idx r' = Some destination_idx ∧
     Robot.task_id r' = Some new_task_id ∧
     Robot.state r' =
       (if decide (Robot.position_idx r = destination_idx)
        then Robot.TASK_COMPLETE else Robot.MOVING) ∧
     (fleet_ready fm → fleet_ready fm')) ∧
  ((¬ ∃ p, is_route g (Robot.position_idx r) destination_idx p) →
   FleetManager.assign_task new_task_id robot_id destination_idx fm
     = Some (Ret false,
             FleetManager.log_event
               (FleetManager.AssignNoPath (Robot.position_idx r)
                  destination_idx) fm)).
Proof.
  intros g Hg Hget Hm Hw Hpos Hdest.
  unfold FleetManager.get_robot_by_id in Hget.
  destruct (find_shortest_path_route g (Robot.position_idx r) destination_idx
              Hg Hpos Hdest) as [Hnone Hsome].
  unfold FleetManager.assign_task. rewrite Hget.
  destruct (decide _) as [[?|?]|_]; [done|done|].
  fold g. split.
  2:{ intros Hno. by rewrite (Hnone Hno). }
  intros Hroute. destruct (Hsome Hroute) as (p & Hrun & Hp & Hrange).
  rewrite Hrun.
  destruct (route_cons _ _ _ _ Hp) as (rest & -> & Hrest).
  destruct (get_vertex_name_total g _ Hpos) as [sn Hsn].
  destruct (get_vertex_name_total g _ Hdest) as [dn Hdn].
  unfold FleetManager.try_assign, Robot.assign_task.
  cbn [Robot.position_idx Robot.store_task].
  destruct (decide (Robot.position_idx r ≠ Robot.position_idx r)) as [?|_];
    [done|].
  rewrite Hsn, Hdn.
  eexists _, _. split; [reflexivity|].
  unfold FleetManager.get_robot_by_id, FleetManager.log_event,
    FleetManager.set_robots, fleet_ready, on_path.
  cbn [FleetManager.robots FleetManager.nav_graph].
  rewrite robots_get_set. destruct (decide (robot_id = robot_id)); [|done].
  split; [reflexivity|].
  assert (Hlen : length (Robot.position_idx r :: rest) = 1 ↔
                 Robot.position_idx r = destination_idx).
  { destruct (decide (Robot.position_idx r = destination_idx)) as [He|Hne].
    - split; [done|]. intros _. destruct rest as [|x rest]; [done|].
      unfold NavGraph.find_shortest_path, NavGraph.find_shortest_path_fuel
        in Hrun.
      destruct (decide (Robot.position_idx r = destination_idx))
        as [_|?] in Hrun; [discriminate Hrun|done].
    - split; [|by intros ?]. intros Hl.
      destruct rest; [|cbn in Hl; lia]. by specialize (Hrest Hne). }
  assert (Hready : ∀ r',
            Robot.path r' = Robot.position_idx r :: rest →
            Robot.id r' = Robot.id r →
            Robot.destination_idx r' = Some destination_idx →
            Robot.state r' ≠ Robot.WAITING →
            robots_ready g (FleetManager.robots fm) →
            robots_ready g
              (FleetManager.robots_set (FleetManager.robots fm) robot_id r')).
  { intros r' Hpath Hid Hd Hnw [Hnd Hall]. split.
    - by rewrite robots_set_keys by (by rewrite Hget).
    - apply robots_set_Forall; [done|]. cbn. split.
      + rewrite Hid.
        by destruct (proj1 (Forall_forall _ _) Hall (robot_id, r)
                       (robots_get_elem_of _ _ _ Hget)) as [? _].
      + split; [by rewrite Hpath|]. split; [done|]. intros _.
        by exists destination_idx. }
  destruct (decide (length (Robot.position_idx r :: rest) = 1)) as [Hl|Hl];
    cbn [Robot.path Robot.current_path_index Robot.position_idx
         Robot.destination_idx Robot.task_id Robot.state Robot.set_state
         Robot.set_progress Robot.set_blocked_time Robot.set_path_blocked
         Robot.store_task Robot.id];
    (split; [done|]); (split; [done|]); (split; [done|]);
    (split; [done|]); (split; [done|]); split.
  - destruct (decide _) as [_|Hne]; [done|]. by apply Hlen in Hl.
  - by apply Hready.
  - destruct (decide _) as [He|_]; [|done]. by apply Hlen in He.
  - by apply Hready.
Qed.

(** X23: [FleetManager.assign_task] towards an index that is not a vertex
    of the graph does not return [False]: the search for a path raises
    [KeyError], outside the [try] block, and the fleet is left as it
    was. *)
Theorem assign_task_unknown_destination (new_task_id robot_id : string)
    (destination_idx : nat) (fm : FleetManager.t) (r : Robot.t) :
  loaded sqrt (FleetManager.nav_graph fm) →
  FleetManager.get_robot_by_id fm robot_id = Some r →
  Robot.state r ≠ Robot.MOVING → Robot.state r ≠ Robot.WAITING →
  Robot.position_idx r < length (NavGraph.vertices (FleetManager.nav_graph fm)) →
  length (NavGraph.vertices (FleetManager.nav_graph fm)) ≤ destination_idx →
  FleetManager.assign_task new_task_id robot_id destination_idx fm
    = Some (Raise KeyError, fm).
Proof.
  intros Hg Hget Hm Hw Hpos Hdest.
  unfold FleetManager.get_robot_by_id in Hget.
  unfold FleetManager.assign_task. rewrite Hget.
  destruct (decide _) as [[?|?]|_]; [done|done|].
  rewrite find_shortest_path_no_entry; try done.
  - intros u. by apply (loaded_adjacency_dom sqrt).
  - intros u v w. by apply (loaded_edge_valid sqrt sqrt_nonneg).
Qed.

End FleetLoaded.

Lemma sample_route : is_route sample_graph 0 2 [0; 2].
Proof.
  split; [reflexivity|]. split; [reflexivity|].
  constructor; [|constructor].
  destruct (NavGraph.get_lane sample_graph 0 2) as [lane|] eqn:Hlane.
  - exact (get_lane_between sample_graph 0 2 lane Hlane).
  - vm_compute in Hlane. discriminate Hlane.
Defined.

Lemma assign_task_assigns_witness :
  ∃ fm' r',
    FleetManager.assign_task "task-1" "R1" 2 sample_fleet
      = Some (Ret true, fm') ∧
    FleetManager.get_robot_by_id fm' "R1" = Some r' ∧
    is_route sample_graph 0 2 (Robot.path r') ∧
    on_path r' ∧ Robot.state r' = Robot.MOVING.
Proof.
  destruct (assign_task_assigns exact_sqrt exact_sqrt_nonneg "task-1" "R1" 2
              sample_fleet idle_robot) as [Hyes _].
  - exact sample_graph_loaded.
  - reflexivity.
  - discriminate.
  - discriminate.
  - vm_compute. lia.
  - vm_compute. lia.
  - destruct Hyes as (fm' & r' & Hrun & Hget & Hroute & Hon & _ & _ & _ & Hst & _).
    { exists [0; 2]. exact sample_route. }
    exists fm', r'. split; [exact Hrun|]. split; [exact Hget|].
    split; [exact Hroute|]. split; [exact Hon|exact Hst].
Defined.

Lemma assign_task_unknown_destination_witness :
  FleetManager.assign_task "task-1" "R1" 9 sample_fleet
    = Some (Raise KeyError, sample_fleet).
Proof.
  apply (assign_task_unknown_destination exact_sqrt exact_sqrt_nonneg
           "task-1" "R1" 9 sample_fleet idle_robot).
  - exact sample_graph_loaded.
  - reflexivity.
  - discriminate.
  - discriminate.
  - vm_compute. lia.
  - vm_compute. lia.
Defined.

(** ** FleetManager: a pass of updates *)

Section PassExtras.

Variable sqrt : Qc -> Qc.
Variables now delta_time : Qc.

#[local] Abbreviation update_each g todo p :=
  (FleetManager.update_each sqrt g now delta_time todo p).



(** A robot to which no lane is reported blocked ends an update waiting
    only if it was waiting at the end of its path. *)
Lemma update_never_waits (g : NavGraph.t)
    (blocked : nat -> nat -> string -> bool) (r r' : Robot.t)
    (res : result bool) :
  (∀ a b, blocked a b (Robot.id r) = false) →
  Robot.update now delta_time (NavGraph.get_vertex_coords g)
    (NavGraph.calculate_distance sqrt g) blocked r = (res, r') →
  Robot.state r' = Robot.WAITING →
  Robot.state r = Robot.WAITING ∧
  length (Robot.path r) ≤ Robot.current_path_index r + 1.
Proof.
  intros Hfree H Hw.
  update_cases; try done; try congruence;
    try (split; [done|]);
    repeat match goal with
    | H : Robot.path _ !! _ = None |- _ => apply lookup_ge_None_1 in H
    | H : Robot.path ?x = [] ∨ _ |- _ => destruct H as [H|H]; [rewrite H|]
    | H : negb (blocked ?a ?b ?c) = false |- _ =>
        rewrite Hfree in H; discriminate H
    | H : blocked ?a ?b ?c = true |- _ =>
        rewrite Hfree in H; discriminate H
    end; cbn; try lia; try (exfalso; update_absurd).
Qed.

(** X25: a robot that is alone in the fleet is never made to wait: the
    lane it occupies is its own. After a pass it is waiting only if it was
    waiting at the end of its path before. *)
Theorem lone_robot_never_waits (fm : FleetManager.t) (k : string)
    (r : Robot.t) :
  fleet_ready fm →
  FleetManager.robots fm = [(k, r)] →
  ∃ fm' r',
    FleetManager.update_robots sqrt now delta_time fm = (Ret tt, fm') ∧
    FleetManager.robots fm' = [(k, r')] ∧
    (Robot.state r' = Robot.WAITING →
     Robot.state r = Robot.WAITING ∧
     length (Robot.path r) ≤ Robot.current_path_index r + 1).
Proof.
  intros [Hnd Hall] Hrs. rewrite Hrs in Hall.
  apply Forall_cons in Hall as [[Hid Hr] _]. cbn in Hid, Hr.
  unfold FleetManager.update_robots. rewrite Hrs.
  set (p0 := FleetManager.mkPass [] _ _).
  destruct (update_one_ready sqrt (FleetManager.nav_graph fm) now delta_time
              k r p0 Hr) as (changed & r' & p1 & Hup & Hone & Hupd & _).
  cbn [FleetManager.update_each]. rewrite Hone.
  eexists _, r'. split; [reflexivity|].
  cbn [FleetManager.robots]. split; [by rewrite Hupd|].
  refine (update_never_waits _ _ _ _ _ _ Hup).
  intros a b. unfold FleetManager.lane_blocked_in, p0.
  cbn [FleetManager.table FleetManager.mark_occupied].
  destruct (Robot.get_current_lane r) as [lane|].
  - destruct (decide (lane = (a, b))) as [->|Hne].
    + rewrite lookup_insert_eq. by apply bool_decide_eq_false_2; intros ?.
    + by rewrite lookup_insert_ne, lookup_empty.
  - by rewrite lookup_empty.
Qed.

End PassExtras.


Lemma busy_fleet_ready : fleet_ready busy_fleet.
Proof.
  split.
  - cbn. apply NoDup_singleton.
  - constructor; [|constructor]. split; [reflexivity|].
    unfold robot_ready.
    change (Robot.path (busy_fleet.(FleetManager.robots) !!! 0).2)
      with [0; 1].
    split; [repeat constructor; cbn; lia|].
    split; [intros _; vm_compute; lia|].
    intros _. exists 1. split; [reflexivity|]. vm_compute. lia.
Qed.

Lemma lone_robot_never_waits_witness :
  ∃ fm' r',
    FleetManager.update_robots exact_sqrt 0%Qc 1%Qc busy_fleet
      = (Ret tt, fm') ∧
    FleetManager.robots fm' = [("R1", r')] ∧
    (Robot.state r' = Robot.WAITING →
     Robot.state moving_robot = Robot.WAITING ∧
     length (Robot.path moving_robot)
       ≤ Robot.current_path_index moving_robot + 1).
Proof.
  exact (lone_robot_never_waits exact_sqrt 0%Qc 1%Qc busy_fleet "R1"
           moving_robot busy_fleet_ready eq_refl).
Defined.

(** ** TrafficManager: what the tables answer *)

(** X26: [check_path_availability] reports a path unavailable exactly
    when one of its lanes, or the vertex at which one of its lanes starts,
    is under a live lease of another robot. *)
Theorem check_path_availability_tests (now : Qc) (path : list nat)
    (robot_id : string) (self : TrafficManager.t) :
  TrafficManager.check_path_availability now path robot_id self = false ↔
  ∃ a b, (a, b) ∈ lanes_of path ∧
    (live_lease_of_other (TrafficManager.lane_reservations self) (a, b)
       robot_id now ∨
     live_lease_of_other (TrafficManager.intersection_slots self) a
       robot_id now).
Proof.
  unfold TrafficManager.check_path_availability.
  destruct (decide _) as [Hshort|_]; [|apply check_segments_spec].
  split; [done|]. intros (a & b & Hin & _). exfalso.
  destruct path as [|x [|y rest]]; cbn in *.
  - by apply elem_of_nil in Hin.
  - by apply elem_of_nil in Hin.
  - destruct Hshort as [?|?]; [done|lia].
Qed.

(** X27: [clear_expired_reservations] keeps the entries that expire at
    the current time or later, as they are, and removes the others. *)
Theorem clear_expired_reservations_keeps (current_time : Qc)
    (self : TrafficManager.t) (lane : nat * nat) (vertex_idx : nat)
    (holder : string) (expiry : Qc) :
  (TrafficManager.lane_reservations
     (TrafficManager.clear_expired_reservations current_time self) !! lane
     = Some (holder, expiry) ↔
   TrafficManager.lane_reservations self !! lane = Some (holder, expiry) ∧
   (current_time ≤ expiry)%Qc) ∧
  (TrafficManager.intersection_slots
     (TrafficManager.clear_expired_reservations current_time self)
     !! vertex_idx = Some (holder, expiry) ↔
   TrafficManager.intersection_slots self !! vertex_idx
     = Some (holder, expiry) ∧
   (current_time ≤ expiry)%Qc).
Proof.
  unfold TrafficManager.clear_expired_reservations. cbn.
  rewrite !map_lookup_filter_Some. cbn.
  split; (split; intros [Hl He]; (split; [done|]));
    try (by apply Qcnot_lt_le); by apply Qcle_not_lt.
Qed.

Lemma held_by_other_cleared {K : Type} `{Countable K}
    (reservations : gmap K (string * Qc)) (key : K) (robot_id : string)
    (cleared_at current_time : Qc) :
  (cleared_at ≤ current_time)%Qc →
  TrafficManager.held_by_other
    (filter (fun kv => ¬ (kv.2.2 < cleared_at)%Qc) reservations)
    key robot_id current_time
  = TrafficManager.held_by_other reservations key robot_id current_time.
Proof.
  intros Hle. unfold TrafficManager.held_by_other.
  destruct (reservations !! key) as [[holder expiry]|] eqn:Hk.
  - destruct (decide (expiry < cleared_at)%Qc) as [Hexp|Hlive].
    + rewrite (proj2 (map_lookup_filter_None _ _ _)).
      2:{ right. intros x Hx. rewrite Hk in Hx. injection Hx as <-. cbn.
          tauto. }
      rewrite (bool_decide_eq_false_2 (current_time < expiry)%Qc).
      * by rewrite andb_false_r.
      * apply Qcle_not_lt. apply Qclt_le_weak.
        by apply Qclt_le_trans with cleared_at.
    + by rewrite (proj2 (map_lookup_filter_Some _ _ _ _) (conj Hk Hlive)).
  - rewrite (proj2 (map_lookup_filter_None _ _ _)); [done|]. by left.
Qed.

Lemma check_segments_cons (now : Qc) (robot_id : string)
    (self : TrafficManager.t) (a b : nat) (rest : list nat) :
  TrafficManager.check_segments now robot_id self (a :: b :: rest) =
    if TrafficManager.held_by_other (TrafficManager.lane_reservations self)
         (a, b) robot_id now
    then false
    else if TrafficManager.held_by_other
              (TrafficManager.intersection_slots self) a robot_id now
    then false
    else TrafficManager.check_segments now robot_id self (b :: rest).
Proof. reflexivity. Qed.

(** X28: clearing the expired reservations changes no later answer:
    after [clear_expired_reservations] at some time, [reserve_lane],
    [reserve_intersection] and [check_path_availability] at that time or
    later grant and refuse what they would have granted and refused
    without it. *)
Theorem clear_expired_reservations_keeps_answers
    (cleared_at now duration : Qc) (self : TrafficManager.t)
    (lane : nat * nat) (vertex_idx : nat) (path : list nat)
    (robot_id : string) :
  (cleared_at ≤ now)%Qc →
  let cleared :=
    TrafficManager.clear_expired_reservations cleared_at self in
  (TrafficManager.reserve_lane now lane robot_id duration cleared).1
    = (TrafficManager.reserve_lane now lane robot_id duration self).1 ∧
  (TrafficManager.reserve_intersection now vertex_idx robot_id duration
     cleared).1
    = (TrafficManager.reserve_intersection now vertex_idx robot_id duration
         self).1 ∧
  TrafficManager.check_path_availability now path robot_id cleared
    = TrafficManager.check_path_availability now path robot_id self.
Proof.
  intros Hle cleared. unfold cleared, TrafficManager.reserve_lane,
    TrafficManager.reserve_intersection,
    TrafficManager.check_path_availability,
    TrafficManager.clear_expired_reservations.
  cbn [TrafficManager.lane_reservations TrafficManager.intersection_slots].
  rewrite !held_by_other_cleared by done.
  split; [by destruct (TrafficManager.held_by_other _ lane _ _)|].
  split; [by destruct (TrafficManager.held_by_other _ vertex_idx _ _)|].
  destruct (decide _) as [_|_]; [done|].
  induction path as [|a [|b rest] IH]; [done|done|].
  rewrite !(check_segments_cons _ _ _ a b rest).
  cbn [TrafficManager.lane_reservations TrafficManager.intersection_slots].
  rewrite !held_by_other_cleared by done.
  destruct (TrafficManager.held_by_other _ (a, b) _ _); [done|].
  destruct (TrafficManager.held_by_other _ a _ _); [done|].
  exact IH.
Qed.

Lemma clear_expired_reservations_keeps_answers_witness :
  let cleared :=
    TrafficManager.clear_expired_reservations 1%Qc vertex_1_reserved in
  (TrafficManager.reserve_lane 1%Qc (0, 1) "R1" 1%Qc cleared).1
    = (TrafficManager.reserve_lane 1%Qc (0, 1) "R1" 1%Qc
         vertex_1_reserved).1 ∧
  (TrafficManager.reserve_intersection 1%Qc 1 "R1" 1%Qc cleared).1
    = (TrafficManager.reserve_intersection 1%Qc 1 "R1" 1%Qc
         vertex_1_reserved).1 ∧
  TrafficManager.check_path_availability 1%Qc [1; 2] "R1" cleared
    = TrafficManager.check_path_availability 1%Qc [1; 2] "R1"
        vertex_1_reserved.
Proof.
  apply (clear_expired_reservations_keeps_answers 1%Qc 1%Qc 1%Qc
           vertex_1_reserved (0, 1) 1 [1; 2] "R1").
  vm_compute. discriminate.
Defined.

(** ** Helpers (src/utils/helpers.py) *)

(** X29: [clamp] with bounds in order returns a value between the bounds,
    and the value itself when it is between them; with bounds out of
    order it returns the lower bound, whatever the value. *)
Theorem clamp_between (value min_value max_value : Qc) :
  ((min_value ≤ max_value)%Qc →
   (min_value ≤ Helpers.clamp value min_value max_value)%Qc ∧
   (Helpers.clamp value min_value max_value ≤ max_value)%Qc ∧
   ((min_value ≤ value)%Qc → (value ≤ max_value)%Qc →
    Helpers.clamp value min_value max_value = value)) ∧
  ((max_value < min_value)%Qc →
   Helpers.clamp value min_value max_value = min_value).
Proof.
  unfold Helpers.clamp, pymax, pymin.
  split.
  - intros Hle. repeat case_decide; repeat split; try done;
      try apply Qcle_refl; try (intros; apply Qcle_antisym);
      try (by apply Qclt_le_weak); try (by apply Qcnot_lt_le);
      qc_to_q; lra.
  - intros Hlt. repeat case_decide; try done; exfalso; qc_to_q; lra.
Qed.

Lemma clamp_between_witness :
  (0 ≤ Helpers.clamp eleven_tenths 0 1)%Qc ∧
  (Helpers.clamp eleven_tenths 0 1 ≤ 1)%Qc ∧
  Helpers.clamp one_tenth 0 1 = one_tenth ∧
  Helpers.clamp one_tenth 1 0 = 1%Qc.
Proof.
  destruct (clamp_between eleven_tenths 0%Qc 1%Qc) as [Hin _].
  destruct (clamp_between one_tenth 0%Qc 1%Qc) as [Hfix _].
  destruct (clamp_between one_tenth 1%Qc 0%Qc) as [_ Hout].
  destruct Hin as (Hlow & Hhigh & _); [vm_compute; discriminate|].
  destruct Hfix as (_ & _ & Hfix); [vm_compute; discriminate|].
  split; [exact Hlow|]. split; [exact Hhigh|]. split.
  - apply Hfix; vm_compute; discriminate.
  - apply Hout. reflexivity.
Defined.


